(** * Invertible Bloom filter / dictionary: a shallow embedding of
      [invertible_bloom_filter.hpp] and the properties of its operations.

    Keys, values, seeds and counters are unsigned machine integers, modelled
    as [Z] with the wrap-around of the fixed-width ones written out.  XOR is
    [Z.lxor].  Operations that the C++ code leaves undefined (a remainder
    modulo an empty directory) yield [Undefined]; a failed [assert] yields
    [AssertFailed] unless the build defines NDEBUG; [reserve] on a result
    set, asked for more elements than the platform's sets can hold, yields
    [Throws]; the two unbounded loops (seed drawing and peeling) take a
    fuel argument and yield [OutOfFuel] when it is exhausted. *)

From Stdlib Require Import ZArith Lia Bool.
From stdpp Require Import base decidable option numbers list.

Local Open Scope Z_scope.
Set Warnings "-clear-no-such-hyp".

(** ** Outcomes of a call *)

Inductive Run (A : Type) : Type :=
| Returns (a : A)
| Undefined
| AssertFailed
| Throws
| OutOfFuel.
Arguments Returns {A} a.
Arguments Undefined {A}.
Arguments AssertFailed {A}.
Arguments Throws {A}.
Arguments OutOfFuel {A}.

#[global] Instance Run_ret : MRet Run := fun _ a => Returns a.
#[global] Instance Run_bind : MBind Run := fun _ _ f m =>
  match m with
  | Returns a => f a
  | Undefined => Undefined
  | AssertFailed => AssertFailed
  | Throws => Throws
  | OutOfFuel => OutOfFuel
  end.

(** ** Template parameters

    [template <class Key, class HashFn, size_t K = 3,
               class BucketCounter = std::uint16_t>].
    [ndebug] tells whether [assert] is compiled out, and [max_reserve] is
    the largest count that [reserve] accepts, on the platform, for the
    container in which [listAll] collects its result
    ([std::unordered_set<Key>] in the set variant,
    [std::vector<std::pair<Key, Value>>] in the key-value variant). *)

Inductive UInt := uint8_t | uint16_t | uint32_t | uint64_t.

Definition bits (t : UInt) : Z :=
  match t with
  | uint8_t => 8
  | uint16_t => 16
  | uint32_t => 32
  | uint64_t => 64
  end.

Class Template := {
  hasher : Z -> Z;
  K : nat;
  BucketCounter : UInt;
  ndebug : bool;
  max_reserve : N
}.

(** [enum ContainsResult { not_found, might_exist, exists }] *)
Inductive ContainsResult := not_found | might_exist | exists_.

#[global] Instance ContainsResult_eq_dec : EqDecision ContainsResult.
Proof. solve_decision. Defined.

Definition size_t_mod : Z := 2 ^ 64.
Definition Seed_mod : Z := 2 ^ 64.

(** The hash functor of the test-suite, on 64-bit keys. *)
Definition Murmur3Finalizer (key : Z) : Z :=
  let key := Z.lxor key (Z.shiftr key 33) in
  let key := (key * 0xff51afd7ed558ccd) mod 2 ^ 64 in
  let key := Z.lxor key (Z.shiftr key 33) in
  let key := (key * 0xc4ceb9fe1a85ec53) mod 2 ^ 64 in
  let key := Z.lxor key (Z.shiftr key 33) in
  key.

Section Shared.
Context {T : Template}.

(** Number of values of [BucketCounter]. *)
Definition counter_mod : Z := 2 ^ bits BucketCounter.

(** [assert(c)] *)
Definition assert_ (c : bool) : Run unit :=
  if ndebug || c then Returns tt else AssertFailed.

(** [(hasher(key) ^ seed) % size] for a directory that has buckets. *)
Definition slot (size : nat) (key seed : Z) : nat :=
  let hash := Z.lxor (hasher key) seed in
  Z.to_nat (hash mod Z.of_nat size).

(** [hash_index]: the remainder is undefined for an empty directory. *)
Definition hash_index_of (size : nat) (key seed : Z) : Run nat :=
  if decide (size = 0%nat) then Undefined
  else Returns (slot size key seed).

(** The constructor's inner [do ... while (already_exists)] loop for the
    seed of position [length accepted]; [rng] is the stream of values that
    [dist(rng)] returns and [pos] the number of values drawn so far.
    [already_exists] is declared outside the loop and only ever or-ed. *)
Fixpoint draw_seed (fuel : nat) (rng : nat -> Z) (pos : nat)
    (accepted : list Z) (already_exists : bool) : Run (Z * nat) :=
  match fuel with
  | O => OutOfFuel
  | S fuel' =>
      let rand_seed := rng pos mod Seed_mod in
      let already_exists :=
        fold_left (fun acc s => acc || (s =? rand_seed)) accepted
                  already_exists in
      if already_exists
      then draw_seed fuel' rng (S pos) accepted already_exists
      else Returns (rand_seed, S pos)
  end.

(** The constructor's outer [for (i = 0; i < K; i++)] loop, with [n] the
    number of seeds still to produce. *)
Fixpoint seed_loop (fuel : nat) (rng : nat -> Z) (n : nat) (pos : nat)
    (accepted : list Z) : Run (list Z) :=
  match n with
  | O => Returns accepted
  | S n' =>
      '(rand_seed, pos') ← draw_seed fuel rng pos accepted false;
      seed_loop fuel rng n' pos' (accepted ++ [rand_seed])
  end.

(** [res.reserve(count)]: an exception ([std::length_error] or
    [std::bad_alloc]) for a count that the container cannot reserve. *)
Definition reserve (count : Z) : Run unit :=
  if count <=? Z.of_N max_reserve then Returns tt else Throws.

(** [res.insert(key)] on a [std::unordered_set]. *)
Definition set_insert (key : Z) (res : list Z) : list Z :=
  if bool_decide (key ∈ res) then res else res ++ [key].
End Shared.

(** ** The set variant: [InvertibleBloomFilter] *)

Module Filter.
Record Bucket := mkBucket { cumulative_key : Z; count : Z }.

Record IBF := mkIBF {
  seeds : list Z;
  buckets : list Bucket;
  ibf_count : Z
}.

Section Ops.
Context {T : Template}.

Definition hash_index (st : list Bucket) (key seed : Z) : Run nat :=
  hash_index_of (length st) key seed.

(** [InvertibleBloomFilter(size, seed)] *)
Definition new (fuel : nat) (size : nat) (rng : nat -> Z) : Run IBF :=
  sds ← seed_loop fuel rng K 0%nat [];
  mret (mkIBF sds (replicate size (mkBucket 0 0)) 0).

Definition size (st : IBF) : Z := ibf_count st.
Definition directory_size (st : IBF) : nat := length (buckets st).
Definition listSeeds (st : IBF) : list Z := seeds st.

Definition bump (key : Z) (b : Bucket) : Bucket :=
  mkBucket (Z.lxor (cumulative_key b) key) ((count b + 1) mod counter_mod).

Definition drop (key : Z) (b : Bucket) : Bucket :=
  mkBucket (Z.lxor (cumulative_key b) key) ((count b - 1) mod counter_mod).

Fixpoint insert_loop (key : Z) (sds : list Z) (seen_indices : list nat)
    (bs : list Bucket) : Run (list Bucket) :=
  match sds with
  | [] => Returns bs
  | seed :: rest =>
      index ← hash_index bs key seed;
      if bool_decide (index ∈ seen_indices)
      then insert_loop key rest seen_indices bs
      else insert_loop key rest (index :: seen_indices)
             (alter (bump key) index bs)
  end.

Definition insert (key : Z) (st : IBF) : Run IBF :=
  bs ← insert_loop key (seeds st) [] (buckets st);
  mret (mkIBF (seeds st) bs ((ibf_count st + 1) mod size_t_mod)).

Fixpoint contains_loop (key : Z) (sds : list Z) (bs : list Bucket)
    (might : bool) : Run ContainsResult :=
  match sds with
  | [] => Returns (if might then might_exist else not_found)
  | seed :: rest =>
      index ← hash_index bs key seed;
      match bs !! index with
      | None => Undefined
      | Some bucket =>
          if count bucket =? 1
          then Returns (if key =? cumulative_key bucket
                        then exists_ else not_found)
          else contains_loop key rest bs (might || (1 <? count bucket))
      end
  end.

Definition contains (key : Z) (st : IBF) : Run ContainsResult :=
  contains_loop key (seeds st) (buckets st) false.

Fixpoint remove_loop (key : Z) (sds : list Z) (seen_indices : list nat)
    (bs : list Bucket) : Run (list Bucket) :=
  match sds with
  | [] => Returns bs
  | seed :: rest =>
      index ← hash_index bs key seed;
      if bool_decide (index ∈ seen_indices)
      then remove_loop key rest seen_indices bs
      else
        match bs !! index with
        | None => Undefined
        | Some bucket =>
            _ ← assert_ (0 <? count bucket);
            remove_loop key rest (index :: seen_indices)
              (alter (drop key) index bs)
        end
  end.

Definition remove (key : Z) (st : IBF) : Run (bool * IBF) :=
  c ← contains key st;
  if decide (c = exists_) then
    bs ← remove_loop key (seeds st) [] (buckets st);
    mret (true, mkIBF (seeds st) bs ((ibf_count st - 1) mod size_t_mod))
  else mret (false, st).

(** One pass of the [for] loop of [listAll] over the bucket indices
    [idxs], on the working copy. *)
Fixpoint scan (idxs : list nat) (copy : IBF) (res : list Z)
    (finished has_changed : bool) : Run (IBF * list Z * bool * bool) :=
  match idxs with
  | [] => Returns (copy, res, finished, has_changed)
  | i :: rest =>
      match buckets copy !! i with
      | None => Undefined
      | Some bucket =>
          if count bucket =? 0
          then scan rest copy res finished has_changed
          else if 1 <? count bucket
          then scan rest copy res false has_changed
          else
            let key := cumulative_key bucket in
            let res := set_insert key res in
            '(removed, copy') ← remove key copy;
            match buckets copy' !! i with
            | None => Undefined
            | Some bucket' =>
                _ ← assert_ (count bucket' =? 0);
                scan rest copy' res finished removed
            end
      end
  end.

(** [while (!finished && has_changed)] *)
Fixpoint peel (fuel : nat) (copy : IBF) (res : list Z)
    (finished has_changed : bool) : Run (IBF * list Z * bool) :=
  if negb finished && has_changed then
    match fuel with
    | O => OutOfFuel
    | S fuel' =>
        '(copy', res', finished', has_changed') ←
          scan (seq 0 (length (buckets copy))) copy res true false;
        peel fuel' copy' res' finished' has_changed'
    end
  else Returns (copy, res, finished).

(** [listAll() const]: the result together with the structure it was
    called on, as the call leaves it. *)
Definition listAll (fuel : nat) (this : IBF)
    : Run (option (list Z) * IBF) :=
  _ ← reserve (ibf_count this);
  let copy := this in
  '(copy', res, finished) ← peel fuel copy [] false true;
  if negb finished || negb (Z.of_nat (length res) =? ibf_count this)
  then mret (None, this)
  else mret (Some res, this).
End Ops.
End Filter.

(** ** Histories: sequences of calls on one instance *)

Inductive Op := Insert (key : Z) | Remove (key : Z).

(** The first occurrence of [key] taken out of the list of present keys. *)
Fixpoint remove_one (key : Z) (present : list Z) : list Z :=
  match present with
  | [] => []
  | k :: rest =>
      if bool_decide (k = key) then rest else k :: remove_one key rest
  end.

(** What a history has led to: the instance, the keys inserted and not yet
    removed, the largest number of keys that were present at once, and
    whether every inserted key was absent when it was inserted. *)
Record Trace (S E : Type) := mkTrace {
  state : S;
  present : list E;
  peak : nat;
  fresh : bool
}.
Arguments mkTrace {S E}.
Arguments state {S E}.
Arguments present {S E}.
Arguments peak {S E}.
Arguments fresh {S E}.

Module FilterHistory.
Import Filter.
Section Replay.
Context {T : Template}.

(** Insertions and removals played in order; a removal that returns
    false changes nothing. *)
Fixpoint replay (ops : list Op) (tr : Trace IBF Z) : Run (Trace IBF Z) :=
  match ops with
  | [] => Returns tr
  | Insert key :: rest =>
      st' ← insert key (state tr);
      replay rest
        (mkTrace st' (key :: present tr)
           (Nat.max (peak tr) (S (length (present tr))))
           (fresh tr && negb (bool_decide (key ∈ present tr))))
  | Remove key :: rest =>
      '(removed, st') ← remove key (state tr);
      if (removed : bool)
      then replay rest
             (mkTrace st' (remove_one key (present tr)) (peak tr) (fresh tr))
      else replay rest tr
  end.

(** A freshly constructed instance: distinct seeds or not, [size]
    zeroed buckets, no key. *)
Definition empty (sds : list Z) (size : nat) : IBF :=
  mkIBF sds (replicate size (mkBucket 0 0)) 0.

Definition start (sds : list Z) (size : nat) : Trace IBF Z :=
  mkTrace (empty sds size) [] 0%nat true.
End Replay.
End FilterHistory.

(** ** The key-value variant: [InvertibleBloomDictionary] *)

Module Dictionary.
Record Bucket := mkBucket {
  cumulative_key : Z;
  cumulative_value : Z;
  count : Z
}.

Record IBD := mkIBD {
  seeds : list Z;
  buckets : list Bucket;
  ibd_count : Z
}.

Section Ops.
Context {T : Template}.

Definition hash_index (st : list Bucket) (key seed : Z) : Run nat :=
  hash_index_of (length st) key seed.

(** [InvertibleBloomDictionary(size, seed)] *)
Definition new (fuel : nat) (size : nat) (rng : nat -> Z) : Run IBD :=
  sds ← seed_loop fuel rng K 0%nat [];
  mret (mkIBD sds (replicate size (mkBucket 0 0 0)) 0).

Definition size (st : IBD) : Z := ibd_count st.
Definition directory_size (st : IBD) : nat := length (buckets st).
Definition listSeeds (st : IBD) : list Z := seeds st.

Definition bump (key value : Z) (b : Bucket) : Bucket :=
  mkBucket (Z.lxor (cumulative_key b) key)
           (Z.lxor (cumulative_value b) value)
           ((count b + 1) mod counter_mod).

Definition drop (key value : Z) (b : Bucket) : Bucket :=
  mkBucket (Z.lxor (cumulative_key b) key)
           (Z.lxor (cumulative_value b) value)
           ((count b - 1) mod counter_mod).

Fixpoint insert_loop (key value : Z) (sds : list Z)
    (seen_indices : list nat) (bs : list Bucket) : Run (list Bucket) :=
  match sds with
  | [] => Returns bs
  | seed :: rest =>
      index ← hash_index bs key seed;
      if bool_decide (index ∈ seen_indices)
      then insert_loop key value rest seen_indices bs
      else insert_loop key value rest (index :: seen_indices)
             (alter (bump key value) index bs)
  end.

Definition insert (key value : Z) (st : IBD) : Run IBD :=
  bs ← insert_loop key value (seeds st) [] (buckets st);
  mret (mkIBD (seeds st) bs ((ibd_count st + 1) mod size_t_mod)).

Fixpoint contains_loop (key : Z) (sds : list Z) (bs : list Bucket)
    (might : bool) : Run ContainsResult :=
  match sds with
  | [] => Returns (if might then might_exist else not_found)
  | seed :: rest =>
      index ← hash_index bs key seed;
      match bs !! index with
      | None => Undefined
      | Some bucket =>
          if count bucket =? 1
          then Returns (if key =? cumulative_key bucket
                        then exists_ else not_found)
          else contains_loop key rest bs (might || (1 <? count bucket))
      end
  end.

Definition contains (key : Z) (st : IBD) : Run ContainsResult :=
  contains_loop key (seeds st) (buckets st) false.

Fixpoint get_loop (key : Z) (sds : list Z) (bs : list Bucket)
    : Run (option Z) :=
  match sds with
  | [] => Returns None
  | seed :: rest =>
      index ← hash_index bs key seed;
      match bs !! index with
      | None => Undefined
      | Some bucket =>
          if count bucket =? 1
          then Returns (if key =? cumulative_key bucket
                        then Some (cumulative_value bucket) else None)
          else get_loop key rest bs
      end
  end.

Definition get (key : Z) (st : IBD) : Run (option Z) :=
  get_loop key (seeds st) (buckets st).

Fixpoint remove_loop (key value : Z) (sds : list Z)
    (seen_indices : list nat) (bs : list Bucket) : Run (list Bucket) :=
  match sds with
  | [] => Returns bs
  | seed :: rest =>
      index ← hash_index bs key seed;
      if bool_decide (index ∈ seen_indices)
      then remove_loop key value rest seen_indices bs
      else
        match bs !! index with
        | None => Undefined
        | Some bucket =>
            _ ← assert_ (0 <? count bucket);
            remove_loop key value rest (index :: seen_indices)
              (alter (drop key value) index bs)
        end
  end.

Definition remove (key : Z) (st : IBD) : Run (bool * IBD) :=
  value ← get key st;
  match value with
  | None => mret (false, st)
  | Some v =>
      bs ← remove_loop key v (seeds st) [] (buckets st);
      mret (true, mkIBD (seeds st) bs ((ibd_count st - 1) mod size_t_mod))
  end.

Fixpoint scan (idxs : list nat) (copy : IBD) (res : list (Z * Z))
    (finished has_changed : bool)
    : Run (IBD * list (Z * Z) * bool * bool) :=
  match idxs with
  | [] => Returns (copy, res, finished, has_changed)
  | i :: rest =>
      match buckets copy !! i with
      | None => Undefined
      | Some bucket =>
          if count bucket =? 0
          then scan rest copy res finished has_changed
          else if 1 <? count bucket
          then scan rest copy res false has_changed
          else
            let res :=
              res ++ [(cumulative_key bucket, cumulative_value bucket)] in
            '(removed, copy') ← remove (cumulative_key bucket) copy;
            match buckets copy' !! i with
            | None => Undefined
            | Some bucket' =>
                _ ← assert_ (count bucket' =? 0);
                scan rest copy' res finished removed
            end
      end
  end.

Fixpoint peel (fuel : nat) (copy : IBD) (res : list (Z * Z))
    (finished has_changed : bool) : Run (IBD * list (Z * Z) * bool) :=
  if negb finished && has_changed then
    match fuel with
    | O => OutOfFuel
    | S fuel' =>
        '(copy', res', finished', has_changed') ←
          scan (seq 0 (length (buckets copy))) copy res true false;
        peel fuel' copy' res' finished' has_changed'
    end
  else Returns (copy, res, finished).

Definition listAll (fuel : nat) (this : IBD)
    : Run (option (list (Z * Z)) * IBD) :=
  _ ← reserve (ibd_count this);
  let copy := this in
  '(copy', res, finished) ← peel fuel copy [] false true;
  if negb finished || negb (Z.of_nat (length res) =? ibd_count this)
  then mret (None, this)
  else mret (Some res, this).
End Ops.
End Dictionary.

(** ** Histories of the key-value variant *)

Inductive DOp := Put (key value : Z) | Del (key : Z).

(** The first pair of key [key] taken out of the pairs present. *)
Fixpoint remove_key (key : Z) (present : list (Z * Z)) : list (Z * Z) :=
  match present with
  | [] => []
  | kv :: rest =>
      if bool_decide (kv.1 = key) then rest else kv :: remove_key key rest
  end.

Module DictHistory.
Import Dictionary.
Section Replay.
Context {T : Template}.

Fixpoint replay (ops : list DOp) (tr : Trace IBD (Z * Z))
    : Run (Trace IBD (Z * Z)) :=
  match ops with
  | [] => Returns tr
  | Put key value :: rest =>
      st' ← insert key value (state tr);
      replay rest
        (mkTrace st' ((key, value) :: present tr)
           (Nat.max (peak tr) (S (length (present tr))))
           (fresh tr && negb (bool_decide (key ∈ (present tr).*1))))
  | Del key :: rest =>
      '(removed, st') ← remove key (state tr);
      if (removed : bool)
      then replay rest
             (mkTrace st' (remove_key key (present tr)) (peak tr) (fresh tr))
      else replay rest tr
  end.

Definition empty (sds : list Z) (size : nat) : IBD :=
  mkIBD sds (replicate size (mkBucket 0 0 0)) 0.

Definition start (sds : list Z) (size : nat) : Trace IBD (Z * Z) :=
  mkTrace (empty sds size) [] 0%nat true.
End Replay.
End DictHistory.

(** * Definitions used to state and prove the properties *)

(** ** Updating several buckets *)

Definition alter_all {A : Type} (f : A -> A) (idxs : list nat) (bs : list A)
    : list A :=
  foldl (fun acc i => alter f i acc) bs idxs.

Section ProbeDefs.
Context {T : Template}.

(** The bucket indices that the dedup loop of [insert] and [remove]
    updates, in order: the slots of the seeds, without those in [seen] and
    without repetitions. *)
Fixpoint touched (size : nat) (key : Z) (sds : list Z) (seen : list nat)
    : list nat :=
  match sds with
  | [] => []
  | seed :: rest =>
      let index := slot size key seed in
      if bool_decide (index ∈ seen) then touched size key rest seen
      else index :: touched size key rest (index :: seen)
  end.

Definition slots (size : nat) (key : Z) (sds : list Z) : list nat :=
  map (slot size key) sds.

(** The present keys that probe bucket [i]. *)
Definition load (size : nat) (sds : list Z) (M : list Z) (i : nat) : list Z :=
  filter (fun k => i ∈ slots size k sds) M.

(** The present pairs whose key probes bucket [i]. *)
Definition dload (size : nat) (sds : list Z) (M : list (Z * Z)) (i : nat)
    : list (Z * Z) :=
  filter (fun kv => i ∈ slots size kv.1 sds) M.
End ProbeDefs.

Definition xors (l : list Z) : Z := foldr Z.lxor 0 l.

(** ** Occupancy of the buckets

    The largest number of present keys that probe one and the same
    bucket; and the largest value that this number takes at any moment
    of a history of calls on an instance. *)

Definition max_load `{T : Template} (size : nat) (sds : list Z)
    (M : list Z) : nat :=
  max_list ((fun i => length (load size sds M i)) <$> seq 0 size).

Fixpoint bucket_peak `{T : Template} (ops : list Op)
    (tr : Trace Filter.IBF Z) : nat :=
  Nat.max
    (max_load (length (Filter.buckets (state tr))) (Filter.seeds (state tr))
       (present tr))
    match ops with
    | [] => 0%nat
    | op :: rest =>
        match FilterHistory.replay [op] tr with
        | Returns tr' => bucket_peak rest tr'
        | _ => 0%nat
        end
    end.

Fixpoint dict_bucket_peak `{T : Template} (ops : list DOp)
    (tr : Trace Dictionary.IBD (Z * Z)) : nat :=
  Nat.max
    (max_load (length (Dictionary.buckets (state tr)))
       (Dictionary.seeds (state tr)) (present tr).*1)
    match ops with
    | [] => 0%nat
    | op :: rest =>
        match DictHistory.replay [op] tr with
        | Returns tr' => dict_bucket_peak rest tr'
        | _ => 0%nat
        end
    end.

(** ** Consistent and well-typed instances of the set variant *)

Module FilterSpec.
Import Filter.
Section Defs.
Context {T : Template}.

(** The assertions of the [remove] loop hold at the buckets [idxs]. *)
Definition counts_pos (bs : list Bucket) (idxs : list nat) : bool :=
  forallb (fun i => match bs !! i with
                    | Some b => 0 <? count b
                    | None => true
                    end) idxs.

(** Every bucket counts, without wrap-around, the present keys that
    probe it and holds their XOR; the global count is their number, as a
    [size_t]. *)
Definition consistent (st : IBF) (M : list Z) : Prop :=
  length (buckets st) <> 0%nat /\
  (forall i,
     Z.of_nat (length (load (length (buckets st)) (seeds st) M i))
       < counter_mod) /\
  ibf_count st = Z.of_nat (length M) mod size_t_mod /\
  forall i b, buckets st !! i = Some b ->
    count b = Z.of_nat (length (load (length (buckets st)) (seeds st) M i))
    /\ cumulative_key b = xors (load (length (buckets st)) (seeds st) M i).

(** Every count is a value of [BucketCounter] and the global count a
    value of [size_t]. *)
Definition well_typed (st : IBF) : Prop :=
  Forall (fun b => 0 <= count b < counter_mod) (buckets st) /\
  0 <= ibf_count st < size_t_mod.

(** Distance of a count to zero along decrements with wrap-around. *)
Definition weight (c : Z) : Z := if c =? 0 then 0 else counter_mod - c.

(** The measure that successful removals lower. *)
Definition potential (bs : list Bucket) : Z :=
  foldr (fun b acc => weight (count b) + acc) 0 bs.
End Defs.
End FilterSpec.

(** ** Consistent instances of the key-value variant *)

Module DictSpec.
Import Dictionary.
Section Defs.
Context {T : Template}.

(** The assertions of the [remove] loop hold at the buckets [idxs]. *)
Definition counts_pos (bs : list Bucket) (idxs : list nat) : bool :=
  forallb (fun i => match bs !! i with
                    | Some b => 0 <? count b
                    | None => true
                    end) idxs.

(** As for the set variant, with pairwise-distinct keys and every
    bucket also holding the XOR of the values of its keys. *)
Definition consistent (st : IBD) (M : list (Z * Z)) : Prop :=
  length (buckets st) <> 0%nat /\
  (forall i,
     Z.of_nat (length (dload (length (buckets st)) (seeds st) M i))
       < counter_mod) /\
  NoDup M.*1 /\
  ibd_count st = Z.of_nat (length M) mod size_t_mod /\
  forall i b, buckets st !! i = Some b ->
    count b = Z.of_nat (length (dload (length (buckets st)) (seeds st) M i))
    /\ cumulative_key b
       = xors (dload (length (buckets st)) (seeds st) M i).*1
    /\ cumulative_value b
       = xors (dload (length (buckets st)) (seeds st) M i).*2.
End Defs.
End DictSpec.

(** * Concrete instantiations *)

(** The instantiation of the test-suite, [<uint64_t, Murmur3Finalizer>] with
    the defaults [K = 3] and [BucketCounter = uint16_t], asserts enabled,
    on a platform that reserves up to [2 ^ 32] elements. *)
Definition Tests : Template :=
  {| hasher := Murmur3Finalizer; K := 3; BucketCounter := uint16_t;
     ndebug := false; max_reserve := 2 ^ 32 |}.

(** The same with [BucketCounter = uint8_t]. *)
Definition Narrow : Template :=
  {| hasher := Murmur3Finalizer; K := 3; BucketCounter := uint8_t;
     ndebug := false; max_reserve := 2 ^ 32 |}.

(** The defaults with no seed at all, [K = 0]. *)
Definition Seedless : Template :=
  {| hasher := Murmur3Finalizer; K := 0; BucketCounter := uint16_t;
     ndebug := false; max_reserve := 2 ^ 32 |}.

(** [BucketCounter = uint8_t], compiled with NDEBUG. *)
Definition NarrowRelease : Template :=
  {| hasher := Murmur3Finalizer; K := 3; BucketCounter := uint8_t;
     ndebug := true; max_reserve := 2 ^ 32 |}.

(** Seeds as a constructor may produce them. *)
Definition some_seeds : list Z :=
  [0x9e3779b97f4a7c15; 0xbf58476d1ce4e5b9; 0x94d049bb133111eb].

(** The keys [1 .. n]. *)
Definition keys_upto (n : nat) : list Z :=
  map (fun i => Z.of_nat (S i)) (seq 0 n).

(** Result of a call known to return. *)
Definition returned {A : Type} (default : A) (r : Run A) : A :=
  match r with Returns a => a | _ => default end.

(** The scenario of [TestRemove]: two insertions and a removal, directory
    size 10. *)
Definition ops_small : list Op := [Insert 1337; Insert 84; Remove 1337].

Definition trace_small : Trace Filter.IBF Z :=
  Eval vm_compute in
    returned (FilterHistory.start some_seeds 10)
      (FilterHistory.replay (T:=Tests) ops_small
         (FilterHistory.start some_seeds 10)).

(** A stream of random values whose second value repeats the first and whose
    later values are all new. *)
Definition colliding_stream (n : nat) : Z :=
  match n with
  | O => 5
  | S O => 5
  | S (S m) => 7 + Z.of_nat m
  end.

(** 256 keys that, under [some_seeds] and in a directory of 999 buckets,
    all probe bucket 197 and otherwise only buckets of higher index that no
    other of them probes. *)
Definition crowd_keys : list Z :=
  [239; 622; 798; 1347; 1411; 1494; 1901; 2969; 3290; 3714; 4339; 4412;
   6034; 6445; 7450; 7687; 8016; 8064; 8236; 8288; 8453; 8550; 9170;
   10131; 10410; 10667; 12033; 12459; 12547; 13842; 14173; 15305; 15416;
   15932; 16639; 20736; 20788; 21220; 21519; 22689; 23363; 23699; 23840;
   24153; 25328; 25385; 25394; 25747; 27339; 27394; 28395; 28649; 30361;
   31119; 31517; 32388; 33881; 34244; 34655; 35424; 35800; 36785; 37910;
   38715; 39432; 39758; 40608; 41586; 43955; 45009; 45350; 46631; 46787;
   47932; 47976; 48083; 48343; 51014; 51489; 51804; 52523; 52559; 53231;
   54116; 54469; 56309; 56578; 57121; 57744; 58291; 58320; 60910; 62026;
   63327; 63487; 63660; 63834; 63972; 65084; 66877; 67025; 67395; 67638;
   67974; 70038; 70495; 70900; 71527; 71808; 72688; 73897; 76031; 77018;
   77664; 78373; 78635; 79451; 79490; 79609; 80082; 80672; 81191; 81403;
   81474; 82894; 82896; 82986; 84267; 85393; 85776; 86232; 87219; 88877;
   89434; 91911; 92200; 93394; 95515; 95636; 96540; 96642; 96931; 97715;
   98532; 99977; 101656; 102290; 103835; 106361; 116343; 116363; 117089;
   117170; 117447; 117789; 117944; 118549; 119596; 121581; 122881;
   123625; 125443; 127402; 128597; 129275; 130556; 132146; 134871;
   135041; 138461; 139055; 140729; 143402; 143781; 145071; 145144;
   154572; 155219; 155665; 156952; 159509; 161482; 165140; 166029;
   166138; 166333; 166736; 168571; 173054; 173385; 175182; 175596;
   179379; 180157; 181692; 182790; 186783; 187784; 192068; 193938;
   201483; 202558; 202587; 203369; 205360; 206907; 217053; 217942;
   219204; 219541; 222201; 223791; 224240; 226891; 227831; 236753;
   241261; 244789; 245479; 246237; 249882; 253039; 254313; 255954;
   259506; 265839; 269210; 270912; 273253; 278917; 284882; 287500;
   293724; 293995; 296554; 307602; 312440; 314540; 325401; 327179;
   327461; 336275; 338086; 339041; 339385; 341270; 342503; 356826;
   356852; 357409; 358707; 360646; 365721; 366411; 385404; 389412].

(** A key whose three probes all fall on bucket 197. *)
Definition hidden_key : Z := 1201362.

(** The XOR of [hidden_key] and [crowd_keys]; it is none of them. *)
Definition phantom_key : Z := 1380111.

(** The 257 keys inserted one after the other. *)
Definition ops_crowd : list Op := map Insert (hidden_key :: crowd_keys).

(** An instance whose global count is the largest [size_t]. *)
Definition overfull : Filter.IBF :=
  Filter.mkIBF some_seeds [Filter.mkBucket 0 0; Filter.mkBucket 0 0]
    (2 ^ 64 - 1).

(** As many insertions of distinct keys as [size_t] has values. *)
Definition ops_flood : list Op :=
  map Insert (keys_upto (Z.to_nat size_t_mod)).

(** An instance whose global count is 0 while a bucket holds key 4. *)
Definition uncounted : Filter.IBF :=
  Filter.mkIBF some_seeds [Filter.mkBucket 4 1; Filter.mkBucket 0 5] 0.

(** The same buckets under a global count, 6, that is no smaller than
    the directory; and a dictionary with such buckets. *)
Definition overcounted : Filter.IBF :=
  Filter.mkIBF some_seeds [Filter.mkBucket 4 1; Filter.mkBucket 0 5] 6.

Definition overcounted_dict : Dictionary.IBD :=
  Dictionary.mkIBD some_seeds
    [Dictionary.mkBucket 4 9 1; Dictionary.mkBucket 0 0 5] 6.

(** An instantiation with as many seeds as [BucketCounter = uint8_t] has
    values, the identity as hash functor, and NDEBUG. *)
Definition Wide : Template :=
  {| hasher := fun key => key; K := 256; BucketCounter := uint8_t;
     ndebug := true; max_reserve := 2 ^ 32 |}.

Definition wide_key : Z := 1.

(** 256 distinct seeds; seed [j] sends [wide_key] to bucket [j]. *)
Definition wide_seeds : list Z :=
  map (fun j => Z.lxor wide_key (Z.of_nat j)) (seq 0 256).

(** Bucket [i < 256] after [t] removals of [wide_key]: its count is
    [i + 1 - t] modulo 256 and it holds [wide_key] when [i + t] is even. *)
Definition wide_bucket (t i : nat) : Filter.Bucket :=
  Filter.mkBucket (if Nat.even (i + t) then wide_key else 0)
                  ((Z.of_nat (S i) - Z.of_nat t) mod 256).

(** 257 buckets: the 256 above and a last bucket of count 5. *)
Definition wide_buckets_at (t : nat) : list Filter.Bucket :=
  map (wide_bucket t) (seq 0 256) ++ [Filter.mkBucket 0 5].

Definition cycling : Filter.IBF :=
  Filter.mkIBF wide_seeds (wide_buckets_at 0) 0.

(** The dictionary scenario of [TestRemove]. *)
Definition dops_small : list DOp := [Put 1337 42; Put 84 85; Del 1337].

Definition dtrace_small : Trace Dictionary.IBD (Z * Z) :=
  Eval vm_compute in
    returned (DictHistory.start some_seeds 10)
      (DictHistory.replay (T:=Tests) dops_small
         (DictHistory.start some_seeds 10)).

(** * Further definitions *)

(** ** The constructor's draws

    The [n] values that [dist(rng)] returns from position [pos] on, as
    64-bit seeds. *)
Definition draws (rng : nat -> Z) (pos n : nat) : list Z :=
  map (fun i => rng i mod Seed_mod) (seq pos n).

(** ** Results of calls, mapped *)

#[global] Instance Run_fmap : FMap Run := fun _ _ f m =>
  match m with
  | Returns a => Returns (f a)
  | Undefined => Undefined
  | AssertFailed => AssertFailed
  | Throws => Throws
  | OutOfFuel => OutOfFuel
  end.

(** ** The key side of a dictionary

    [InvertibleBloomDictionary::Bucket] is [InvertibleBloomFilter::Bucket]
    with one more field, [cumulative_value]: a dictionary bucket without
    it is a bucket of the set variant, and a dictionary without its values
    an instance of the set variant. *)
Definition key_bucket (b : Dictionary.Bucket) : Filter.Bucket :=
  Filter.mkBucket (Dictionary.cumulative_key b) (Dictionary.count b).

Definition key_side (d : Dictionary.IBD) : Filter.IBF :=
  Filter.mkIBF (Dictionary.seeds d) (key_bucket <$> Dictionary.buckets d)
    (Dictionary.ibd_count d).

(** ** Loops of a caller

    [for (const auto &d : data) ibf.insert(d.first, d.second);] of
    [TestListAll], and the same loop on the set variant. *)
Fixpoint insert_all `{T : Template} (keys : list Z) (st : Filter.IBF)
    : Run Filter.IBF :=
  match keys with
  | [] => Returns st
  | key :: rest => st' ← Filter.insert key st; insert_all rest st'
  end.

Fixpoint put_all `{T : Template} (data : list (Z * Z)) (d : Dictionary.IBD)
    : Run Dictionary.IBD :=
  match data with
  | [] => Returns d
  | kv :: rest => d' ← Dictionary.insert kv.1 kv.2 d; put_all rest d'
  end.

(** ** Keys that can be peeled

    The keys [M] can be taken out one at a time, each at a moment when
    some bucket is probed for it and for no other key that is left. *)
Inductive peelable `{T : Template} (size : nat) (sds : list Z)
    : list Z -> Prop :=
| peelable_nil : peelable size sds []
| peelable_step M k i :
    load size sds M i = [k] ->
    peelable size sds (remove_one k M) ->
    peelable size sds M.

(** ** More scenarios *)

(** The pairs that [TestListAll] inserts. *)
Definition test_data : list (Z * Z) := [(1, 0); (1337, 42); (86, 89)].

(** A history that inserts key 84 and nothing else; it ends with the same
    key present as [ops_small]. *)
Definition ops_direct : list Op := [Insert 84].

Definition trace_direct : Trace Filter.IBF Z :=
  Eval vm_compute in
    returned (FilterHistory.start some_seeds 10)
      (FilterHistory.replay (T:=Tests) ops_direct
         (FilterHistory.start some_seeds 10)).

(** The same for the dictionary. *)
Definition dops_direct : list DOp := [Put 84 85].

Definition dtrace_direct : Trace Dictionary.IBD (Z * Z) :=
  Eval vm_compute in
    returned (DictHistory.start some_seeds 10)
      (DictHistory.replay (T:=Tests) dops_direct
         (DictHistory.start some_seeds 10)).

(** * Reasoning infrastructure *)

(** ** Updating several buckets *)

Lemma alter_all_length {A} (f : A -> A) idxs (bs : list A) :
  length (alter_all f idxs bs) = length bs.
Proof.
  revert bs. induction idxs as [|i idxs IH]; intros bs; simpl; [done|].
  unfold alter_all in *. simpl. by rewrite IH, length_alter.
Qed.

Lemma alter_all_lookup_notin {A} (f : A -> A) idxs (bs : list A) j :
  j ∉ idxs -> alter_all f idxs bs !! j = bs !! j.
Proof.
  revert bs. induction idxs as [|i idxs IH]; intros bs Hj; [done|].
  apply not_elem_of_cons in Hj as [Hne Hj].
  unfold alter_all in *. simpl. rewrite IH by done.
  by apply list_lookup_alter_ne.
Qed.

Lemma alter_all_lookup_in {A} (f : A -> A) idxs (bs : list A) j :
  NoDup idxs -> j ∈ idxs -> alter_all f idxs bs !! j = f <$> bs !! j.
Proof.
  revert bs. induction idxs as [|i idxs IH]; intros bs Hnd Hj.
  - by apply elem_of_nil in Hj.
  - apply NoDup_cons in Hnd as [Hi Hnd].
    unfold alter_all in *. simpl.
    destruct (decide (j = i)) as [->|Hne].
    + change (foldl _ ?b idxs) with (alter_all f idxs b).
      rewrite alter_all_lookup_notin by done.
      by rewrite list_lookup_alter_eq.
    + apply elem_of_cons in Hj as [?|Hj]; [done|].
      rewrite IH by done. by rewrite list_lookup_alter_ne.
Qed.

Lemma alter_all_lookup {A} (f : A -> A) idxs (bs : list A) j :
  NoDup idxs ->
  alter_all f idxs bs !! j =
    if bool_decide (j ∈ idxs) then f <$> bs !! j else bs !! j.
Proof.
  intros Hnd. case_bool_decide.
  - by apply alter_all_lookup_in.
  - by apply alter_all_lookup_notin.
Qed.

Lemma alter_all_cons {A} (f : A -> A) i idxs (bs : list A) :
  alter_all f (i :: idxs) bs = alter_all f idxs (alter f i bs).
Proof. done. Qed.

Section Probes.
Context {T : Template}.

Lemma slot_lt size key seed : size <> 0%nat -> (slot size key seed < size)%nat.
Proof.
  intros Hn. unfold slot.
  pose proof (Z.mod_pos_bound (Z.lxor (hasher key) seed) (Z.of_nat size)).
  lia.
Qed.

Lemma hash_index_of_pos size key seed :
  size <> 0%nat -> hash_index_of size key seed = Returns (slot size key seed).
Proof. intros Hn. unfold hash_index_of. by destruct (decide _). Qed.

Lemma elem_of_touched size key sds seen i :
  i ∈ touched size key sds seen <-> i ∈ slots size key sds /\ i ∉ seen.
Proof.
  revert seen. induction sds as [|seed rest IH]; intros seen; simpl.
  - split; [intros Hi%elem_of_nil; done|intros [Hi%elem_of_nil _]; done].
  - case_bool_decide as Hin.
    + rewrite IH, elem_of_cons. split; [naive_solver|].
      intros [[->|?] ?]; [done|naive_solver].
    + rewrite !elem_of_cons, IH, elem_of_cons.
      destruct (decide (i = slot size key seed)); naive_solver.
Qed.

Lemma NoDup_touched size key sds seen : NoDup (touched size key sds seen).
Proof.
  revert seen. induction sds as [|seed rest IH]; intros seen; simpl.
  - constructor.
  - case_bool_decide; [apply IH|].
    constructor; [|apply IH].
    rewrite elem_of_touched, not_elem_of_cons. naive_solver.
Qed.

Lemma touched_lt size key sds seen i :
  size <> 0%nat -> i ∈ touched size key sds seen -> (i < size)%nat.
Proof.
  intros Hn [Hi _]%elem_of_touched. unfold slots in Hi.
  apply list_elem_of_fmap in Hi as (seed & -> & _). by apply slot_lt.
Qed.

Lemma touched_length size key sds seen :
  (length (touched size key sds seen) <= length sds)%nat.
Proof.
  revert seen. induction sds as [|seed rest IH]; intros seen; simpl; [lia|].
  case_bool_decide; simpl;
    [specialize (IH seen)|specialize (IH (slot size key seed :: seen))];
    lia.
Qed.

(** Reserving no element never throws. *)
Lemma reserve_zero : reserve 0 = Returns tt.
Proof.
  unfold reserve. pose proof (N2Z.is_nonneg max_reserve) as Hmax.
  by rewrite (proj2 (Z.leb_le _ _) Hmax).
Qed.

Lemma counter_mod_bounds : 256 <= counter_mod <= size_t_mod.
Proof.
  unfold counter_mod, size_t_mod. destruct BucketCounter; simpl; lia.
Qed.
End Probes.

(** ** The loops of the set variant *)

Module FilterFacts.
Import Filter FilterSpec.
Section Loops.
Context {T : Template}.

Lemma counts_pos_cons bs i idxs :
  counts_pos bs (i :: idxs) =
    match bs !! i with Some b => 0 <? count b | None => true end
    && counts_pos bs idxs.
Proof. done. Qed.

Lemma counts_pos_alter f i bs idxs :
  i ∉ idxs -> counts_pos (alter f i bs) idxs = counts_pos bs idxs.
Proof.
  induction idxs as [|j idxs IH]; intros Hi; [done|].
  apply not_elem_of_cons in Hi as [Hne Hi]. simpl.
  rewrite list_lookup_alter_ne by done. by rewrite IH.
Qed.

Lemma insert_loop_touched key sds seen bs :
  length bs <> 0%nat ->
  insert_loop key sds seen bs =
    Returns (alter_all (bump key) (touched (length bs) key sds seen) bs).
Proof.
  intros Hn. revert seen bs Hn.
  induction sds as [|seed rest IH]; intros seen bs Hn; simpl; [done|].
  unfold hash_index. rewrite hash_index_of_pos by done. simpl.
  case_bool_decide; [by apply IH|].
  rewrite IH by (by rewrite length_alter).
  by rewrite length_alter, alter_all_cons.
Qed.

Lemma remove_loop_touched key sds seen bs :
  length bs <> 0%nat ->
  remove_loop key sds seen bs =
    if ndebug || counts_pos bs (touched (length bs) key sds seen)
    then Returns (alter_all (drop key) (touched (length bs) key sds seen) bs)
    else AssertFailed.
Proof.
  intros Hn. revert seen bs Hn.
  induction sds as [|seed rest IH]; intros seen bs Hn;
    cbn [remove_loop touched].
  { by rewrite orb_true_r. }
  unfold hash_index. rewrite hash_index_of_pos by done.
  cbn [mbind Run_bind].
  case_bool_decide as Hseen; [by apply IH|].
  pose proof (slot_lt (length bs) key seed Hn) as Hlt.
  destruct (lookup_lt_is_Some_2 bs _ Hlt) as [b Hb]. rewrite Hb.
  rewrite counts_pos_cons, Hb, alter_all_cons. unfold assert_.
  assert (slot (length bs) key seed
          ∉ touched (length bs) key rest (slot (length bs) key seed :: seen))
    as Hnotin.
  { rewrite elem_of_touched, not_elem_of_cons. naive_solver. }
  destruct ndebug eqn:Hnd; cbn [orb mbind Run_bind].
  - rewrite IH by (by rewrite length_alter). by rewrite length_alter.
  - destruct (0 <? count b) eqn:Hpos; cbn [andb mbind Run_bind]; [|done].
    rewrite IH by (by rewrite length_alter).
    by rewrite length_alter, counts_pos_alter.
Qed.

Lemma contains_loop_total key sds bs might :
  length bs <> 0%nat ->
  exists c, contains_loop key sds bs might = Returns c.
Proof.
  intros Hn. revert might.
  induction sds as [|seed rest IH]; intros might; simpl; [eauto|].
  unfold hash_index. rewrite hash_index_of_pos by done. simpl.
  pose proof (slot_lt (length bs) key seed Hn) as Hlt.
  destruct (lookup_lt_is_Some_2 bs _ Hlt) as [b ->].
  destruct (count b =? 1); eauto.
Qed.

(** [contains] answers [exists] only from a probed bucket that holds
    count 1 and the key itself. *)
Lemma contains_loop_exists key sds bs might :
  contains_loop key sds bs might = Returns exists_ ->
  exists seed b, seed ∈ sds /\ bs !! slot (length bs) key seed = Some b /\
                 count b = 1 /\ cumulative_key b = key.
Proof.
  revert might. induction sds as [|seed rest IH]; intros might; simpl.
  { by destruct might. }
  unfold hash_index, hash_index_of.
  destruct (decide (length bs = 0%nat)); [done|]. simpl.
  destruct (bs !! slot (length bs) key seed) as [b|] eqn:Hb; [|done].
  destruct (count b =? 1) eqn:Hc.
  - destruct (key =? cumulative_key b) eqn:Hk; [|done]. intros _.
    exists seed, b. rewrite elem_of_cons. split_and!; [by left|done|lia|lia].
  - intros (seed' & b' & ? & ? & ? & ?)%IH.
    exists seed', b'. rewrite elem_of_cons. naive_solver.
Qed.
End Loops.
End FilterFacts.

(** ** Keys present and what the buckets should hold *)

Lemma xors_remove_one key l :
  key ∈ l -> xors (remove_one key l) = Z.lxor (xors l) key.
Proof.
  induction l as [|k l IH]; intros Hin; [by apply elem_of_nil in Hin|].
  simpl. case_bool_decide as Hk.
  - subst k. rewrite (Z.lxor_comm key), Z.lxor_assoc, Z.lxor_nilpotent.
    by rewrite Z.lxor_0_r.
  - apply elem_of_cons in Hin as [?|Hin]; [congruence|].
    simpl. rewrite IH by done. by rewrite Z.lxor_assoc.
Qed.

Lemma remove_one_length key l :
  key ∈ l -> S (length (remove_one key l)) = length l.
Proof.
  induction l as [|k l IH]; intros Hin; [by apply elem_of_nil in Hin|].
  simpl. case_bool_decide as Hk; [done|].
  apply elem_of_cons in Hin as [?|Hin]; [congruence|].
  simpl. by rewrite IH.
Qed.

Lemma remove_one_length_le key l :
  (length (remove_one key l) <= length l)%nat.
Proof.
  induction l as [|k l IH]; simpl; [done|].
  case_bool_decide; simpl; lia.
Qed.

Lemma remove_one_notin key l : key ∉ l -> remove_one key l = l.
Proof.
  induction l as [|k l IH]; intros Hin; [done|].
  apply not_elem_of_cons in Hin as [Hne Hin]. simpl.
  case_bool_decide; [congruence|]. by rewrite IH.
Qed.

Lemma elem_of_remove_one_inv key k l : k ∈ remove_one key l -> k ∈ l.
Proof.
  induction l as [|j l IH]; simpl; [done|].
  case_bool_decide; rewrite !elem_of_cons; naive_solver.
Qed.

Lemma elem_of_remove_one_ne key k l :
  k <> key -> k ∈ l -> k ∈ remove_one key l.
Proof.
  intros Hne. induction l as [|j l IH]; simpl; [done|].
  case_bool_decide; rewrite !elem_of_cons; naive_solver.
Qed.

Lemma NoDup_remove_one key l : NoDup l -> NoDup (remove_one key l).
Proof.
  induction l as [|j l IH]; simpl; [done|].
  rewrite NoDup_cons. intros [Hj Hl]. case_bool_decide; [done|].
  apply NoDup_cons. split; [|by apply IH].
  intros Hin%elem_of_remove_one_inv. done.
Qed.

Lemma NoDup_remove_one_notin key l : NoDup l -> key ∉ remove_one key l.
Proof.
  induction l as [|j l IH]; simpl; [intros _ Hin; by apply elem_of_nil in Hin|].
  rewrite NoDup_cons. intros [Hj Hl]. case_bool_decide as Hk.
  - by subst j.
  - rewrite not_elem_of_cons. split; [congruence|by apply IH].
Qed.

Lemma filter_remove_one (P : Z -> Prop) `{!forall k, Decision (P k)} key l :
  filter P (remove_one key l) =
    if decide (P key) then remove_one key (filter P l) else filter P l.
Proof.
  induction l as [|k l IH]; simpl; [by destruct (decide _)|].
  case_bool_decide as Hk.
  - subst k. destruct (decide (P key)) as [HP|HP].
    + rewrite filter_cons_True by done. simpl. by rewrite bool_decide_eq_true_2.
    + by rewrite filter_cons_False.
  - destruct (decide (P k)) as [HPk|HPk].
    + rewrite !filter_cons_True by done. rewrite IH.
      destruct (decide (P key)); [|done].
      simpl. by rewrite bool_decide_eq_false_2.
    + rewrite !filter_cons_False by done. apply IH.
Qed.

Section Load.
Context {T : Template}.

Lemma load_cons size sds k M i :
  load size sds (k :: M) i =
    if decide (i ∈ slots size k sds) then k :: load size sds M i
    else load size sds M i.
Proof.
  unfold load. destruct (decide _).
  - by rewrite filter_cons_True.
  - by rewrite filter_cons_False.
Qed.

Lemma load_remove_one size sds key M i :
  load size sds (remove_one key M) i =
    if decide (i ∈ slots size key sds)
    then remove_one key (load size sds M i) else load size sds M i.
Proof. unfold load. by rewrite filter_remove_one. Qed.

Lemma elem_of_load size sds M i k :
  k ∈ load size sds M i <-> i ∈ slots size k sds /\ k ∈ M.
Proof. unfold load. by rewrite list_elem_of_filter. Qed.

Lemma load_length size sds M i :
  (length (load size sds M i) <= length M)%nat.
Proof. apply length_filter. Qed.

Lemma load_outside size sds M i :
  size <> 0%nat -> (size <= i)%nat -> load size sds M i = [].
Proof.
  intros Hn Hi.
  destruct (load size sds M i) as [|k l] eqn:Hload; [done|]. exfalso.
  assert (k ∈ load size sds M i) as Hk by (rewrite Hload; by left).
  apply elem_of_load in Hk as [Hslot _].
  apply list_elem_of_fmap in Hslot as (seed & -> & _).
  pose proof (slot_lt size k seed Hn). lia.
Qed.

(** No bucket is probed by more keys than [max_load] says. *)
Lemma load_le_max_load size sds M i :
  size <> 0%nat -> (length (load size sds M i) <= max_load size sds M)%nat.
Proof.
  intros Hn. destruct (decide (i < size)%nat) as [Hi|Hi].
  - apply max_list_elem_of_le, list_elem_of_fmap.
    exists i. split; [done|]. apply elem_of_seq. lia.
  - rewrite load_outside by lia. simpl. lia.
Qed.

Lemma max_load_le_length size sds M :
  (max_load size sds M <= length M)%nat.
Proof.
  unfold max_load.
  assert (forall n l, Forall (fun x => (x <= n)%nat) l ->
                      (max_list l <= n)%nat) as Hmax.
  { intros n l Hl. induction Hl; simpl; lia. }
  apply Hmax, Forall_fmap, Forall_forall. intros i _. apply load_length.
Qed.
End Load.

(** ** Consistent instances of the set variant *)

Module FilterInv.
Import Filter FilterSpec FilterFacts FilterHistory.
Section Inv.
Context {T : Template}.

Lemma consistent_empty sds size :
  size <> 0%nat -> consistent (empty sds size) [].
Proof.
  intros Hn. unfold consistent, empty. simpl. rewrite length_replicate.
  pose proof counter_mod_bounds.
  split_and!; [done|intros i; simpl; lia|done|].
  intros i b [-> _]%lookup_replicate. done.
Qed.

(** As long as it has not wrapped, the global count is the number of
    keys present. *)
Lemma consistent_count st M :
  consistent st M -> Z.of_nat (length M) < size_t_mod ->
  ibf_count st = Z.of_nat (length M).
Proof. intros (_ & _ & -> & _) Hfew. apply Z.mod_small. lia. Qed.

Lemma insert_returns key st :
  length (buckets st) <> 0%nat ->
  insert key st =
    Returns (mkIBF (seeds st)
               (alter_all (bump key)
                  (touched (length (buckets st)) key (seeds st) [])
                  (buckets st))
               ((ibf_count st + 1) mod size_t_mod)).
Proof.
  intros Hn. unfold insert. by rewrite insert_loop_touched.
Qed.

(** An insertion keeps the instance consistent as long as no bucket
    comes to be probed by [counter_mod] keys. *)
Lemma consistent_insert key st M :
  consistent st M ->
  (forall i,
     Z.of_nat (length (load (length (buckets st)) (seeds st) (key :: M) i))
       < counter_mod) ->
  exists st', insert key st = Returns st' /\ seeds st' = seeds st /\
              consistent st' (key :: M).
Proof.
  intros (Hn & Hcap & Hcount & Hb) Hroom.
  rewrite insert_returns by done. eexists. split; [done|]. split; [done|].
  pose proof counter_mod_bounds as Hcm.
  unfold consistent. simpl. rewrite alter_all_length.
  split_and!; [done|done| |].
  { rewrite Hcount, Nat2Z.inj_succ, <- Z.add_1_r.
    by rewrite Zplus_mod_idemp_l. }
  intros i b. rewrite alter_all_lookup by apply NoDup_touched.
  specialize (Hroom i). rewrite load_cons in Hroom |- *.
  case_bool_decide as Hi.
  - apply elem_of_touched in Hi as [Hi _].
    rewrite decide_True in Hroom |- * by done.
    destruct (buckets st !! i) as [b0|] eqn:Hb0; [|done].
    intros [= <-]. destruct (Hb _ _ Hb0) as [Hc Hx]. simpl.
    rewrite Hc, Hx. split; [|apply Z.lxor_comm].
    simpl in Hroom. rewrite Z.mod_small; lia.
  - destruct (decide _) as [Hin|]; [|by apply Hb].
    exfalso. apply Hi, elem_of_touched. split; [done|].
    apply not_elem_of_nil.
Qed.

Lemma consistent_remove key st M :
  consistent st M ->
  contains key st = Returns exists_ ->
  key ∈ M /\
  exists st', remove key st = Returns (true, st') /\ seeds st' = seeds st /\
              consistent st' (remove_one key M).
Proof.
  intros (Hn & Hcap & Hcount & Hb) Hex.
  pose proof counter_mod_bounds as Hcm.
  assert (key ∈ M) as HinM.
  { apply contains_loop_exists in Hex as (seed & b & Hseed & Hlk & Hc & Hk).
    destruct (Hb _ _ Hlk) as [Hc' Hx].
    destruct (load _ _ M _) as [|j [|]] eqn:Hload; simpl in Hc'; try lia.
    assert (j ∈ load (length (buckets st)) (seeds st) M
               (slot (length (buckets st)) key seed)) as Hj.
    { rewrite Hload. by left. }
    apply elem_of_load in Hj as [_ Hj].
    rewrite Hx in Hk. simpl in Hk. rewrite Z.lxor_0_r in Hk. by subst. }
  split; [done|].
  unfold remove. rewrite Hex. simpl.
  destruct (decide (exists_ = exists_)); [|done].
  rewrite remove_loop_touched by done.
  assert (counts_pos (buckets st)
            (touched (length (buckets st)) key (seeds st) []) = true) as ->.
  { apply forallb_forall. intros i Hi%list_elem_of_In.
    apply elem_of_touched in Hi as [Hi _].
    destruct (buckets st !! i) as [b|] eqn:Hbi; [|done].
    destruct (Hb _ _ Hbi) as [Hc _].
    assert (key ∈ load (length (buckets st)) (seeds st) M i) as Hl
      by by apply elem_of_load.
    destruct (load _ _ M i); [by apply elem_of_nil in Hl|].
    simpl in Hc. apply Z.ltb_lt. lia. }
  rewrite orb_true_r. simpl. eexists. split; [done|]. split; [done|].
  pose proof (remove_one_length _ _ HinM) as Hlen.
  unfold consistent. simpl. rewrite alter_all_length.
  split_and!; [done| | |].
  { intros i. rewrite load_remove_one. specialize (Hcap i).
    destruct (decide _); [|done].
    pose proof (remove_one_length_le key
                  (load (length (buckets st)) (seeds st) M i)). lia. }
  { rewrite Hcount, Zminus_mod_idemp_l. f_equal. lia. }
  intros i b. rewrite alter_all_lookup by apply NoDup_touched.
  rewrite load_remove_one. specialize (Hcap i).
  case_bool_decide as Hi.
  - apply elem_of_touched in Hi as [Hi _].
    destruct (decide _) as [_|]; [|done].
    destruct (buckets st !! i) as [b0|] eqn:Hb0; [|done].
    intros [= <-]. destruct (Hb _ _ Hb0) as [Hc Hx]. simpl.
    assert (key ∈ load (length (buckets st)) (seeds st) M i) as Hl
      by by apply elem_of_load.
    rewrite xors_remove_one by done.
    pose proof (remove_one_length _ _ Hl) as Hlen'.
    rewrite Hc, Hx. split; [|done].
    rewrite Z.mod_small; lia.
  - destruct (decide _) as [Hin|]; [|by apply Hb].
    exfalso. apply Hi, elem_of_touched. split; [done|].
    apply not_elem_of_nil.
Qed.
End Inv.
End FilterInv.

Module FilterQuery.
Import Filter FilterSpec FilterFacts FilterHistory FilterInv.
Section Query.
Context {T : Template}.

(** A present key is never reported absent, whatever part of the probe
    sequence is left. *)
Lemma contains_loop_present key st M sds might :
  consistent st M -> key ∈ M ->
  (forall seed, seed ∈ sds -> seed ∈ seeds st) ->
  sds <> [] \/ might = true ->
  exists c, contains_loop key sds (buckets st) might = Returns c /\
            c <> not_found.
Proof.
  intros Hcons Hin. destruct Hcons as (Hn & Hcap & Hcount & Hb).
  revert might. induction sds as [|seed rest IH]; intros might Hsub Hne.
  { destruct Hne as [?| ->]; [done|]. simpl. eauto. }
  cbn [contains_loop]. unfold hash_index.
  rewrite hash_index_of_pos by done. cbn [mbind Run_bind].
  pose proof (slot_lt (length (buckets st)) key seed Hn) as Hlt.
  destruct (lookup_lt_is_Some_2 (buckets st) _ Hlt) as [b Hlk].
  rewrite Hlk. destruct (Hb _ _ Hlk) as [Hc Hx].
  assert (key ∈ load (length (buckets st)) (seeds st) M
             (slot (length (buckets st)) key seed)) as Hl.
  { apply elem_of_load. split; [|done]. unfold slots.
    apply list_elem_of_fmap. exists seed. split; [done|].
    apply Hsub. by left. }
  destruct (count b =? 1) eqn:Hone.
  - apply Z.eqb_eq in Hone.
    destruct (load _ _ M _) as [|j [|]] eqn:Hload; simpl in Hc; try lia.
    apply list_elem_of_singleton in Hl. subst j.
    rewrite Hx. simpl. rewrite Z.lxor_0_r, Z.eqb_refl. eauto.
  - apply IH.
    + intros s Hs. apply Hsub. by right.
    + right. apply Z.eqb_neq in Hone.
      destruct (load _ _ M _) as [|j l]; [by apply elem_of_nil in Hl|].
      simpl in Hc. apply orb_true_iff. right. apply Z.ltb_lt. lia.
Qed.

(** The first probed bucket of count 1 settles the answer, and settles
    it right. *)
Lemma contains_loop_singleton key st M sds might :
  consistent st M ->
  (forall seed, seed ∈ sds -> seed ∈ seeds st) ->
  (exists seed b, seed ∈ sds /\
     buckets st !! slot (length (buckets st)) key seed = Some b /\
     count b = 1) ->
  contains_loop key sds (buckets st) might =
    Returns (if bool_decide (key ∈ M) then exists_ else not_found).
Proof.
  intros Hcons. destruct Hcons as (Hn & Hcap & Hcount & Hb).
  revert might. induction sds as [|seed rest IH]; intros might Hsub Hex.
  { destruct Hex as (s & b & Hs & _). by apply elem_of_nil in Hs. }
  cbn [contains_loop]. unfold hash_index.
  rewrite hash_index_of_pos by done. cbn [mbind Run_bind].
  pose proof (slot_lt (length (buckets st)) key seed Hn) as Hlt.
  destruct (lookup_lt_is_Some_2 (buckets st) _ Hlt) as [b Hlk].
  rewrite Hlk. destruct (Hb _ _ Hlk) as [Hc Hx].
  destruct (count b =? 1) eqn:Hone.
  - apply Z.eqb_eq in Hone. f_equal.
    destruct (load _ _ M _) as [|j [|]] eqn:Hload; simpl in Hc; try lia.
    rewrite Hx. simpl. rewrite Z.lxor_0_r.
    assert (j ∈ M) as Hj.
    { eapply (elem_of_load _ _ _ _ j). rewrite Hload. by left. }
    case_bool_decide as HkM.
    + assert (key ∈ [j]) as Hkj.
      { rewrite <- Hload. apply elem_of_load. split; [|done].
        apply list_elem_of_fmap. exists seed. split; [done|].
        apply Hsub. by left. }
      apply list_elem_of_singleton in Hkj. subst. by rewrite Z.eqb_refl.
    + destruct (key =? j) eqn:Hkj; [|done].
      apply Z.eqb_eq in Hkj. by subst.
  - apply IH.
    + intros s Hs. apply Hsub. by right.
    + destruct Hex as (s & b' & Hs & Hlk' & Hc').
      apply elem_of_cons in Hs as [->|Hs].
      * rewrite Hlk in Hlk'. injection Hlk' as <-.
        apply Z.eqb_neq in Hone. done.
      * eauto.
Qed.

Lemma replay_peak_mono ops (tr tr' : Trace IBF Z) :
  replay ops tr = Returns tr' -> (peak tr <= peak tr')%nat.
Proof.
  revert tr. induction ops as [|[key|key] ops IH]; intros tr; simpl.
  - by intros [= ->].
  - destruct (insert key (state tr)) as [st'| | | |]; simpl; try done.
    intros Hr%IH. simpl in Hr. lia.
  - destruct (remove key (state tr)) as [[[] st']| | | |]; simpl; try done.
    + intros Hr%IH. simpl in Hr. lia.
    + apply IH.
Qed.

Lemma replay_present_peak ops (tr tr' : Trace IBF Z) :
  replay ops tr = Returns tr' ->
  (length (present tr) <= peak tr)%nat ->
  (length (present tr') <= peak tr')%nat.
Proof.
  revert tr. induction ops as [|[key|key] ops IH]; intros tr; simpl.
  - by intros [= ->].
  - destruct (insert key (state tr)) as [st'| | | |]; simpl; try done.
    intros Hr Hpk. apply IH in Hr; simpl; lia.
  - destruct (remove key (state tr)) as [[[] st']| | | |]; simpl; try done.
    + intros Hr Hpk. apply IH in Hr; simpl; [done|].
      pose proof (remove_one_length_le key (present tr)). lia.
    + apply IH.
Qed.

(** Histories that never hold [counter_mod] keys at once keep the
    instance consistent. *)
Lemma replay_consistent ops (tr tr' : Trace IBF Z) :
  replay ops tr = Returns tr' ->
  consistent (state tr) (present tr) ->
  (length (present tr) <= peak tr)%nat ->
  Z.of_nat (peak tr') < counter_mod ->
  consistent (state tr') (present tr') /\
  seeds (state tr') = seeds (state tr).
Proof.
  revert tr. induction ops as [|[key|key] ops IH]; intros tr; simpl.
  - by intros [= ->].
  - intros Hr Hcons Hpk Hcap.
    pose proof Hr as Hr'.
    destruct (insert key (state tr)) as [st'| | | |] eqn:Hins;
      simpl in Hr; try done.
    simpl in Hr'. apply replay_peak_mono in Hr'. simpl in Hr'.
    destruct (consistent_insert key _ _ Hcons) as (st'' & Hins' & Hs & Hc').
    { intros i.
      pose proof (load_length (length (buckets (state tr)))
                    (seeds (state tr)) (key :: present tr) i) as Hle.
      simpl in Hle. lia. }
    rewrite Hins in Hins'. injection Hins' as <-.
    apply IH in Hr as [? Hs']; simpl; [|done|lia|done].
    split; [done|]. simpl in Hs'. congruence.
  - intros Hr Hcons Hpk Hcap.
    destruct (contains_loop_total key (seeds (state tr))
                (buckets (state tr)) false) as [c Hc].
    { apply Hcons. }
    destruct (decide (c = exists_)) as [->|Hne].
    + destruct (consistent_remove key _ _ Hcons Hc)
        as (HinM & st' & Hrm & Hs & Hc').
      rewrite Hrm in Hr. simpl in Hr.
      apply IH in Hr as [? Hs']; simpl; [|done| |done].
      * split; [done|]. simpl in Hs'. congruence.
      * pose proof (remove_one_length _ _ HinM). lia.
    + unfold remove, contains in Hr. rewrite Hc in Hr. simpl in Hr.
      destruct (decide (c = exists_)); [done|]. simpl in Hr.
      by apply IH in Hr.
Qed.

Lemma bucket_peak_ge ops (tr : Trace IBF Z) :
  (max_load (length (buckets (state tr))) (seeds (state tr)) (present tr)
   <= bucket_peak ops tr)%nat.
Proof. destruct ops; simpl; lia. Qed.

(** Histories during which no bucket is ever probed by [counter_mod]
    keys keep the instance consistent, however many keys are present. *)
Lemma replay_consistent_buckets ops (tr tr' : Trace IBF Z) :
  replay ops tr = Returns tr' ->
  consistent (state tr) (present tr) ->
  Z.of_nat (bucket_peak ops tr) < counter_mod ->
  consistent (state tr') (present tr') /\
  seeds (state tr') = seeds (state tr).
Proof.
  revert tr. induction ops as [|[key|key] ops IH]; intros tr.
  - simpl. by intros [= ->].
  - intros Hr Hcons Hcap. pose proof Hcons as (Hn & _).
    cbn [replay bucket_peak] in Hr, Hcap.
    rewrite insert_returns in Hr, Hcap by done.
    cbn [mbind Run_bind] in Hr, Hcap.
    set (tr1 := mkTrace _ _ _ _) in Hr, Hcap.
    pose proof (bucket_peak_ge ops tr1) as Hge.
    subst tr1. cbn [state present buckets seeds] in Hge.
    rewrite alter_all_length in Hge.
    destruct (consistent_insert key _ _ Hcons) as (st'' & Hins' & Hs & Hc').
    { intros i.
      pose proof (load_le_max_load (length (buckets (state tr)))
                    (seeds (state tr)) (key :: present tr) i Hn). lia. }
    rewrite insert_returns in Hins' by done. injection Hins' as <-.
    apply IH in Hr as [? Hs']; [|done|lia].
    split; [done|]. simpl in Hs'. congruence.
  - intros Hr Hcons Hcap. cbn [replay bucket_peak] in Hr, Hcap.
    destruct (contains_loop_total key (seeds (state tr))
                (buckets (state tr)) false) as [c Hc].
    { apply Hcons. }
    destruct (decide (c = exists_)) as [->|Hne].
    + destruct (consistent_remove key _ _ Hcons Hc)
        as (HinM & st' & Hrm & Hs & Hc').
      rewrite Hrm in Hr, Hcap. cbn [mbind Run_bind] in Hr, Hcap.
      apply IH in Hr as [? Hs']; [|done|lia].
      split; [done|]. simpl in Hs'. congruence.
    + unfold remove, contains in Hr, Hcap. rewrite Hc in Hr, Hcap.
      cbn [mbind Run_bind] in Hr, Hcap.
      destruct (decide (c = exists_)); [done|].
      cbn [mret Run_ret mbind Run_bind] in Hr, Hcap.
      apply IH in Hr; [done|done|lia].
Qed.

(** The occupancy of one bucket never exceeds the number of keys that
    are present. *)
Lemma bucket_peak_le_peak ops (tr tr' : Trace IBF Z) :
  replay ops tr = Returns tr' ->
  (length (present tr) <= peak tr)%nat ->
  (bucket_peak ops tr <= peak tr')%nat.
Proof.
  revert tr. induction ops as [|[key|key] ops IH]; intros tr Hr Hpk.
  - simpl in Hr. injection Hr as <-. simpl.
    pose proof (max_load_le_length (length (buckets (state tr)))
                  (seeds (state tr)) (present tr)). lia.
  - pose proof (replay_peak_mono _ _ _ Hr) as Hmono.
    pose proof (max_load_le_length (length (buckets (state tr)))
                  (seeds (state tr)) (present tr)) as Hle.
    cbn [replay bucket_peak] in Hr |- *.
    destruct (insert key (state tr)) as [st'| | | |]; simpl in Hr; try done.
    cbn [mbind Run_bind]. apply IH in Hr; simpl; lia.
  - pose proof (replay_peak_mono _ _ _ Hr) as Hmono.
    pose proof (max_load_le_length (length (buckets (state tr)))
                  (seeds (state tr)) (present tr)) as Hle.
    cbn [replay bucket_peak] in Hr |- *.
    destruct (remove key (state tr)) as [[[] st']| | | |]; simpl in Hr;
      try done; cbn [mbind Run_bind].
    + apply IH in Hr; simpl; [lia|].
      pose proof (remove_one_length_le key (present tr)). lia.
    + apply IH in Hr; [lia|done].
Qed.
End Query.
End FilterQuery.

(** ** Directory size *)

Module FilterLength.
Import Filter FilterSpec FilterFacts FilterHistory FilterInv FilterQuery.
Section Lengths.
Context {T : Template}.

Lemma insert_loop_length key sds seen bs bs' :
  insert_loop key sds seen bs = Returns bs' -> length bs' = length bs.
Proof.
  revert seen bs. induction sds as [|seed rest IH]; intros seen bs; simpl.
  - by intros [= ->].
  - destruct (hash_index bs key seed) as [i| | | |]; simpl; try done.
    case_bool_decide; [apply IH|].
    intros Hr%IH. by rewrite length_alter in Hr.
Qed.

Lemma remove_loop_length key sds seen bs bs' :
  remove_loop key sds seen bs = Returns bs' -> length bs' = length bs.
Proof.
  revert seen bs. induction sds as [|seed rest IH]; intros seen bs; simpl.
  - by intros [= ->].
  - destruct (hash_index bs key seed) as [i| | | |]; simpl; try done.
    case_bool_decide; [apply IH|].
    destruct (bs !! i); [|done].
    destruct (assert_ _); simpl; try done.
    intros Hr%IH. by rewrite length_alter in Hr.
Qed.

Lemma remove_length key st removed st' :
  remove key st = Returns (removed, st') ->
  length (buckets st') = length (buckets st).
Proof.
  unfold remove. destruct (contains key st) as [c| | | |]; simpl; try done.
  destruct (decide (c = exists_)); simpl.
  - destruct (remove_loop _ _ _ _) as [bs| | | |] eqn:Hl; simpl; try done.
    intros [= _ <-]. simpl. by apply remove_loop_length in Hl.
  - by intros [= _ <-].
Qed.

Lemma replay_directory_size ops (tr tr' : Trace IBF Z) :
  replay ops tr = Returns tr' ->
  length (buckets (state tr')) = length (buckets (state tr)).
Proof.
  revert tr. induction ops as [|[key|key] ops IH]; intros tr; simpl.
  - by intros [= ->].
  - unfold insert.
    destruct (insert_loop _ _ _ _) as [bs| | | |] eqn:Hl; simpl; try done.
    intros Hr%IH. simpl in Hr. apply insert_loop_length in Hl. congruence.
  - destruct (remove key (state tr)) as [[removed st']| | | |] eqn:Hrm;
      simpl; try done.
    apply remove_length in Hrm.
    destruct removed; [|apply IH].
    intros Hr%IH. simpl in Hr. congruence.
Qed.
End Lengths.
End FilterLength.

Section FilterTheorems.
Import Filter FilterSpec FilterFacts FilterHistory FilterInv FilterQuery
  FilterLength.
Context {T : Template}.

(** With no bucket and a seed, every call computes a remainder by zero:
    a history that returns is the empty one. *)
Lemma replay_no_bucket ops (tr tr' : Trace IBF Z) :
  replay ops tr = Returns tr' ->
  buckets (state tr) = [] ->
  seeds (state tr) <> [] ->
  tr' = tr.
Proof.
  intros Hrun Hbs Hsds.
  destruct (seeds (state tr)) as [|seed rest] eqn:Hs; [done|].
  destruct ops as [|[key|key] ops]; simpl in Hrun.
  - by injection Hrun as <-.
  - unfold insert in Hrun. by rewrite Hs, Hbs in Hrun.
  - unfold remove, contains in Hrun. by rewrite Hs, Hbs in Hrun.
Qed.

(** C2, as amended (no false negatives as long as no bucket counter
    wraps): on an instance with at least one seed, after any history of
    insertions and removals during which no bucket was ever probed by
    [2 ^ bits BucketCounter] or more of the keys present, however many
    keys were present in all, [contains] returns, and does not return
    [not_found], for every key that was inserted and not yet removed. *)
Theorem no_false_negative_within_capacity
    (sds : list Z) (size : nat) (ops : list Op) (tr : Trace IBF Z) (key : Z) :
  sds <> [] ->
  replay ops (start sds size) = Returns tr ->
  Z.of_nat (bucket_peak ops (start sds size)) < counter_mod ->
  key ∈ present tr ->
  exists c, contains key (state tr) = Returns c /\ c <> not_found.
Proof.
  intros Hsds Hrun Hcap Hin.
  destruct (decide (size = 0%nat)) as [->|Hsize].
  { apply replay_no_bucket in Hrun as ->; [|done..].
    by apply elem_of_nil in Hin. }
  destruct (replay_consistent_buckets _ _ _ Hrun) as [Hcons Hseeds];
    [by apply consistent_empty|done|].
  simpl in Hseeds. unfold contains.
  eapply contains_loop_present; eauto.
  left. by rewrite Hseeds.
Qed.

(** C6, as amended (exactness on the singleton route as long as no
    bucket counter wraps): after any history during which no bucket was
    ever probed by [2 ^ bits BucketCounter] or more of the keys present,
    if one of the buckets probed for [key] has count 1 then
    [contains key] returns [exists] when [key] is inserted and not yet
    removed, and [not_found] otherwise. *)
Theorem singleton_route_exact_within_capacity
    (sds : list Z) (size : nat) (ops : list Op) (tr : Trace IBF Z) (key : Z) :
  replay ops (start sds size) = Returns tr ->
  Z.of_nat (bucket_peak ops (start sds size)) < counter_mod ->
  (exists seed b, seed ∈ sds /\
     buckets (state tr) !! slot (directory_size (state tr)) key seed = Some b
     /\ count b = 1) ->
  contains key (state tr) =
    Returns (if bool_decide (key ∈ present tr) then exists_ else not_found).
Proof.
  intros Hrun Hcap Hex.
  pose proof (replay_directory_size _ _ _ Hrun) as Hlen. simpl in Hlen.
  rewrite length_replicate in Hlen.
  destruct (decide (size = 0%nat)) as [->|Hsize].
  { destruct Hex as (seed & b & _ & Hlk & _).
    apply lookup_lt_Some in Hlk. lia. }
  destruct (replay_consistent_buckets _ _ _ Hrun) as [Hcons Hseeds];
    [by apply consistent_empty|done|].
  simpl in Hseeds. unfold contains.
  eapply contains_loop_singleton; eauto.
  rewrite Hseeds. exact Hex.
Qed.
End FilterTheorems.

Lemma no_false_negative_within_capacity_witness :
  exists c, Filter.contains (T:=Tests) 84 (state trace_small) = Returns c /\
            c <> not_found.
Proof.
  apply (@no_false_negative_within_capacity Tests some_seeds 10 ops_small
           trace_small 84).
  - discriminate.
  - vm_compute. reflexivity.
  - vm_compute. reflexivity.
  - apply (bool_decide_unpack _). vm_compute. exact I.
Defined.

Lemma singleton_route_exact_within_capacity_witness :
  Filter.contains (T:=Tests) 84 (state trace_small) =
    Returns (if bool_decide (84 ∈ present trace_small)
             then exists_ else not_found).
Proof.
  apply (@singleton_route_exact_within_capacity Tests some_seeds 10 ops_small
           trace_small 84).
  - vm_compute. reflexivity.
  - vm_compute. reflexivity.
  - exists 0x9e3779b97f4a7c15.
    eexists. split; [|split].
    + apply (bool_decide_unpack _). vm_compute. exact I.
    + vm_compute. reflexivity.
    + reflexivity.
Defined.

(** C2 fails as stated, in two ways.  With 8-bit bucket counters, 256
    distinct keys inserted into a directory of one bucket, which all of
    them probe, wrap its count to 0, and key 7, inserted and never
    removed, is reported [not_found].  And the instance that the
    constructor builds for [K = 0] probes no bucket at all: key 7,
    inserted into it, is reported [not_found]. *)
Lemma false_negative_after_overflow :
  (exists tr,
     FilterHistory.replay (T:=Narrow) (map Insert (keys_upto 256))
       (FilterHistory.start some_seeds 1) = Returns tr /\
     max_load (T:=Narrow) 1 some_seeds (present tr) = 256%nat /\
     7 ∈ present tr /\
     Filter.contains (T:=Narrow) 7 (state tr) = Returns not_found)
  /\
  (exists tr,
     Filter.new (T:=Seedless) 1 10 Z.of_nat
       = Returns (FilterHistory.empty [] 10) /\
     FilterHistory.replay (T:=Seedless) [Insert 7]
       (FilterHistory.start [] 10) = Returns tr /\
     7 ∈ present tr /\
     Filter.contains (T:=Seedless) 7 (state tr) = Returns not_found).
Proof.
  split.
  - eexists. split; [vm_compute; reflexivity|]. split_and!.
    + vm_compute. reflexivity.
    + apply (bool_decide_unpack _). vm_compute. exact I.
    + vm_compute. reflexivity.
  - eexists. split; [reflexivity|]. split; [reflexivity|]. split.
    + simpl. by left.
    + reflexivity.
Qed.

(** C6 fails as stated: with 8-bit bucket counters, 257 distinct keys
    inserted into a directory of one bucket, which all of them probe, wrap
    its count to 1; every probe of key 7 then meets a bucket of count 1,
    and [contains 7] answers [not_found] although 7 is inserted. *)
Lemma singleton_route_wrong_after_overflow :
  exists tr b,
    FilterHistory.replay (T:=Narrow) (map Insert (keys_upto 257))
      (FilterHistory.start some_seeds 1) = Returns tr /\
    7 ∈ present tr /\
    Filter.buckets (state tr)
      !! slot (T:=Narrow) (Filter.directory_size (state tr)) 7
           0x9e3779b97f4a7c15 = Some b /\
    Filter.count b = 1 /\
    Filter.contains (T:=Narrow) 7 (state tr) = Returns not_found.
Proof.
  eexists. eexists. split; [vm_compute; reflexivity|].
  split; [|split; [|split]].
  - apply (bool_decide_unpack _). vm_compute. exact I.
  - vm_compute. reflexivity.
  - reflexivity.
  - vm_compute. reflexivity.
Qed.

(** ** The constructor *)

Section Constructor.
Context {T : Template}.

Lemma already_exists_sticky (accepted : list Z) (rand_seed : Z) :
  fold_left (fun acc s => acc || (s =? rand_seed)) accepted true = true.
Proof. induction accepted as [|s l IH]; simpl; done. Qed.

(** Once a candidate has collided, [already_exists] stays set and the
    [do ... while] loop never exits. *)
Lemma draw_seed_stuck fuel rng pos accepted :
  draw_seed fuel rng pos accepted true = OutOfFuel.
Proof.
  revert pos. induction fuel as [|fuel IH]; intros pos; simpl; [done|].
  rewrite already_exists_sticky. apply IH.
Qed.

Lemma seed_loop_length fuel rng n pos accepted sds :
  seed_loop fuel rng n pos accepted = Returns sds ->
  length sds = (length accepted + n)%nat.
Proof.
  revert pos accepted. induction n as [|n IH]; intros pos accepted; simpl.
  - intros [= ->]. lia.
  - destruct (draw_seed fuel rng pos accepted false) as [[s pos']| | | |];
      simpl; try done.
    intros Hr%IH. rewrite length_app in Hr. simpl in Hr. lia.
Qed.

Lemma already_exists_false (accepted : list Z) (rand_seed : Z) :
  fold_left (fun acc s => acc || (s =? rand_seed)) accepted false = false ->
  rand_seed ∉ accepted.
Proof.
  induction accepted as [|s l IH]; simpl; [intros _; apply not_elem_of_nil|].
  destruct (s =? rand_seed) eqn:Heq.
  - by rewrite already_exists_sticky.
  - intros Hl%IH. apply Z.eqb_neq in Heq.
    apply not_elem_of_cons. split; [congruence|done].
Qed.

(** A seed that the inner loop hands out is none of the accepted ones. *)
Lemma draw_seed_new fuel rng pos accepted rand_seed pos' :
  draw_seed fuel rng pos accepted false = Returns (rand_seed, pos') ->
  (rand_seed ∉ accepted) /\ 0 <= rand_seed < Seed_mod.
Proof.
  destruct fuel as [|fuel]; simpl; [done|].
  destruct (fold_left _ accepted false) eqn:Hfold.
  - by rewrite draw_seed_stuck.
  - intros [= <- _]. split; [by apply already_exists_false|].
    apply Z.mod_pos_bound. unfold Seed_mod. lia.
Qed.

Lemma seed_loop_distinct fuel rng n pos accepted sds :
  seed_loop fuel rng n pos accepted = Returns sds ->
  NoDup accepted -> NoDup sds.
Proof.
  revert pos accepted. induction n as [|n IH]; intros pos accepted; simpl.
  - by intros [= ->].
  - destruct (draw_seed fuel rng pos accepted false)
      as [[s pos']| | | |] eqn:Hd;
      simpl; try done.
    intros Hr Hnd. apply (IH _ _ Hr).
    apply draw_seed_new in Hd as [Hnew _].
    apply NoDup_app. split_and!; [done| |apply NoDup_singleton].
    intros x Hx ->%list_elem_of_singleton. done.
Qed.

(** When the constructor returns, [listSeeds] holds [K] pairwise-distinct
    seeds. *)
Lemma new_seeds_distinct fuel size rng st :
  Filter.new fuel size rng = Returns st ->
  NoDup (Filter.listSeeds st) /\ length (Filter.listSeeds st) = K.
Proof.
  unfold Filter.new.
  destruct (seed_loop fuel rng K 0 []) as [sds| | | |] eqn:Hs; simpl; try done.
  intros [= <-]. simpl. split.
  - apply (seed_loop_distinct _ _ _ _ _ _ Hs). constructor.
  - by apply seed_loop_length in Hs.
Qed.

(** C1, as amended: an instance constructed with directory size 0 has
    [size() = 0]; [contains] on it returns [not_found] only when there is
    no seed ([K = 0]), and otherwise has no defined result, because
    [hash_index] takes a remainder modulo the directory size 0. *)
Theorem empty_directory_queries
    (fuel : nat) (rng : nat -> Z) (st : Filter.IBF) (key : Z) :
  Filter.new fuel 0 rng = Returns st ->
  Filter.size st = 0 /\
  Filter.directory_size st = 0%nat /\
  Filter.contains key st =
    if decide (K = 0%nat) then Returns not_found else Undefined.
Proof.
  unfold Filter.new.
  destruct (seed_loop fuel rng K 0 []) as [sds| | | |] eqn:Hs; simpl; try done.
  intros [= <-]. apply seed_loop_length in Hs. simpl in Hs.
  split; [done|]. split; [done|].
  unfold Filter.contains. simpl.
  destruct sds as [|seed rest]; simpl in *.
  - by destruct (decide (K = 0%nat)); [|lia].
  - destruct (decide (K = 0%nat)); [lia|done].
Qed.
End Constructor.

Lemma empty_directory_queries_witness :
  Filter.size (Filter.mkIBF [0; 1; 2] [] 0) = 0 /\
  Filter.directory_size (Filter.mkIBF [0; 1; 2] [] 0) = 0%nat /\
  Filter.contains (T:=Tests) 1337 (Filter.mkIBF [0; 1; 2] [] 0) =
    if decide (@K Tests = 0%nat) then Returns not_found else Undefined.
Proof.
  apply (@empty_directory_queries Tests 1 Z.of_nat
           (Filter.mkIBF [0; 1; 2] [] 0) 1337).
  vm_compute. reflexivity.
Defined.

(** C1 fails as stated: on the instance that [InvertibleBloomFilter(0)]
    constructs with the default [K = 3], [contains(1337)] does not return
    [not_found]; it divides by zero. *)
Lemma contains_on_empty_directory_undefined :
  exists st,
    Filter.new (T:=Tests) 1 0 Z.of_nat = Returns st /\
    Filter.contains (T:=Tests) 1337 st <> Returns not_found.
Proof.
  eexists. split; [vm_compute; reflexivity|]. vm_compute. discriminate.
Qed.

(** C5 (the code misses it): on a stream whose second value collides with
    the first accepted seed and whose later values are all new, the
    constructor does not terminate, whatever the fuel and directory size. *)
Theorem constructor_stuck_after_collision :
  (forall n, (2 <= n)%nat -> colliding_stream n <> colliding_stream 0) /\
  forall fuel size,
    Filter.new (T:=Tests) fuel size colliding_stream = OutOfFuel.
Proof.
  split.
  - intros [|[|n]] Hn; simpl; lia.
  - intros fuel size. unfold Filter.new. destruct fuel as [|fuel]; [done|].
    cbn [K Tests seed_loop]. 
    change (draw_seed (S fuel) colliding_stream 0 [] false)
      with (Returns (A:=Z * nat) (5, 1%nat)).
    cbn [mbind Run_bind app].
    change (draw_seed (S fuel) colliding_stream 1 [5] false)
      with (draw_seed fuel colliding_stream 2 [5] true).
    by rewrite draw_seed_stuck.
Qed.

(** ** Removal, round trips and duplicates in the set variant *)

Module FilterRemove.
Import Filter FilterSpec FilterFacts FilterHistory FilterInv FilterQuery
  FilterLength.
Section Remove.
Context {T : Template}.

Lemma contains_total key st :
  directory_size st <> 0%nat -> exists c, contains key st = Returns c.
Proof. intros Hn. by apply contains_loop_total. Qed.

(** [remove] returns false exactly when [contains] is not [exists], and
    then hands the instance back as it was. *)
Lemma remove_failure_atomic key st :
  directory_size st <> 0%nat ->
  exists c, contains key st = Returns c /\
    (c <> exists_ -> remove key st = Returns (false, st)) /\
    (forall removed st', remove key st = Returns (removed, st') ->
       (removed = false <-> c <> exists_) /\
       (removed = false -> st' = st)).
Proof.
  intros Hn. destruct (contains_total key st Hn) as [c Hc].
  exists c. split; [done|]. unfold remove. rewrite Hc. simpl.
  destruct (decide (c = exists_)) as [->|Hne].
  - split; [done|]. intros removed st'.
    destruct (remove_loop _ _ _ _) as [bs| | | |]; simpl; try done.
    intros [= <- <-]. split; [split|]; done.
  - split; [done|]. intros removed st' [= <- <-]. done.
Qed.

Lemma consistent_nil_empty st :
  consistent st [] -> st = empty (seeds st) (length (buckets st)).
Proof.
  intros (Hn & _ & Hcount & Hb). destruct st as [sds bs c].
  unfold empty. simpl in *. f_equal; [|done].
  apply list_eq. intros i.
  destruct (bs !! i) as [[ck cc]|] eqn:Hlk.
  - destruct (Hb _ _ Hlk) as [Hc Hx]. simpl in *. subst.
    symmetry. apply lookup_replicate. split; [done|].
    by apply lookup_lt_Some in Hlk.
  - symmetry. apply lookup_ge_None. rewrite length_replicate.
    by apply lookup_ge_None in Hlk.
Qed.

(** Inserting one key into an empty instance and removing it again
    gives the empty instance back. *)
Lemma insert_remove_empty sds size key :
  size <> 0%nat -> sds <> [] ->
  exists st1, insert key (empty sds size) = Returns st1 /\
              contains key st1 = Returns exists_ /\
              remove key st1 = Returns (true, empty sds size).
Proof.
  intros Hsize Hsds.
  pose proof counter_mod_bounds as Hcm.
  destruct (consistent_insert key _ _ (consistent_empty sds size Hsize))
    as (st1 & Hins & Hseeds & Hcons).
  { intros i. rewrite load_cons. destruct (decide _); simpl; lia. }
  simpl in Hseeds.
  exists st1. split; [done|].
  assert (length (buckets st1) = size) as Hlen.
  { unfold insert in Hins.
    destruct (insert_loop _ _ _ _) as [bs| | | |] eqn:Hl; simpl in Hins;
      try done.
    injection Hins as <-. simpl. apply insert_loop_length in Hl.
    simpl in Hl. by rewrite length_replicate in Hl. }
  assert (contains key st1 = Returns exists_) as Hex.
  { unfold contains.
    rewrite (contains_loop_singleton key st1 [key]); try done.
    - rewrite bool_decide_eq_true_2; [done|by left].
    - destruct sds as [|seed rest]; [done|].
      destruct Hcons as (Hn & _ & _ & Hb).
      pose proof (slot_lt (length (buckets st1)) key seed Hn) as Hlt.
      destruct (lookup_lt_is_Some_2 (buckets st1) _ Hlt) as [b Hlk].
      exists seed, b. rewrite Hseeds. split; [by left|]. split; [done|].
      destruct (Hb _ _ Hlk) as [Hc _]. rewrite Hc, load_cons.
      destruct (decide _) as [_|Hno]; [done|].
      exfalso. apply Hno. unfold slots. rewrite Hseeds.
      apply list_elem_of_fmap. exists seed. split; [done|by left]. }
  split; [done|].
  destruct (consistent_remove key _ _ Hcons Hex)
    as (_ & st' & Hrm & Hseeds' & Hcons').
  simpl in Hcons'. rewrite bool_decide_eq_true_2 in Hcons' by done.
  rewrite Hrm. do 2 f_equal.
  rewrite (consistent_nil_empty st' Hcons').
  apply remove_length in Hrm. by rewrite Hseeds', Hseeds, Hrm, Hlen.
Qed.
End Remove.
End FilterRemove.

(** ** Decoding a consistent instance *)

Lemma remove_one_perm key l : key ∈ l -> l ≡ₚ key :: remove_one key l.
Proof.
  induction l as [|k l IH]; intros Hin; [by apply elem_of_nil in Hin|].
  simpl. case_bool_decide as Hk; [by subst|].
  apply elem_of_cons in Hin as [?|Hin]; [congruence|].
  rewrite (IH Hin) at 1. apply perm_swap.
Qed.

Module FilterDecode.
Import Filter FilterSpec FilterFacts FilterHistory FilterInv FilterQuery
  FilterLength.
Section Decode.
Context {T : Template}.

(** Removing the key of a bucket of count 1 from a consistent copy
    succeeds, empties that bucket and takes the key out of the keys
    present. *)
Lemma peel_one copy Mc i b :
  consistent copy Mc ->
  buckets copy !! i = Some b ->
  count b = 1 ->
  cumulative_key b ∈ Mc /\
  exists copy' b',
    remove (cumulative_key b) copy = Returns (true, copy') /\
    buckets copy' !! i = Some b' /\ count b' = 0 /\
    seeds copy' = seeds copy /\
    length (buckets copy') = length (buckets copy) /\
    consistent copy' (remove_one (cumulative_key b) Mc).
Proof.
  intros Hcons Hlk Hone.
  pose proof Hcons as (Hn & _ & _ & Hb).
  destruct (Hb _ _ Hlk) as [Hc Hx]. rewrite Hone in Hc.
  destruct (load _ _ Mc i) as [|j [|]] eqn:Hload; simpl in Hc; try lia.
  simpl in Hx. rewrite Z.lxor_0_r in Hx. rewrite Hx.
  assert (j ∈ load (length (buckets copy)) (seeds copy) Mc i) as Hj.
  { rewrite Hload. by left. }
  apply elem_of_load in Hj as [Hslot HjM].
  apply list_elem_of_fmap in Hslot as (seed & Hi & Hseed).
  assert (contains j copy = Returns exists_) as Hex.
  { unfold contains.
    rewrite (contains_loop_singleton j copy Mc); try done.
    - by rewrite bool_decide_eq_true_2.
    - exists seed, b. by rewrite <- Hi. }
  destruct (consistent_remove j _ _ Hcons Hex)
    as (_ & copy' & Hrm & Hseeds & Hcons').
  split; [done|].
  pose proof (remove_length _ _ _ _ Hrm) as Hlen.
  assert (i < length (buckets copy'))%nat as Hlt.
  { rewrite Hlen. by apply lookup_lt_Some in Hlk. }
  destruct (lookup_lt_is_Some_2 _ _ Hlt) as [b' Hlk'].
  exists copy', b'. split_and!; try done.
  destruct Hcons' as (_ & _ & _ & Hb').
  destruct (Hb' _ _ Hlk') as [Hc' _].
  rewrite Hc', Hlen, Hseeds, load_remove_one, Hload.
  destruct (decide _) as [_|Hno].
  - simpl. by rewrite bool_decide_eq_true_2.
  - exfalso. apply Hno. rewrite Hi.
    apply list_elem_of_fmap. eauto.
Qed.

(** A pass over a consistent working copy moves keys from the copy to
    the result and does nothing else. *)
Lemma scan_consistent M0 idxs copy Mc res finished has_changed :
  NoDup M0 ->
  consistent copy Mc ->
  res ++ Mc ≡ₚ M0 ->
  Forall (fun i => (i < length (buckets copy))%nat) idxs ->
  exists copy' Mc' res' finished' has_changed',
    scan idxs copy res finished has_changed =
      Returns (copy', res', finished', has_changed') /\
    consistent copy' Mc' /\ res' ++ Mc' ≡ₚ M0 /\
    length (buckets copy') = length (buckets copy).
Proof.
  intros Hnd. revert copy Mc res finished has_changed.
  induction idxs as [|i idxs IH];
    intros copy Mc res finished has_changed Hcons Hperm Hidx;
    cbn [scan].
  { by exists copy, Mc, res, finished, has_changed. }
  apply Forall_cons in Hidx as [Hi Hidx].
  destruct (lookup_lt_is_Some_2 _ _ Hi) as [b Hlk]. rewrite Hlk.
  destruct (count b =? 0) eqn:Hzero; [by apply IH with Mc|].
  destruct (1 <? count b) eqn:Hmany; [by apply IH with Mc|].
  assert (count b = 1) as Hone.
  { apply Z.eqb_neq in Hzero. apply Z.ltb_ge in Hmany.
    destruct Hcons as (_ & _ & _ & Hb).
    destruct (Hb _ _ Hlk) as [Hc _]. lia. }
  destruct (peel_one _ _ _ _ Hcons Hlk Hone)
    as (HinM & copy' & b' & Hrm & Hlk' & Hc' & Hseeds & Hlen & Hcons').
  rewrite Hrm. cbn [mbind Run_bind]. rewrite Hlk', Hc'.
  unfold assert_. rewrite orb_true_r. cbn [mbind Run_bind].
  assert (cumulative_key b ∉ res) as Hnew.
  { intros Hin. rewrite <- Hperm in Hnd.
    apply NoDup_app in Hnd as (_ & Hdis & _). by apply (Hdis _ Hin). }
  unfold set_insert. rewrite bool_decide_eq_false_2 by done.
  destruct (IH copy' (remove_one (cumulative_key b) Mc)
              (res ++ [cumulative_key b]) finished true)
    as (copy2 & Mc2 & res2 & fin2 & hc2 & Hscan & Hcons2 & Hperm2 & Hlen2);
    [done| |by rewrite Hlen|].
  { rewrite <- Hperm, <- app_assoc. simpl.
    apply Permutation_app_head. symmetry. by apply remove_one_perm. }
  exists copy2, Mc2, res2, fin2, hc2. split_and!; try done. congruence.
Qed.

Lemma peel_consistent M0 fuel copy Mc res finished has_changed
    copy' res' finished' :
  NoDup M0 ->
  consistent copy Mc ->
  res ++ Mc ≡ₚ M0 ->
  peel fuel copy res finished has_changed =
    Returns (copy', res', finished') ->
  exists Mc', consistent copy' Mc' /\ res' ++ Mc' ≡ₚ M0.
Proof.
  intros Hnd. revert copy Mc res finished has_changed.
  induction fuel as [|fuel IH];
    intros copy Mc res finished has_changed Hcons Hperm; cbn [peel];
    destruct (negb finished && has_changed); try done;
    try (intros [= <- <- <-]; eauto).
  destruct (scan_consistent M0 (seq 0 (length (buckets copy))) copy Mc res
              true false Hnd Hcons Hperm)
    as (copy2 & Mc2 & res2 & fin2 & hc2 & Hscan & Hcons2 & Hperm2 & _).
  { apply Forall_forall. intros i Hi%elem_of_seq. lia. }
  rewrite Hscan. cbn [mbind Run_bind]. by apply IH with Mc2.
Qed.

(** What a successful decode of a consistent instance returns, when
    the global count has not wrapped. *)
Lemma listAll_consistent fuel st M res st' :
  NoDup M ->
  consistent st M ->
  Z.of_nat (length M) < size_t_mod ->
  listAll fuel st = Returns (Some res, st') ->
  Z.of_nat (length res) = size st /\ res ≡ₚ M.
Proof.
  intros Hnd Hcons Hfew. unfold listAll.
  destruct (reserve (ibf_count st)); cbn [mbind Run_bind]; try done.
  destruct (peel fuel st [] false true) as [[[copy' r] fin]| | | |] eqn:Hpeel;
    cbn [mbind Run_bind]; try done.
  destruct (negb fin || negb (Z.of_nat (length r) =? ibf_count st))
    eqn:Hcheck; [done|].
  intros [= <- <-].
  apply orb_false_iff in Hcheck as [_ Hsize].
  apply negb_false_iff, Z.eqb_eq in Hsize.
  split; [done|].
  destruct (peel_consistent M fuel st M [] false true _ _ _ Hnd Hcons
              (reflexivity _) Hpeel) as (Mc' & _ & Hperm).
  destruct Hcons as (_ & _ & Hcount & _).
  rewrite Z.mod_small in Hcount by lia.
  pose proof (Permutation_length Hperm) as Hlen.
  rewrite length_app in Hlen.
  destruct Mc' as [|k Mc'].
  - by rewrite app_nil_r in Hperm.
  - simpl in Hlen. lia.
Qed.

Lemma replay_fresh_mono ops (tr tr' : Trace IBF Z) :
  replay ops tr = Returns tr' -> fresh tr' = true -> fresh tr = true.
Proof.
  revert tr. induction ops as [|[key|key] ops IH]; intros tr; simpl.
  - by intros [= ->].
  - destruct (insert key (state tr)) as [st'| | | |]; simpl; try done.
    intros Hr Hf. specialize (IH _ Hr Hf). simpl in IH.
    by apply andb_true_iff in IH as [? _].
  - destruct (remove key (state tr)) as [[[] st']| | | |]; simpl; try done.
    + intros Hr Hf. by specialize (IH _ Hr Hf).
    + apply IH.
Qed.

Lemma replay_NoDup ops (tr tr' : Trace IBF Z) :
  replay ops tr = Returns tr' -> fresh tr' = true ->
  NoDup (present tr) -> NoDup (present tr').
Proof.
  revert tr. induction ops as [|[key|key] ops IH]; intros tr; simpl.
  - by intros [= ->].
  - destruct (insert key (state tr)) as [st'| | | |]; simpl; try done.
    intros Hr Hf Hnd. pose proof (replay_fresh_mono _ _ _ Hr Hf) as Hf'.
    simpl in Hf'. apply andb_true_iff in Hf' as [_ Hnew].
    apply negb_true_iff, bool_decide_eq_false in Hnew.
    apply (IH _ Hr Hf). simpl. by apply NoDup_cons.
  - destruct (remove key (state tr)) as [[[] st']| | | |]; simpl; try done.
    + intros Hr Hf Hnd. apply (IH _ Hr Hf). simpl.
      by apply NoDup_remove_one.
    + apply IH.
Qed.

(** With no bucket, insertions only count and removals fail. *)
Lemma replay_empty_directory ops (tr tr' : Trace IBF Z) :
  replay ops tr = Returns tr' ->
  buckets (state tr) = [] ->
  ibf_count (state tr) = Z.of_nat (length (present tr)) ->
  (length (present tr) <= peak tr)%nat ->
  Z.of_nat (peak tr') < counter_mod ->
  buckets (state tr') = [] /\
  ibf_count (state tr') = Z.of_nat (length (present tr')).
Proof.
  pose proof counter_mod_bounds as Hcm. unfold size_t_mod in Hcm.
  revert tr. induction ops as [|[key|key] ops IH]; intros tr; simpl.
  - by intros [= ->].
  - intros Hr Hbs Hcount Hpk Hcap.
    unfold insert in Hr. rewrite Hbs in Hr.
    destruct (seeds (state tr)) as [|seed rest]; [|done].
    simpl in Hr. pose proof (replay_peak_mono _ _ _ Hr) as Hmono.
    simpl in Hmono.
    apply IH in Hr; simpl; try done; try lia.
    rewrite Hcount. unfold size_t_mod. rewrite Z.mod_small; lia.
  - intros Hr Hbs Hcount Hpk Hcap.
    unfold remove, contains in Hr. rewrite Hbs in Hr.
    destruct (seeds (state tr)) as [|seed rest]; [|done].
    simpl in Hr. by apply IH in Hr.
Qed.

(** With no bucket, the count is the number of present keys as a
    [size_t], whatever their number. *)
Lemma replay_empty_directory_wrapping ops (tr tr' : Trace IBF Z) :
  replay ops tr = Returns tr' ->
  buckets (state tr) = [] ->
  ibf_count (state tr) = Z.of_nat (length (present tr)) mod size_t_mod ->
  buckets (state tr') = [] /\
  ibf_count (state tr') = Z.of_nat (length (present tr')) mod size_t_mod.
Proof.
  revert tr. induction ops as [|[key|key] ops IH]; intros tr; simpl.
  - by intros [= ->].
  - intros Hr Hbs Hcount.
    unfold insert in Hr. rewrite Hbs in Hr.
    destruct (seeds (state tr)) as [|seed rest]; [|done].
    simpl in Hr. apply IH in Hr; simpl; try done.
    rewrite Hcount, Zplus_mod_idemp_l. f_equal. lia.
  - intros Hr Hbs Hcount.
    unfold remove, contains in Hr. rewrite Hbs in Hr.
    destruct (seeds (state tr)) as [|seed rest]; [|done].
    simpl in Hr. by apply IH in Hr.
Qed.

Lemma listAll_empty_directory fuel st res st' :
  buckets st = [] ->
  listAll fuel st = Returns (Some res, st') ->
  res = [] /\ ibf_count st = 0.
Proof.
  intros Hbs. unfold listAll.
  destruct (reserve (ibf_count st)); cbn [mbind Run_bind]; try done.
  destruct fuel as [|fuel]; [done|].
  cbn [peel negb andb]. rewrite Hbs. cbn [length seq scan mbind Run_bind].
  destruct fuel; cbn [peel negb andb mbind Run_bind length];
    destruct (Z.of_nat 0 =? ibf_count st) eqn:Hz; simpl; try done;
    intros [= <- <-]; apply Z.eqb_eq in Hz; done.
Qed.

(** Decoding after a history of pairwise-distinct insertions during
    which no bucket was ever probed by [counter_mod] keys, with fewer
    than [2 ^ 64] keys present in the end. *)
Lemma filter_decode_correct_within_capacity sds size ops (tr : Trace IBF Z)
    fuel res st' :
  replay ops (start sds size) = Returns tr ->
  fresh tr = true ->
  Z.of_nat (bucket_peak ops (start sds size)) < counter_mod ->
  Z.of_nat (length (present tr)) < size_t_mod ->
  listAll fuel (state tr) = Returns (Some res, st') ->
  Z.of_nat (length res) = Filter.size (state tr) /\ res ≡ₚ present tr.
Proof.
  intros Hrun Hfresh Hcap Hfew Hlist.
  assert (NoDup (present tr)) as Hnd.
  { apply (replay_NoDup _ _ _ Hrun Hfresh). simpl. constructor. }
  destruct (decide (size = 0%nat)) as [->|Hsize].
  - destruct (replay_empty_directory_wrapping _ _ _ Hrun) as [Hbs Hcount];
      simpl; try done.
    destruct (listAll_empty_directory _ _ _ _ Hbs Hlist) as [-> Hz].
    unfold Filter.size. rewrite Hz. split; [done|].
    rewrite Hz, Z.mod_small in Hcount by lia. by destruct (present tr).
  - destruct (replay_consistent_buckets _ _ _ Hrun) as [Hcons _];
      [by apply consistent_empty|done|].
    by apply (listAll_consistent fuel _ _ _ st').
Qed.
End Decode.
End FilterDecode.

(** ** Termination of decoding in the set variant *)

Module FilterTermination.
Import Filter FilterSpec FilterFacts FilterHistory FilterInv FilterRemove
  FilterLength.
Section Termination.
Context {T : Template}.

Lemma weight_nonneg c : 0 <= c < counter_mod -> 0 <= weight c.
Proof. unfold weight. destruct (c =? 0); lia. Qed.

Lemma potential_nonneg bs :
  Forall (fun b => 0 <= count b < counter_mod) bs -> 0 <= potential bs.
Proof.
  induction 1 as [|b bs Hb _ IH]; simpl; [lia|].
  pose proof (weight_nonneg _ Hb). lia.
Qed.

Lemma potential_alter f i bs b :
  bs !! i = Some b ->
  potential (alter f i bs) =
    potential bs - weight (count b) + weight (count (f b)).
Proof.
  unfold potential.
  revert i. induction bs as [|b0 bs IH]; intros [|i]; simpl; try done.
  - intros [= ->]. lia.
  - intros Hlk. specialize (IH _ Hlk). unfold alter in IH. lia.
Qed.

Lemma weight_drop key b :
  0 <= count b < counter_mod ->
  0 <= count (drop key b) < counter_mod /\
  weight (count (drop key b)) <= weight (count b) + 1 /\
  (count b = 1 ->
   weight (count (drop key b)) = weight (count b) + 1 - counter_mod).
Proof.
  intros Hc. pose proof counter_mod_bounds as Hcm.
  unfold drop, weight. simpl.
  assert (0 < counter_mod) as Hpos by lia.
  pose proof (Z.mod_pos_bound (count b - 1) counter_mod Hpos) as Hm.
  split; [done|].
  destruct (decide (count b = 0)) as [Hz|Hnz].
  - rewrite Hz. simpl.
    replace ((0 - 1) mod counter_mod) with (counter_mod - 1).
    2:{ apply Z.mod_unique with (-1); lia. }
    destruct (counter_mod - 1 =? 0) eqn:E; [apply Z.eqb_eq in E|]; lia.
  - rewrite (Z.mod_small (count b - 1)) by lia.
    destruct (count b =? 0) eqn:E; [apply Z.eqb_eq in E; lia|].
    destruct (count b - 1 =? 0) eqn:E'.
    + apply Z.eqb_eq in E'. lia.
    + apply Z.eqb_neq in E'. lia.
Qed.

Lemma typed_alter_drop key i bs :
  Forall (fun b => 0 <= count b < counter_mod) bs ->
  Forall (fun b => 0 <= count b < counter_mod) (alter (drop key) i bs).
Proof.
  intros Hwf. apply Forall_alter; [done|].
  intros b _ Hb. by apply weight_drop.
Qed.

(** Dropping the key from distinct buckets raises the potential by at
    most one per bucket, and lowers it by [counter_mod] less one for a
    bucket of count 1. *)
Lemma potential_drop_all key idxs bs :
  NoDup idxs ->
  Forall (fun b => 0 <= count b < counter_mod) bs ->
  Forall (fun i => (i < length bs)%nat) idxs ->
  Forall (fun b => 0 <= count b < counter_mod)
    (alter_all (drop key) idxs bs) /\
  potential (alter_all (drop key) idxs bs)
    <= potential bs + Z.of_nat (length idxs) /\
  ((exists i b, i ∈ idxs /\ bs !! i = Some b /\ count b = 1) ->
   potential (alter_all (drop key) idxs bs)
     <= potential bs + Z.of_nat (length idxs) - counter_mod).
Proof.
  intros Hnd. revert bs.
  induction idxs as [|i idxs IH]; intros bs Hwf Hidx.
  { unfold alter_all. simpl. split; [done|]. split; [lia|].
    intros (i & b & Hi & _). by apply elem_of_nil in Hi. }
  apply NoDup_cons in Hnd as [Hi Hnd].
  apply Forall_cons in Hidx as [Hlt Hidx].
  destruct (lookup_lt_is_Some_2 _ _ Hlt) as [b Hlk].
  assert (0 <= count b < counter_mod) as Hb.
  { by apply (Forall_lookup_1 _ _ _ _ Hwf Hlk). }
  destruct (weight_drop key b Hb) as (_ & Hw & Hw1).
  rewrite alter_all_cons.
  destruct (IH Hnd (alter (drop key) i bs)) as (Hwf' & Hle & Hstrict).
  { by apply typed_alter_drop. }
  { by rewrite length_alter. }
  rewrite (potential_alter _ _ _ _ Hlk) in Hle, Hstrict.
  split; [done|]. simpl length. split; [lia|].
  intros (j & bj & Hj & Hlkj & Hone).
  apply elem_of_cons in Hj as [->|Hj].
  - rewrite Hlk in Hlkj. injection Hlkj as <-.
    specialize (Hw1 Hone). lia.
  - assert (i <> j) as Hne by (intros ->; done).
    assert (potential (alter_all (drop key) idxs (alter (drop key) i bs))
            <= potential bs - weight (count b) + weight (count (drop key b))
               + Z.of_nat (length idxs) - counter_mod); [|lia].
    apply Hstrict. exists j, bj. split; [done|]. split; [|done].
    by rewrite list_lookup_alter_ne.
Qed.

(** What [remove] does to a well-typed instance. *)
Lemma remove_measure key st :
  well_typed st ->
  directory_size st <> 0%nat ->
  Z.of_nat (length (seeds st)) < counter_mod ->
  remove key st = Returns (false, st) \/
  (ndebug = false /\ remove key st = AssertFailed) \/
  exists st', remove key st = Returns (true, st') /\
    well_typed st' /\
    length (buckets st') = length (buckets st) /\
    seeds st' = seeds st /\
    potential (buckets st') < potential (buckets st) /\
    ibf_count st' = (ibf_count st - 1) mod size_t_mod.
Proof.
  intros [Hwf Hcnt] Hn HK.
  destruct (contains_total key st Hn) as [c Hc].
  unfold remove. rewrite Hc. cbn [mbind Run_bind].
  destruct (decide (c = exists_)) as [->|Hne]; [|by left].
  right. rewrite remove_loop_touched by done.
  destruct (ndebug || counts_pos _ _) eqn:Hassert;
    [right|left; by apply orb_false_iff in Hassert as [? _]].
  cbn [mbind Run_bind mret Run_ret].
  eexists. split; [done|]. cbn [buckets seeds ibf_count].
  pose proof (NoDup_touched (length (buckets st)) key (seeds st) [])
    as Hnd.
  destruct (potential_drop_all key _ (buckets st) Hnd Hwf)
    as (Hwf' & _ & Hstrict).
  { apply Forall_forall. intros i Hi. by apply touched_lt in Hi. }
  pose proof (touched_length (length (buckets st)) key (seeds st) [])
    as Hlen.
  split_and!; try done.
  - split; [done|]. simpl. apply Z.mod_pos_bound. unfold size_t_mod. lia.
  - apply alter_all_length.
  - apply contains_loop_exists in Hc as (seed & b & Hseed & Hlk & Hone & _).
    assert (potential (alter_all (drop key)
              (touched (length (buckets st)) key (seeds st) [])
              (buckets st))
            <= potential (buckets st)
               + Z.of_nat (length (touched (length (buckets st)) key
                                     (seeds st) []))
               - counter_mod); [|lia].
    apply Hstrict. exists (slot (length (buckets st)) key seed), b.
    split; [|done]. apply elem_of_touched. split.
    + apply list_elem_of_fmap. eauto.
    + apply not_elem_of_nil.
Qed.

(** One pass over a well-typed copy: it never raises the potential,
    lowers it when it ends with [has_changed] set, and takes from the
    global count one per successful removal. *)
Lemma scan_measure idxs copy res finished has_changed :
  well_typed copy ->
  Z.of_nat (length (seeds copy)) < counter_mod ->
  Forall (fun i => (i < length (buckets copy))%nat) idxs ->
  (ndebug = false /\
   scan idxs copy res finished has_changed = AssertFailed) \/
  exists copy' res' finished' has_changed' (r : nat),
    scan idxs copy res finished has_changed =
      Returns (copy', res', finished', has_changed') /\
    well_typed copy' /\
    length (buckets copy') = length (buckets copy) /\
    seeds copy' = seeds copy /\
    potential (buckets copy') <= potential (buckets copy) /\
    (r <= length idxs)%nat /\
    ibf_count copy' = (ibf_count copy - Z.of_nat r) mod size_t_mod /\
    (has_changed' = true ->
     has_changed = true \/
     (potential (buckets copy') < potential (buckets copy) /\
      (1 <= r)%nat)).
Proof.
  revert copy res finished has_changed.
  induction idxs as [|i idxs IH];
    intros copy res finished has_changed Hwt HK Hidx; cbn [scan].
  { right. exists copy, res, finished, has_changed, 0%nat.
    destruct Hwt as [? ?].
    split_and!; try done; try lia; [| by left].
    rewrite Z.sub_0_r, Z.mod_small; done. }
  apply Forall_cons in Hidx as [Hi Hidx].
  destruct (lookup_lt_is_Some_2 _ _ Hi) as [b Hlk]. rewrite Hlk.
  assert (forall fin hc,
    (ndebug = false /\ scan idxs copy res fin hc = AssertFailed) \/
    exists copy' res' finished' has_changed' (r : nat),
      scan idxs copy res fin hc =
        Returns (copy', res', finished', has_changed') /\
      well_typed copy' /\
      length (buckets copy') = length (buckets copy) /\
      seeds copy' = seeds copy /\
      potential (buckets copy') <= potential (buckets copy) /\
      (r <= length (i :: idxs))%nat /\
      ibf_count copy' = (ibf_count copy - Z.of_nat r) mod size_t_mod /\
      (has_changed' = true ->
       hc = true \/
       (potential (buckets copy') < potential (buckets copy) /\
        (1 <= r)%nat))) as Hskip.
  { intros fin hc.
    destruct (IH copy res fin hc Hwt HK Hidx)
      as [?|(c' & r' & f' & h' & r & ? & ? & ? & ? & ? & ? & ? & ?)];
      [by left|right].
    exists c', r', f', h', r. simpl. split_and!; try done. lia. }
  destruct (count b =? 0); [apply Hskip|].
  destruct (1 <? count b); [apply Hskip|]. clear Hskip.
  assert (directory_size copy <> 0%nat) as Hn.
  { unfold directory_size. lia. }
  destruct (remove_measure (cumulative_key b) copy Hwt Hn HK)
    as [Hrm|[[Hnd Hrm]|(copy1 & Hrm & Hwt1 & Hlen1 & Hs1 & Hpot1 & Hcnt1)]];
    rewrite Hrm; cbn [mbind Run_bind]; [| by left |].
  - rewrite Hlk. unfold assert_.
    destruct (ndebug || _) eqn:Hassert; cbn [mbind Run_bind];
      [|left; by apply orb_false_iff in Hassert as [? _]].
    destruct (IH copy (set_insert (cumulative_key b) res) finished false
                Hwt HK Hidx)
      as [?|(c' & r' & f' & h' & r & ? & ? & ? & ? & ? & ? & ? & Hh)];
      [by left|right].
    exists c', r', f', h', r. simpl. split_and!; try done; [lia|].
    intros Hh'. destruct (Hh Hh') as [?|?]; [done|by right].
  - assert (i < length (buckets copy1))%nat as Hi1 by lia.
    destruct (lookup_lt_is_Some_2 _ _ Hi1) as [b1 Hlk1]. rewrite Hlk1.
    unfold assert_.
    destruct (ndebug || _) eqn:Hassert; cbn [mbind Run_bind];
      [|left; by apply orb_false_iff in Hassert as [? _]].
    destruct (IH copy1 (set_insert (cumulative_key b) res) finished true
                Hwt1)
      as [?|(c' & r' & f' & h' & r & ? & ? & ? & ? & ? & ? & Hcnt & Hh)];
      [by rewrite Hs1|by rewrite Hlen1|by left|right].
    exists c', r', f', h', (S r). simpl.
    split_and!; try done; try lia; try congruence.
    rewrite Hcnt, Hcnt1. rewrite Zminus_mod_idemp_l. f_equal. lia.
Qed.

(** Fuel beyond the potential suffices for the peeling loop. *)
Lemma peel_terminates fuel copy res finished has_changed :
  well_typed copy ->
  Z.of_nat (length (seeds copy)) < counter_mod ->
  (Z.to_nat (potential (buckets copy)) < fuel)%nat ->
  (ndebug = false /\
   peel fuel copy res finished has_changed = AssertFailed) \/
  exists copy' res' finished',
    peel fuel copy res finished has_changed =
      Returns (copy', res', finished').
Proof.
  revert copy res finished has_changed.
  induction fuel as [|fuel IH];
    intros copy res finished has_changed Hwt HK Hfuel; [lia|].
  cbn [peel]. destruct (negb finished && has_changed); [|right; eauto].
  destruct (scan_measure (seq 0 (length (buckets copy))) copy res true
              false Hwt HK)
    as [[Hnd Hs]|(c' & r' & f' & h' & r & Hs & Hwt' & Hlen & Hseeds & Hle
            & _ & _ & Hh)].
  { apply Forall_forall. intros i Hi%elem_of_seq. lia. }
  { rewrite Hs. by left. }
  rewrite Hs. cbn [mbind Run_bind].
  destruct h'.
  - destruct (Hh eq_refl) as [?|[Hlt _]]; [done|].
    apply IH; [done|by rewrite Hseeds|].
    destruct Hwt' as [Hwf' _]. pose proof (potential_nonneg _ Hwf'). lia.
  - destruct fuel; cbn [peel]; rewrite andb_false_r; right; eauto.
Qed.
End Termination.
End FilterTermination.

(** ** A peeling loop that cycles

    With as many seeds as a bucket counter has values, one removal can
    decrement that many distinct buckets, and that many removals bring every
    bucket back to where it was. *)

Section Cycle.
Import Filter FilterSpec FilterFacts.

Lemma touched_injective `{T : Template} size key (f : nat -> Z) js seen :
  (forall j, j ∈ js -> slot size key (f j) = j) ->
  NoDup js -> (forall j, j ∈ js -> j ∉ seen) ->
  touched size key (map f js) seen = js.
Proof.
  revert seen. induction js as [|j js IH]; intros seen Hslot Hnd Hseen; [done|].
  apply NoDup_cons in Hnd as [Hj Hnd].
  cbn [map touched]. rewrite Hslot by (by left).
  rewrite bool_decide_eq_false_2 by (apply Hseen; by left).
  f_equal. apply IH; [|done|].
  - intros k Hk. apply Hslot. by right.
  - intros k Hk. apply not_elem_of_cons. split; [by intros ->|].
    apply Hseen. by right.
Qed.

Lemma slot_wide j :
  (j < 256)%nat ->
  slot (T:=Wide) 257 wide_key (Z.lxor wide_key (Z.of_nat j)) = j.
Proof.
  intros Hj. unfold slot. cbn [hasher Wide].
  rewrite <- Z.lxor_assoc, Z.lxor_nilpotent, Z.lxor_0_l.
  rewrite Z.mod_small by lia. apply Nat2Z.id.
Qed.

Lemma wide_lookup t j :
  (j < 256)%nat -> wide_buckets_at t !! j = Some (wide_bucket t j).
Proof.
  intros Hj. unfold wide_buckets_at.
  rewrite lookup_app_l by (rewrite length_map, length_seq; lia).
  change (map (wide_bucket t) (seq 0 256)) with (wide_bucket t <$> seq 0 256).
  rewrite list_lookup_fmap, lookup_seq_lt by lia. done.
Qed.

Lemma wide_lookup_last t : wide_buckets_at t !! 256%nat = Some (mkBucket 0 5).
Proof.
  unfold wide_buckets_at.
  rewrite lookup_app_r by (rewrite length_map, length_seq; lia).
  rewrite length_map, length_seq. done.
Qed.

Lemma wide_length t : length (wide_buckets_at t) = 257%nat.
Proof.
  unfold wide_buckets_at. rewrite length_app, length_map, length_seq. done.
Qed.

Lemma wide_touched :
  touched (T:=Wide) 257 wide_key wide_seeds [] = seq 0 256.
Proof.
  unfold wide_seeds. apply (touched_injective (T:=Wide)).
  - intros j Hj%elem_of_seq. apply slot_wide. lia.
  - apply NoDup_seq.
  - intros j _. apply not_elem_of_nil.
Qed.

Lemma even_double t : Nat.even (t + t) = true.
Proof. rewrite Nat.even_add. by destruct (Nat.even t). Qed.

Lemma wide_contains_from t a len might :
  (t < 256)%nat -> (a <= t)%nat -> (a + len = 256)%nat ->
  contains_loop (T:=Wide) wide_key
    (map (fun j => Z.lxor wide_key (Z.of_nat j)) (seq a len))
    (wide_buckets_at t) might = Returns exists_.
Proof.
  intros Ht. revert a might. induction len as [|len IH]; intros a might Ha Hlen;
    [lia|].
  cbn [seq map contains_loop]. unfold hash_index.
  rewrite wide_length, hash_index_of_pos by done. cbn [mbind Run_bind].
  rewrite slot_wide by lia. rewrite wide_lookup by lia.
  cbn [wide_bucket count cumulative_key].
  destruct (decide (a = t)) as [->|Hne].
  - replace (Z.of_nat (S t) - Z.of_nat t) with 1 by lia.
    change (1 mod 256 =? 1) with true. cbn iota.
    rewrite even_double. done.
  - assert (((Z.of_nat (S a) - Z.of_nat t) mod 256 =? 1) = false) as ->.
    { apply Z.eqb_neq. intros Heq.
      pose proof (Z_div_mod_eq_full (Z.of_nat (S a) - Z.of_nat t) 256).
      lia. }
    apply IH; lia.
Qed.

Lemma wide_drop_all t :
  alter_all (drop (T:=Wide) wide_key) (seq 0 256) (wide_buckets_at t)
  = wide_buckets_at (S t).
Proof.
  apply list_eq. intros i.
  rewrite alter_all_lookup by apply NoDup_seq.
  case_bool_decide as Hi.
  - apply elem_of_seq in Hi. rewrite !wide_lookup by lia.
    cbn [fmap option_fmap option_map]. f_equal.
    unfold drop, wide_bucket. cbn [count cumulative_key]. f_equal.
    + rewrite Nat.add_succ_r, Nat.even_succ, <- Nat.negb_even.
      destruct (Nat.even (i + t)); simpl.
      * apply Z.lxor_nilpotent.
      * apply Z.lxor_0_l.
    + change (@counter_mod Wide) with 256.
      rewrite Zminus_mod_idemp_l. f_equal. lia.
  - destruct (decide (i = 256%nat)) as [->|Hne].
    + by rewrite !wide_lookup_last.
    + rewrite elem_of_seq in Hi.
      rewrite !(proj2 (lookup_ge_None _ _)); [done| |];
        rewrite wide_length; lia.
Qed.

Lemma wide_remove t st :
  (t < 256)%nat ->
  seeds st = wide_seeds -> buckets st = wide_buckets_at t ->
  remove (T:=Wide) wide_key st
  = Returns (true, mkIBF wide_seeds (wide_buckets_at (S t))
                     ((ibf_count st - 1) mod size_t_mod)).
Proof.
  intros Ht Hs Hb. unfold remove, contains. rewrite Hs, Hb.
  unfold wide_seeds at 1.
  rewrite (wide_contains_from t 0 256) by lia. cbn [mbind Run_bind].
  destruct (decide (exists_ = exists_)); [|done].
  rewrite (remove_loop_touched (T:=Wide)) by (by rewrite wide_length).
  cbn [ndebug Wide orb]. rewrite wide_length, wide_touched, wide_drop_all.
  done.
Qed.

Lemma scan_cons `{T : Template} i rest copy res finished has_changed :
  scan (i :: rest) copy res finished has_changed =
    match buckets copy !! i with
    | None => Undefined
    | Some bucket =>
        if count bucket =? 0
        then scan rest copy res finished has_changed
        else if 1 <? count bucket
        then scan rest copy res false has_changed
        else
          '(removed, copy') ← remove (cumulative_key bucket) copy;
          match buckets copy' !! i with
          | None => Undefined
          | Some bucket' =>
              _ ← assert_ (count bucket' =? 0);
              scan rest copy' (set_insert (cumulative_key bucket) res)
                finished removed
          end
    end.
Proof. done. Qed.

Lemma wide_scan_from m t st res finished has_changed :
  (t + m = 256)%nat ->
  seeds st = wide_seeds -> buckets st = wide_buckets_at t ->
  exists st' res',
    scan (T:=Wide) (seq t (S m)) st res finished has_changed
      = Returns (st', res', false,
                 if decide (m = 0%nat) then has_changed else true) /\
    seeds st' = wide_seeds /\ buckets st' = wide_buckets_at 256.
Proof.
  revert t st res finished has_changed.
  induction m as [|m IH]; intros t st res finished has_changed Htm Hs Hb.
  - assert (t = 256%nat) as -> by lia.
    cbn [seq scan]. rewrite Hb, wide_lookup_last. cbn. eauto.
  - change (seq t (S (S m))) with (t :: seq (S t) (S m)).
    rewrite scan_cons, Hb, wide_lookup by lia.
    cbn [wide_bucket count cumulative_key].
    replace (Z.of_nat (S t) - Z.of_nat t) with 1 by lia.
    change (1 mod 256 =? 0) with false. change (1 <? 1 mod 256) with false.
    cbn iota. rewrite even_double.
    rewrite (wide_remove t) by (done || lia). cbn [mbind Run_bind buckets].
    rewrite wide_lookup by lia. unfold assert_.
    cbn [ndebug Wide orb mbind Run_bind].
    destruct (IH (S t) (mkIBF wide_seeds (wide_buckets_at (S t))
                          ((ibf_count st - 1) mod size_t_mod))
                (set_insert wide_key res) finished true)
      as (st' & res' & Hscan & Hs' & Hb'); [lia|done|done|].
    exists st', res'. rewrite Hscan. split; [|done].
    by destruct (decide (m = 0%nat)).
Qed.

Lemma wide_buckets_period : wide_buckets_at 256 = wide_buckets_at 0.
Proof. vm_compute. reflexivity. Qed.

Lemma peel_cycles fuel st res :
  seeds st = wide_seeds -> buckets st = wide_buckets_at 0 ->
  peel (T:=Wide) fuel st res false true = OutOfFuel.
Proof.
  revert st res. induction fuel as [|fuel IH]; intros st res Hs Hb; [done|].
  cbn [peel negb andb]. rewrite Hb, wide_length.
  destruct (wide_scan_from 256 0 st res true false)
    as (st' & res' & Hscan & Hs' & Hb'); [lia|done|done|].
  rewrite Hscan. cbn [mbind Run_bind]. destruct (decide _); [lia|].
  apply IH; [done|]. by rewrite Hb', wide_buckets_period.
Qed.
End Cycle.

(** On an instance whose global count is 0 a scan can go on while the count
    of the working copy wraps up instead of coming down. *)
Lemma uncounted_scan_wraps :
  FilterSpec.well_typed (T:=Tests) uncounted /\
  exists copy' res',
    Filter.scan (T:=Tests) (seq 0 (Filter.directory_size uncounted))
      uncounted [] true false = Returns (copy', res', false, true) /\
    Filter.ibf_count uncounted < Filter.ibf_count copy'.
Proof.
  split.
  - split.
    + apply (bool_decide_unpack _). vm_compute. exact I.
    + vm_compute. split; [discriminate|reflexivity].
  - eexists. eexists. split; [vm_compute; reflexivity|]. vm_compute.
    reflexivity.
Qed.

(** ** The loops of the key-value variant *)

Module DictFacts.
Import Dictionary DictSpec.
Section Loops.
Context {T : Template}.

Lemma dict_counts_pos_cons bs i idxs :
  counts_pos bs (i :: idxs) =
    match bs !! i with Some b => 0 <? count b | None => true end
    && counts_pos bs idxs.
Proof. done. Qed.

Lemma dict_counts_pos_alter f i bs idxs :
  i ∉ idxs -> counts_pos (alter f i bs) idxs = counts_pos bs idxs.
Proof.
  induction idxs as [|j idxs IH]; intros Hi; [done|].
  apply not_elem_of_cons in Hi as [Hne Hi]. simpl.
  rewrite list_lookup_alter_ne by done. by rewrite IH.
Qed.

Lemma dict_insert_loop_touched key value sds seen bs :
  length bs <> 0%nat ->
  insert_loop key value sds seen bs =
    Returns (alter_all (bump key value)
               (touched (length bs) key sds seen) bs).
Proof.
  intros Hn. revert seen bs Hn.
  induction sds as [|seed rest IH]; intros seen bs Hn; simpl; [done|].
  unfold hash_index. rewrite hash_index_of_pos by done. simpl.
  case_bool_decide; [by apply IH|].
  rewrite IH by (by rewrite length_alter).
  by rewrite length_alter, alter_all_cons.
Qed.

Lemma dict_remove_loop_touched key value sds seen bs :
  length bs <> 0%nat ->
  remove_loop key value sds seen bs =
    if ndebug || counts_pos bs (touched (length bs) key sds seen)
    then Returns (alter_all (drop key value)
                    (touched (length bs) key sds seen) bs)
    else AssertFailed.
Proof.
  intros Hn. revert seen bs Hn.
  induction sds as [|seed rest IH]; intros seen bs Hn;
    cbn [remove_loop touched].
  { by rewrite orb_true_r. }
  unfold hash_index. rewrite hash_index_of_pos by done.
  cbn [mbind Run_bind].
  case_bool_decide as Hseen; [by apply IH|].
  pose proof (slot_lt (length bs) key seed Hn) as Hlt.
  destruct (lookup_lt_is_Some_2 bs _ Hlt) as [b Hb]. rewrite Hb.
  rewrite dict_counts_pos_cons, Hb, alter_all_cons. unfold assert_.
  assert (slot (length bs) key seed
          ∉ touched (length bs) key rest (slot (length bs) key seed :: seen))
    as Hnotin.
  { rewrite elem_of_touched, not_elem_of_cons. naive_solver. }
  destruct ndebug eqn:Hnd; cbn [orb mbind Run_bind].
  - rewrite IH by (by rewrite length_alter). by rewrite length_alter.
  - destruct (0 <? count b) eqn:Hpos; cbn [andb mbind Run_bind]; [|done].
    rewrite IH by (by rewrite length_alter).
    by rewrite length_alter, dict_counts_pos_alter.
Qed.

Lemma get_loop_total key sds bs :
  length bs <> 0%nat -> exists v, get_loop key sds bs = Returns v.
Proof.
  intros Hn. induction sds as [|seed rest IH]; simpl; [eauto|].
  unfold hash_index. rewrite hash_index_of_pos by done. simpl.
  pose proof (slot_lt (length bs) key seed Hn) as Hlt.
  destruct (lookup_lt_is_Some_2 bs _ Hlt) as [b ->].
  destruct (count b =? 1); eauto.
Qed.

(** [get] finds a value only in a probed bucket that holds count 1 and
    the key itself, and returns that bucket's value. *)
Lemma get_loop_some key sds bs v :
  get_loop key sds bs = Returns (Some v) ->
  exists seed b, seed ∈ sds /\ bs !! slot (length bs) key seed = Some b /\
                 count b = 1 /\ cumulative_key b = key /\
                 cumulative_value b = v.
Proof.
  induction sds as [|seed rest IH]; simpl; [done|].
  unfold hash_index, hash_index_of.
  destruct (decide (length bs = 0%nat)); [done|]. simpl.
  destruct (bs !! slot (length bs) key seed) as [b|] eqn:Hb; [|done].
  destruct (count b =? 1) eqn:Hc.
  - destruct (key =? cumulative_key b) eqn:Hk; [|done]. intros [= <-].
    exists seed, b. rewrite elem_of_cons.
    split_and!; [by left|done|lia|lia|done].
  - intros (seed' & b' & ? & ? & ? & ? & ?)%IH.
    exists seed', b'. rewrite elem_of_cons. naive_solver.
Qed.

Lemma dict_remove_loop_length key value sds seen bs bs' :
  remove_loop key value sds seen bs = Returns bs' ->
  length bs' = length bs.
Proof.
  revert seen bs. induction sds as [|seed rest IH]; intros seen bs; simpl.
  - by intros [= ->].
  - destruct (hash_index bs key seed) as [i| | | |]; simpl; try done.
    case_bool_decide; [apply IH|].
    destruct (bs !! i); [|done].
    destruct (assert_ _); simpl; try done.
    intros Hr%IH. by rewrite length_alter in Hr.
Qed.

Lemma dict_insert_loop_length key value sds seen bs bs' :
  insert_loop key value sds seen bs = Returns bs' ->
  length bs' = length bs.
Proof.
  revert seen bs. induction sds as [|seed rest IH]; intros seen bs; simpl.
  - by intros [= ->].
  - destruct (hash_index bs key seed) as [i| | | |]; simpl; try done.
    case_bool_decide; [apply IH|].
    intros Hr%IH. by rewrite length_alter in Hr.
Qed.

Lemma dict_remove_length key st removed st' :
  remove key st = Returns (removed, st') ->
  length (buckets st') = length (buckets st).
Proof.
  unfold remove. destruct (get key st) as [[v|]| | | |]; simpl; try done.
  - destruct (remove_loop _ _ _ _ _) as [bs| | | |] eqn:Hl; simpl; try done.
    intros [= _ <-]. simpl. by apply dict_remove_loop_length in Hl.
  - by intros [= _ <-].
Qed.

(** [remove] returns false exactly when [get] finds no value, and then
    hands the instance back as it was. *)
Lemma dict_remove_failure_atomic key st :
  directory_size st <> 0%nat ->
  exists v, get key st = Returns v /\
    (v = None -> remove key st = Returns (false, st)) /\
    (forall removed st', remove key st = Returns (removed, st') ->
       (removed = false <-> v = None) /\
       (removed = false -> st' = st)).
Proof.
  intros Hn. destruct (get_loop_total key (seeds st) (buckets st) Hn)
    as [v Hv].
  exists v. split; [done|]. unfold remove, get. rewrite Hv. simpl.
  destruct v as [v|].
  - split; [done|]. intros removed st'.
    destruct (remove_loop _ _ _ _ _) as [bs| | | |]; simpl; try done.
    intros [= <- <-]. split; [split|]; done.
  - split; [done|]. intros removed st' [= <- <-]. done.
Qed.

(** [listAll] hands back the instance it was called on. *)
Lemma listAll_frame fuel st r st' :
  listAll fuel st = Returns (r, st') -> st' = st.
Proof.
  unfold listAll.
  destruct (reserve (ibd_count st)); cbn [mbind Run_bind]; try done.
  destruct (peel fuel st [] false true) as [[[copy' res] fin]| | | |];
    simpl; try done.
  destruct (negb fin || _); by intros [= _ <-].
Qed.
End Loops.
End DictFacts.

Lemma remove_key_length key (M : list (Z * Z)) :
  key ∈ M.*1 -> S (length (remove_key key M)) = length M.
Proof.
  induction M as [|kv M IH]; intros Hin; [by apply elem_of_nil in Hin|].
  simpl. case_bool_decide as Hk; [done|].
  simpl in Hin. apply elem_of_cons in Hin as [?|Hin]; [congruence|].
  simpl. by rewrite IH.
Qed.

Lemma remove_key_fst key (M : list (Z * Z)) :
  (remove_key key M).*1 = remove_one key M.*1.
Proof.
  induction M as [|kv M IH]; [done|].
  cbn [remove_key remove_one fmap list_fmap].
  case_bool_decide; [done|]. by rewrite fmap_cons, IH.
Qed.

Lemma elem_of_remove_key_inv key kv (M : list (Z * Z)) :
  kv ∈ remove_key key M -> kv ∈ M.
Proof.
  induction M as [|j l IH]; simpl; [done|].
  case_bool_decide; rewrite !elem_of_cons; naive_solver.
Qed.

Lemma remove_key_sublist key (M : list (Z * Z)) :
  remove_key key M `sublist_of` M.
Proof.
  induction M as [|kv M IH]; simpl; [done|].
  case_bool_decide; [by apply sublist_cons|by apply sublist_skip].
Qed.

Lemma NoDup_remove_key key (M : list (Z * Z)) :
  NoDup M.*1 -> NoDup (remove_key key M).*1.
Proof.
  intros Hnd. eapply sublist_NoDup; [done|].
  apply fmap_sublist, remove_key_sublist.
Qed.

Lemma remove_key_perm key v (M : list (Z * Z)) :
  NoDup M.*1 -> (key, v) ∈ M -> M ≡ₚ (key, v) :: remove_key key M.
Proof.
  induction M as [|kv M IH]; intros Hnd Hin; [by apply elem_of_nil in Hin|].
  simpl in Hnd. apply NoDup_cons in Hnd as [Hfst Hnd].
  simpl. case_bool_decide as Hk.
  - apply elem_of_cons in Hin as [<-|Hin]; [reflexivity|].
    exfalso. apply Hfst. subst key.
    apply list_elem_of_fmap. by exists (kv.1, v).
  - apply elem_of_cons in Hin as [Heq|Hin]; [by subst kv|].
    rewrite (IH Hnd Hin) at 1. apply perm_swap.
Qed.

Lemma xors_cons x l : xors (x :: l) = Z.lxor x (xors l).
Proof. done. Qed.

Lemma xors_remove_key_fst key (M : list (Z * Z)) :
  key ∈ M.*1 -> xors (remove_key key M).*1 = Z.lxor (xors M.*1) key.
Proof.
  induction M as [|kv M IH]; intros Hin; [by apply elem_of_nil in Hin|].
  cbn [remove_key]. rewrite fmap_cons, xors_cons. case_bool_decide as Hk.
  - rewrite Hk. rewrite (Z.lxor_comm key), Z.lxor_assoc, Z.lxor_nilpotent.
    by rewrite Z.lxor_0_r.
  - rewrite fmap_cons in Hin.
    apply elem_of_cons in Hin as [?|Hin]; [congruence|].
    rewrite fmap_cons, xors_cons, IH by done. by rewrite Z.lxor_assoc.
Qed.

Lemma xors_remove_key_snd key v (M : list (Z * Z)) :
  NoDup M.*1 -> (key, v) ∈ M ->
  xors (remove_key key M).*2 = Z.lxor (xors M.*2) v.
Proof.
  induction M as [|kv M IH]; intros Hnd Hin; [by apply elem_of_nil in Hin|].
  rewrite fmap_cons in Hnd. apply NoDup_cons in Hnd as [Hfst Hnd].
  cbn [remove_key]. rewrite fmap_cons, xors_cons. case_bool_decide as Hk.
  - apply elem_of_cons in Hin as [<-|Hin].
    + cbn [snd]. rewrite (Z.lxor_comm v), Z.lxor_assoc, Z.lxor_nilpotent.
      by rewrite Z.lxor_0_r.
    + exfalso. apply Hfst. subst key.
      apply list_elem_of_fmap. by exists (kv.1, v).
  - apply elem_of_cons in Hin as [Heq|Hin]; [by subst kv|].
    rewrite fmap_cons, xors_cons, IH by done. by rewrite Z.lxor_assoc.
Qed.

Lemma filter_remove_key (Q : Z -> Prop) `{!forall k, Decision (Q k)} key
    (M : list (Z * Z)) :
  filter (fun kv => Q kv.1) (remove_key key M) =
    if decide (Q key) then remove_key key (filter (fun kv => Q kv.1) M)
    else filter (fun kv => Q kv.1) M.
Proof.
  induction M as [|kv M IH]; simpl; [by destruct (decide _)|].
  case_bool_decide as Hk.
  - subst key. destruct (decide (Q kv.1)) as [HP|HP].
    + rewrite filter_cons_True by done. simpl. by rewrite bool_decide_eq_true_2.
    + by rewrite filter_cons_False.
  - destruct (decide (Q kv.1)) as [HPk|HPk].
    + rewrite !filter_cons_True by done. rewrite IH.
      destruct (decide (Q key)); [|done].
      simpl. by rewrite bool_decide_eq_false_2.
    + rewrite !filter_cons_False by done. apply IH.
Qed.

Section DLoad.
Context {T : Template}.

Lemma dload_cons size sds kv M i :
  dload size sds (kv :: M) i =
    if decide (i ∈ slots size kv.1 sds) then kv :: dload size sds M i
    else dload size sds M i.
Proof.
  unfold dload. destruct (decide _).
  - by rewrite filter_cons_True.
  - by rewrite filter_cons_False.
Qed.

Lemma dload_remove_key size sds key M i :
  dload size sds (remove_key key M) i =
    if decide (i ∈ slots size key sds)
    then remove_key key (dload size sds M i) else dload size sds M i.
Proof.
  unfold dload.
  exact (filter_remove_key (fun k => i ∈ slots (T:=T) size k sds) key M).
Qed.

Lemma elem_of_dload size sds M i kv :
  kv ∈ dload size sds M i <-> i ∈ slots size kv.1 sds /\ kv ∈ M.
Proof. unfold dload. by rewrite list_elem_of_filter. Qed.

Lemma dload_length size sds M i :
  (length (dload size sds M i) <= length M)%nat.
Proof. apply length_filter. Qed.

Lemma dload_length_keys size sds M i :
  length (dload size sds M i) = length (load size sds M.*1 i).
Proof.
  induction M as [|kv M IH]; [done|].
  rewrite fmap_cons, dload_cons, load_cons.
  destruct (decide _); simpl; by rewrite IH.
Qed.

Lemma dload_NoDup size sds M i :
  NoDup M.*1 -> NoDup (dload size sds M i).*1.
Proof.
  intros Hnd. eapply sublist_NoDup; [done|].
  apply fmap_sublist, sublist_filter.
Qed.
End DLoad.

(** ** Consistent instances of the key-value variant *)

Module DictInv.
Import Dictionary DictSpec DictFacts DictHistory.
Section Inv.
Context {T : Template}.

Lemma dict_consistent_empty sds size :
  size <> 0%nat -> consistent (empty sds size) [].
Proof.
  intros Hn. unfold consistent, empty. simpl. rewrite length_replicate.
  pose proof counter_mod_bounds.
  split_and!; [done|intros i; simpl; lia|constructor|done|].
  intros i b [-> _]%lookup_replicate. done.
Qed.

Lemma dict_consistent_count st M :
  consistent st M -> Z.of_nat (length M) < size_t_mod ->
  ibd_count st = Z.of_nat (length M).
Proof. intros (_ & _ & _ & -> & _) Hfew. apply Z.mod_small. lia. Qed.

Lemma dict_consistent_insert key value st M :
  consistent st M ->
  key ∉ M.*1 ->
  (forall i,
     Z.of_nat (length (dload (length (buckets st)) (seeds st)
                         ((key, value) :: M) i)) < counter_mod) ->
  exists st', insert key value st = Returns st' /\ seeds st' = seeds st /\
              consistent st' ((key, value) :: M).
Proof.
  intros (Hn & Hcap & Hnd & Hcount & Hb) Hnew Hroom.
  unfold insert. rewrite dict_insert_loop_touched by done.
  eexists. split; [done|]. split; [done|].
  pose proof counter_mod_bounds as Hcm.
  unfold consistent. cbn [buckets seeds ibd_count].
  rewrite alter_all_length.
  split_and!; [done|done|by apply NoDup_cons| |].
  { rewrite Hcount. simpl length.
    rewrite Nat2Z.inj_succ, <- Z.add_1_r. by rewrite Zplus_mod_idemp_l. }
  intros i b. rewrite alter_all_lookup by apply NoDup_touched.
  specialize (Hroom i). rewrite dload_cons in Hroom |- *. cbn [fst] in *.
  case_bool_decide as Hi.
  - apply elem_of_touched in Hi as [Hi _].
    rewrite decide_True in Hroom |- * by done.
    destruct (buckets st !! i) as [b0|] eqn:Hb0; [|done].
    intros [= <-]. destruct (Hb _ _ Hb0) as (Hc & Hx & Hv).
    cbn [bump count cumulative_key cumulative_value].
    rewrite !fmap_cons, !xors_cons. cbn [fst snd length] in Hroom |- *.
    rewrite Hc, Hx, Hv.
    split_and!; [|apply Z.lxor_comm|apply Z.lxor_comm].
    rewrite Z.mod_small; lia.
  - destruct (decide _) as [Hin|]; [|by apply Hb].
    exfalso. apply Hi, elem_of_touched. split; [done|].
    apply not_elem_of_nil.
Qed.

Lemma singleton_load (l : list (Z * Z)) :
  length l = 1%nat -> exists kv, l = [kv].
Proof. destruct l as [|kv [|]]; simpl; try lia. eauto. Qed.

Lemma dict_consistent_remove key v st M :
  consistent st M ->
  get key st = Returns (Some v) ->
  (key, v) ∈ M /\
  exists st', remove key st = Returns (true, st') /\
              seeds st' = seeds st /\
              consistent st' (remove_key key M).
Proof.
  intros (Hn & Hcap & Hnd & Hcount & Hb) Hget.
  pose proof counter_mod_bounds as Hcm.
  assert ((key, v) ∈ M) as HinM.
  { apply get_loop_some in Hget
      as (seed & b & Hseed & Hlk & Hc & Hk & Hv).
    destruct (Hb _ _ Hlk) as (Hc' & Hx & Hxv).
    destruct (singleton_load (dload (length (buckets st)) (seeds st) M
                (slot (length (buckets st)) key seed))) as [kv Hload];
      [lia|].
    rewrite Hload in Hx, Hxv. simpl in Hx, Hxv.
    rewrite Z.lxor_0_r in Hx, Hxv.
    assert (kv ∈ dload (length (buckets st)) (seeds st) M
               (slot (length (buckets st)) key seed)) as Hj.
    { rewrite Hload. by left. }
    apply elem_of_dload in Hj as [_ Hj].
    destruct kv as [k w]. simpl in *. congruence. }
  assert (key ∈ M.*1) as Hkey.
  { apply list_elem_of_fmap. by exists (key, v). }
  split; [done|].
  unfold remove. rewrite Hget. cbn [mbind Run_bind].
  rewrite dict_remove_loop_touched by done.
  assert (counts_pos (buckets st)
            (touched (length (buckets st)) key (seeds st) []) = true) as ->.
  { apply forallb_forall. intros i Hi%list_elem_of_In.
    apply elem_of_touched in Hi as [Hi _].
    destruct (buckets st !! i) as [b|] eqn:Hbi; [|done].
    destruct (Hb _ _ Hbi) as [Hc _].
    assert ((key, v) ∈ dload (length (buckets st)) (seeds st) M i) as Hl
      by by apply elem_of_dload.
    destruct (dload _ _ M i); [by apply elem_of_nil in Hl|].
    simpl in Hc. apply Z.ltb_lt. lia. }
  rewrite orb_true_r. cbn [mbind Run_bind mret Run_ret].
  eexists. split; [done|]. split; [done|].
  pose proof (remove_key_length _ _ Hkey) as Hlen.
  unfold consistent. cbn [buckets seeds ibd_count].
  rewrite alter_all_length.
  split_and!; [done| |by apply NoDup_remove_key| |].
  { intros i. rewrite dload_remove_key. specialize (Hcap i).
    destruct (decide _); [|done].
    pose proof (sublist_length _ _
                  (remove_key_sublist key
                     (dload (length (buckets st)) (seeds st) M i))). lia. }
  { rewrite Hcount, Zminus_mod_idemp_l. f_equal. lia. }
  intros i b. rewrite alter_all_lookup by apply NoDup_touched.
  rewrite dload_remove_key. specialize (Hcap i).
  case_bool_decide as Hi.
  - apply elem_of_touched in Hi as [Hi _].
    destruct (decide _) as [_|]; [|done].
    destruct (buckets st !! i) as [b0|] eqn:Hb0; [|done].
    intros [= <-]. destruct (Hb _ _ Hb0) as (Hc & Hx & Hv).
    cbn [drop count cumulative_key cumulative_value].
    assert ((key, v) ∈ dload (length (buckets st)) (seeds st) M i) as Hl
      by by apply elem_of_dload.
    assert (key ∈ (dload (length (buckets st)) (seeds st) M i).*1) as Hl1.
    { apply list_elem_of_fmap. by exists (key, v). }
    rewrite xors_remove_key_fst by done.
    rewrite (xors_remove_key_snd key v)
      by (done || by apply dload_NoDup).
    pose proof (remove_key_length _ _ Hl1) as Hlen'.
    rewrite Hc, Hx, Hv. split_and!; [|done|done].
    rewrite Z.mod_small; lia.
  - destruct (decide _) as [Hin|]; [|by apply Hb].
    exfalso. apply Hi, elem_of_touched. split; [done|].
    apply not_elem_of_nil.
Qed.
End Inv.
End DictInv.

(** ** Decoding a consistent instance of the key-value variant *)

Module DictDecode.
Import Dictionary DictSpec DictFacts DictHistory DictInv.
Section Decode.
Context {T : Template}.

(** For a present pair, the first probed bucket of count 1 yields the
    pair's value. *)
Lemma get_loop_singleton key v st M sds :
  consistent st M ->
  (key, v) ∈ M ->
  (forall seed, seed ∈ sds -> seed ∈ seeds st) ->
  (exists seed b, seed ∈ sds /\
     buckets st !! slot (length (buckets st)) key seed = Some b /\
     count b = 1) ->
  get_loop key sds (buckets st) = Returns (Some v).
Proof.
  intros Hcons HinM. destruct Hcons as (Hn & Hcap & Hnd & Hcount & Hb).
  induction sds as [|seed rest IH]; intros Hsub Hex.
  { destruct Hex as (s & b & Hs & _). by apply elem_of_nil in Hs. }
  cbn [get_loop]. unfold hash_index.
  rewrite hash_index_of_pos by done. cbn [mbind Run_bind].
  pose proof (slot_lt (length (buckets st)) key seed Hn) as Hlt.
  destruct (lookup_lt_is_Some_2 (buckets st) _ Hlt) as [b Hlk].
  rewrite Hlk. destruct (Hb _ _ Hlk) as (Hc & Hx & Hv).
  destruct (count b =? 1) eqn:Hone.
  - apply Z.eqb_eq in Hone.
    destruct (singleton_load (dload (length (buckets st)) (seeds st) M
                (slot (length (buckets st)) key seed))) as [kv Hload];
      [lia|].
    assert ((key, v) ∈ [kv]) as Hkv.
    { rewrite <- Hload. apply elem_of_dload. split; [|done].
      apply list_elem_of_fmap. exists seed. split; [done|].
      apply Hsub. by left. }
    apply list_elem_of_singleton in Hkv. subst kv.
    rewrite Hload in Hx, Hv. simpl in Hx, Hv.
    rewrite Z.lxor_0_r in Hx, Hv. by rewrite Hx, Hv, Z.eqb_refl.
  - apply IH.
    + intros s Hs. apply Hsub. by right.
    + destruct Hex as (s & b' & Hs & Hlk' & Hc').
      apply elem_of_cons in Hs as [->|Hs].
      * rewrite Hlk in Hlk'. injection Hlk' as <-.
        apply Z.eqb_neq in Hone. done.
      * eauto.
Qed.

Lemma dict_peel_one copy Mc i b :
  consistent copy Mc ->
  buckets copy !! i = Some b ->
  count b = 1 ->
  (cumulative_key b, cumulative_value b) ∈ Mc /\
  exists copy' b',
    remove (cumulative_key b) copy = Returns (true, copy') /\
    buckets copy' !! i = Some b' /\ count b' = 0 /\
    seeds copy' = seeds copy /\
    length (buckets copy') = length (buckets copy) /\
    consistent copy' (remove_key (cumulative_key b) Mc).
Proof.
  intros Hcons Hlk Hone.
  pose proof Hcons as (Hn & _ & Hnd & _ & Hb).
  destruct (Hb _ _ Hlk) as (Hc & Hx & Hv). rewrite Hone in Hc.
  destruct (singleton_load (dload (length (buckets copy)) (seeds copy)
              Mc i)) as [[j w] Hload]; [lia|].
  rewrite Hload in Hx, Hv. simpl in Hx, Hv.
  rewrite Z.lxor_0_r in Hx, Hv. rewrite Hx, Hv.
  assert ((j, w) ∈ dload (length (buckets copy)) (seeds copy) Mc i) as Hj.
  { rewrite Hload. by left. }
  apply elem_of_dload in Hj as [Hslot HjM]. simpl in Hslot.
  apply list_elem_of_fmap in Hslot as (seed & Hi & Hseed).
  assert (get j copy = Returns (Some w)) as Hget.
  { unfold get. apply (get_loop_singleton j w copy Mc); try done.
    exists seed, b. by rewrite <- Hi. }
  destruct (dict_consistent_remove j w _ _ Hcons Hget)
    as (_ & copy' & Hrm & Hseeds & Hcons').
  split; [done|].
  pose proof (dict_remove_length _ _ _ _ Hrm) as Hlen.
  assert (i < length (buckets copy'))%nat as Hlt.
  { rewrite Hlen. by apply lookup_lt_Some in Hlk. }
  destruct (lookup_lt_is_Some_2 _ _ Hlt) as [b' Hlk'].
  exists copy', b'. split_and!; try done.
  destruct Hcons' as (_ & _ & _ & _ & Hb').
  destruct (Hb' _ _ Hlk') as [Hc' _].
  rewrite Hc', Hlen, Hseeds, dload_remove_key, Hload.
  destruct (decide _) as [_|Hno].
  - simpl. by rewrite bool_decide_eq_true_2.
  - exfalso. apply Hno. rewrite Hi.
    apply list_elem_of_fmap. eauto.
Qed.

Lemma dict_scan_consistent M0 idxs copy Mc res finished has_changed :
  consistent copy Mc ->
  res ++ Mc ≡ₚ M0 ->
  Forall (fun i => (i < length (buckets copy))%nat) idxs ->
  exists copy' Mc' res' finished' has_changed',
    scan idxs copy res finished has_changed =
      Returns (copy', res', finished', has_changed') /\
    consistent copy' Mc' /\ res' ++ Mc' ≡ₚ M0 /\
    length (buckets copy') = length (buckets copy).
Proof.
  revert copy Mc res finished has_changed.
  induction idxs as [|i idxs IH];
    intros copy Mc res finished has_changed Hcons Hperm Hidx;
    cbn [scan].
  { by exists copy, Mc, res, finished, has_changed. }
  apply Forall_cons in Hidx as [Hi Hidx].
  destruct (lookup_lt_is_Some_2 _ _ Hi) as [b Hlk]. rewrite Hlk.
  destruct (count b =? 0) eqn:Hzero; [by apply IH with Mc|].
  destruct (1 <? count b) eqn:Hmany; [by apply IH with Mc|].
  assert (count b = 1) as Hone.
  { apply Z.eqb_neq in Hzero. apply Z.ltb_ge in Hmany.
    destruct Hcons as (_ & _ & _ & _ & Hb).
    destruct (Hb _ _ Hlk) as [Hc _]. lia. }
  pose proof Hcons as (_ & _ & Hnd & _).
  destruct (dict_peel_one _ _ _ _ Hcons Hlk Hone)
    as (HinM & copy' & b' & Hrm & Hlk' & Hc' & Hseeds & Hlen & Hcons').
  rewrite Hrm. cbn [mbind Run_bind]. rewrite Hlk', Hc'.
  unfold assert_. rewrite orb_true_r. cbn [mbind Run_bind].
  destruct (IH copy' (remove_key (cumulative_key b) Mc)
              (res ++ [(cumulative_key b, cumulative_value b)])
              finished true)
    as (copy2 & Mc2 & res2 & fin2 & hc2 & Hscan & Hcons2 & Hperm2 & Hlen2);
    [done| |by rewrite Hlen|].
  { rewrite <- Hperm, <- app_assoc. simpl.
    apply Permutation_app_head. symmetry. by apply remove_key_perm. }
  exists copy2, Mc2, res2, fin2, hc2. split_and!; try done. congruence.
Qed.

Lemma dict_peel_consistent M0 fuel copy Mc res finished has_changed
    copy' res' finished' :
  consistent copy Mc ->
  res ++ Mc ≡ₚ M0 ->
  peel fuel copy res finished has_changed =
    Returns (copy', res', finished') ->
  exists Mc', consistent copy' Mc' /\ res' ++ Mc' ≡ₚ M0.
Proof.
  revert copy Mc res finished has_changed.
  induction fuel as [|fuel IH];
    intros copy Mc res finished has_changed Hcons Hperm; cbn [peel];
    destruct (negb finished && has_changed); try done;
    try (intros [= <- <- <-]; eauto).
  destruct (dict_scan_consistent M0 (seq 0 (length (buckets copy))) copy Mc res
              true false Hcons Hperm)
    as (copy2 & Mc2 & res2 & fin2 & hc2 & Hscan & Hcons2 & Hperm2 & _).
  { apply Forall_forall. intros i Hi%elem_of_seq. lia. }
  rewrite Hscan. cbn [mbind Run_bind]. by apply IH with Mc2.
Qed.

Lemma dict_listAll_consistent fuel st M res st' :
  consistent st M ->
  Z.of_nat (length M) < size_t_mod ->
  listAll fuel st = Returns (Some res, st') ->
  Z.of_nat (length res) = size st /\ res ≡ₚ M.
Proof.
  intros Hcons Hfew. unfold listAll.
  destruct (reserve (ibd_count st)); cbn [mbind Run_bind]; try done.
  destruct (peel fuel st [] false true) as [[[copy' r] fin]| | | |] eqn:Hpeel;
    cbn [mbind Run_bind]; try done.
  destruct (negb fin || negb (Z.of_nat (length r) =? ibd_count st))
    eqn:Hcheck; [done|].
  intros [= <- <-].
  apply orb_false_iff in Hcheck as [_ Hsize].
  apply negb_false_iff, Z.eqb_eq in Hsize.
  split; [done|].
  destruct (dict_peel_consistent M fuel st M [] false true _ _ _ Hcons
              (reflexivity _) Hpeel) as (Mc' & _ & Hperm).
  destruct Hcons as (_ & _ & _ & Hcount & _).
  rewrite Z.mod_small in Hcount by lia.
  pose proof (Permutation_length Hperm) as Hlen.
  rewrite length_app in Hlen.
  destruct Mc' as [|k Mc'].
  - by rewrite app_nil_r in Hperm.
  - simpl in Hlen. lia.
Qed.
End Decode.
End DictDecode.

Module DictReplay.
Import Dictionary DictSpec DictFacts DictHistory DictInv DictDecode.
Section Replay.
Context {T : Template}.

Lemma dict_replay_peak_mono ops (tr tr' : Trace IBD (Z * Z)) :
  replay ops tr = Returns tr' -> (peak tr <= peak tr')%nat.
Proof.
  revert tr. induction ops as [|[key value|key] ops IH]; intros tr; simpl.
  - by intros [= ->].
  - destruct (insert key value (state tr)) as [st'| | | |]; simpl; try done.
    intros Hr%IH. simpl in Hr. lia.
  - destruct (remove key (state tr)) as [[[] st']| | | |]; simpl; try done.
    + intros Hr%IH. simpl in Hr. lia.
    + apply IH.
Qed.

Lemma dict_replay_fresh_mono ops (tr tr' : Trace IBD (Z * Z)) :
  replay ops tr = Returns tr' -> fresh tr' = true -> fresh tr = true.
Proof.
  revert tr. induction ops as [|[key value|key] ops IH]; intros tr; simpl.
  - by intros [= ->].
  - destruct (insert key value (state tr)) as [st'| | | |]; simpl; try done.
    intros Hr Hf. specialize (IH _ Hr Hf). simpl in IH.
    by apply andb_true_iff in IH as [? _].
  - destruct (remove key (state tr)) as [[[] st']| | | |]; simpl; try done.
    + intros Hr Hf. by specialize (IH _ Hr Hf).
    + apply IH.
Qed.

Lemma dict_replay_present_peak ops (tr tr' : Trace IBD (Z * Z)) :
  replay ops tr = Returns tr' ->
  (length (present tr) <= peak tr)%nat ->
  (length (present tr') <= peak tr')%nat.
Proof.
  revert tr. induction ops as [|[key value|key] ops IH]; intros tr; simpl.
  - by intros [= ->].
  - destruct (insert key value (state tr)) as [st'| | | |]; simpl; try done.
    intros Hr Hpk. apply IH in Hr; simpl; lia.
  - destruct (remove key (state tr)) as [[[] st']| | | |]; simpl; try done.
    + intros Hr Hpk. apply IH in Hr; simpl; [done|].
      pose proof (sublist_length _ _ (remove_key_sublist key (present tr))).
      lia.
    + apply IH.
Qed.

Lemma dict_replay_consistent ops (tr tr' : Trace IBD (Z * Z)) :
  replay ops tr = Returns tr' ->
  fresh tr' = true ->
  consistent (state tr) (present tr) ->
  (length (present tr) <= peak tr)%nat ->
  Z.of_nat (peak tr') < counter_mod ->
  consistent (state tr') (present tr').
Proof.
  revert tr. induction ops as [|[key value|key] ops IH]; intros tr; simpl.
  - by intros [= ->].
  - intros Hr Hfresh Hcons Hpk Hcap.
    destruct (insert key value (state tr)) as [st'| | | |] eqn:Hins;
      simpl in Hr; try done.
    pose proof (dict_replay_peak_mono _ _ _ Hr) as Hmono. simpl in Hmono.
    pose proof (dict_replay_fresh_mono _ _ _ Hr Hfresh) as Hf. simpl in Hf.
    apply andb_true_iff in Hf as [_ Hnew].
    apply negb_true_iff, bool_decide_eq_false in Hnew.
    destruct (dict_consistent_insert key value _ _ Hcons Hnew)
      as (st'' & Hins' & Hs & Hc').
    { intros i.
      pose proof (dload_length (length (buckets (state tr)))
                    (seeds (state tr)) ((key, value) :: present tr) i)
        as Hle.
      simpl in Hle. lia. }
    rewrite Hins in Hins'. injection Hins' as <-.
    apply IH in Hr; simpl; try done. lia.
  - intros Hr Hfresh Hcons Hpk Hcap.
    destruct (get_loop_total key (seeds (state tr)) (buckets (state tr)))
      as [v Hv]; [apply Hcons|].
    destruct v as [v|].
    + destruct (dict_consistent_remove key v _ _ Hcons Hv)
        as (HinM & st' & Hrm & Hs & Hc').
      rewrite Hrm in Hr. simpl in Hr.
      apply IH in Hr; simpl; try done.
      assert (key ∈ (present tr).*1) as Hkey.
      { apply list_elem_of_fmap. by exists (key, v). }
      pose proof (remove_key_length _ _ Hkey). lia.
    + unfold remove, get in Hr. rewrite Hv in Hr. simpl in Hr.
      by apply IH in Hr.
Qed.

Lemma dict_bucket_peak_ge ops (tr : Trace IBD (Z * Z)) :
  (max_load (length (buckets (state tr))) (seeds (state tr))
     (present tr).*1 <= dict_bucket_peak ops tr)%nat.
Proof. destruct ops; simpl; lia. Qed.

(** Histories of insertions of absent keys and of removals during which
    no bucket is ever probed by [counter_mod] keys keep the dictionary
    consistent, however many keys are present. *)
Lemma dict_replay_consistent_buckets ops (tr tr' : Trace IBD (Z * Z)) :
  replay ops tr = Returns tr' ->
  fresh tr' = true ->
  consistent (state tr) (present tr) ->
  Z.of_nat (dict_bucket_peak ops tr) < counter_mod ->
  consistent (state tr') (present tr').
Proof.
  revert tr. induction ops as [|[key value|key] ops IH]; intros tr.
  - simpl. by intros [= ->].
  - intros Hr Hfresh Hcons Hcap. pose proof Hcons as (Hn & _).
    cbn [replay dict_bucket_peak] in Hr, Hcap.
    unfold insert in Hr, Hcap.
    rewrite dict_insert_loop_touched in Hr, Hcap by done.
    cbn [mbind Run_bind mret Run_ret] in Hr, Hcap.
    set (tr1 := mkTrace _ _ _ _) in Hr, Hcap.
    pose proof (dict_bucket_peak_ge ops tr1) as Hge.
    pose proof (dict_replay_fresh_mono _ _ _ Hr Hfresh) as Hf.
    subst tr1. cbn [state present buckets seeds fresh] in Hge, Hf.
    rewrite alter_all_length in Hge.
    apply andb_true_iff in Hf as [_ Hnew].
    apply negb_true_iff, bool_decide_eq_false in Hnew.
    destruct (dict_consistent_insert key value _ _ Hcons Hnew)
      as (st'' & Hins' & Hs & Hc').
    { intros i. rewrite dload_length_keys.
      pose proof (load_le_max_load (length (buckets (state tr)))
                    (seeds (state tr)) ((key, value) :: present tr).*1 i Hn).
      lia. }
    unfold insert in Hins'.
    rewrite dict_insert_loop_touched in Hins' by done.
    injection Hins' as <-.
    apply IH in Hr; [done|done|done|lia].
  - intros Hr Hfresh Hcons Hcap. cbn [replay dict_bucket_peak] in Hr, Hcap.
    destruct (get_loop_total key (seeds (state tr)) (buckets (state tr)))
      as [v Hv]; [apply Hcons|].
    destruct v as [v|].
    + destruct (dict_consistent_remove key v _ _ Hcons Hv)
        as (HinM & st' & Hrm & Hs & Hc').
      rewrite Hrm in Hr, Hcap. cbn [mbind Run_bind] in Hr, Hcap.
      apply IH in Hr; [done|done|done|lia].
    + unfold remove, get in Hr, Hcap. rewrite Hv in Hr, Hcap.
      cbn [mret Run_ret mbind Run_bind] in Hr, Hcap.
      apply IH in Hr; [done|done|done|lia].
Qed.

Lemma dict_replay_empty_directory_wrapping ops
    (tr tr' : Trace IBD (Z * Z)) :
  replay ops tr = Returns tr' ->
  buckets (state tr) = [] ->
  ibd_count (state tr) = Z.of_nat (length (present tr)) mod size_t_mod ->
  buckets (state tr') = [] /\
  ibd_count (state tr') = Z.of_nat (length (present tr')) mod size_t_mod.
Proof.
  revert tr. induction ops as [|[key value|key] ops IH]; intros tr; simpl.
  - by intros [= ->].
  - intros Hr Hbs Hcount.
    unfold insert in Hr. rewrite Hbs in Hr.
    destruct (seeds (state tr)) as [|seed rest]; [|done].
    simpl in Hr. apply IH in Hr; simpl; try done.
    rewrite Hcount, Zplus_mod_idemp_l. f_equal. lia.
  - intros Hr Hbs Hcount.
    unfold remove, get in Hr. rewrite Hbs in Hr.
    destruct (seeds (state tr)) as [|seed rest]; [|done].
    simpl in Hr. by apply IH in Hr.
Qed.

Lemma dict_replay_empty_directory ops (tr tr' : Trace IBD (Z * Z)) :
  replay ops tr = Returns tr' ->
  buckets (state tr) = [] ->
  ibd_count (state tr) = Z.of_nat (length (present tr)) ->
  (length (present tr) <= peak tr)%nat ->
  Z.of_nat (peak tr') < counter_mod ->
  buckets (state tr') = [] /\
  ibd_count (state tr') = Z.of_nat (length (present tr')).
Proof.
  pose proof counter_mod_bounds as Hcm. unfold size_t_mod in Hcm.
  revert tr. induction ops as [|[key value|key] ops IH]; intros tr; simpl.
  - by intros [= ->].
  - intros Hr Hbs Hcount Hpk Hcap.
    unfold insert in Hr. rewrite Hbs in Hr.
    destruct (seeds (state tr)) as [|seed rest]; [|done].
    simpl in Hr. pose proof (dict_replay_peak_mono _ _ _ Hr) as Hmono.
    simpl in Hmono.
    apply IH in Hr; simpl; try done; try lia.
    rewrite Hcount. unfold size_t_mod. rewrite Z.mod_small; lia.
  - intros Hr Hbs Hcount Hpk Hcap.
    unfold remove, get in Hr. rewrite Hbs in Hr.
    destruct (seeds (state tr)) as [|seed rest]; [|done].
    simpl in Hr. by apply IH in Hr.
Qed.

Lemma dict_listAll_empty_directory fuel st res st' :
  buckets st = [] ->
  listAll fuel st = Returns (Some res, st') ->
  res = [] /\ ibd_count st = 0.
Proof.
  intros Hbs. unfold listAll.
  destruct (reserve (ibd_count st)); cbn [mbind Run_bind]; try done.
  destruct fuel as [|fuel]; [done|].
  cbn [peel negb andb]. rewrite Hbs. cbn [length seq scan mbind Run_bind].
  destruct fuel; cbn [peel negb andb mbind Run_bind length];
    destruct (Z.of_nat 0 =? ibd_count st) eqn:Hz; simpl; try done;
    intros [= <- <-]; apply Z.eqb_eq in Hz; done.
Qed.

Lemma dict_decode_correct_within_capacity sds size ops
    (tr : Trace IBD (Z * Z)) fuel res st' :
  replay ops (start sds size) = Returns tr ->
  fresh tr = true ->
  Z.of_nat (dict_bucket_peak ops (start sds size)) < counter_mod ->
  Z.of_nat (length (present tr)) < size_t_mod ->
  listAll fuel (state tr) = Returns (Some res, st') ->
  Z.of_nat (length res) = Dictionary.size (state tr) /\
  res ≡ₚ present tr.
Proof.
  intros Hrun Hfresh Hcap Hfew Hlist.
  destruct (decide (size = 0%nat)) as [->|Hsize].
  - destruct (dict_replay_empty_directory_wrapping _ _ _ Hrun)
      as [Hbs Hcount]; simpl; try done.
    destruct (dict_listAll_empty_directory _ _ _ _ Hbs Hlist) as [-> Hz].
    unfold Dictionary.size. rewrite Hz. split; [done|].
    rewrite Hz, Z.mod_small in Hcount by lia. by destruct (present tr).
  - pose proof (dict_replay_consistent_buckets _ _ _ Hrun Hfresh) as Hcons.
    apply (dict_listAll_consistent fuel _ _ _ st'); [|done|done].
    apply Hcons; [by apply dict_consistent_empty|done].
Qed.
End Replay.
End DictReplay.

(** ** A key inserted twice *)

Module FilterDuplicate.
Import Filter FilterSpec FilterFacts FilterHistory FilterInv FilterRemove
  FilterLength.
Section Duplicate.
Context {T : Template}.

Lemma contains_loop_many key sds bs might :
  length bs <> 0%nat ->
  (forall seed, seed ∈ sds ->
     exists b, bs !! slot (length bs) key seed = Some b /\ 1 < count b) ->
  sds <> [] \/ might = true ->
  contains_loop key sds bs might = Returns might_exist.
Proof.
  intros Hn. revert might.
  induction sds as [|seed rest IH]; intros might Hall Hne.
  { destruct Hne as [?| ->]; done. }
  cbn [contains_loop]. unfold hash_index.
  rewrite hash_index_of_pos by done. cbn [mbind Run_bind].
  destruct (Hall seed) as (b & Hlk & Hc); [by left|]. rewrite Hlk.
  destruct (count b =? 1) eqn:Hone; [apply Z.eqb_eq in Hone; lia|].
  apply IH.
  - intros s Hs. apply Hall. by right.
  - right. apply orb_true_iff. right. by apply Z.ltb_lt.
Qed.

Lemma scan_no_single idxs copy res finished has_changed :
  (forall i, i ∈ idxs ->
     exists b, buckets copy !! i = Some b /\ (count b = 0 \/ 1 < count b)) ->
  exists finished',
    scan idxs copy res finished has_changed =
      Returns (copy, res, finished', has_changed).
Proof.
  revert finished. induction idxs as [|i idxs IH]; intros finished Hall;
    cbn [scan]; [eauto|].
  destruct (Hall i) as (b & Hlk & Hc); [by left|]. rewrite Hlk.
  assert (forall j, j ∈ idxs ->
            exists b, buckets copy !! j = Some b /\
                      (count b = 0 \/ 1 < count b)) as Hrest.
  { intros j Hj. apply Hall. by right. }
  destruct (count b =? 0) eqn:Hzero; [by apply IH|].
  destruct (1 <? count b) eqn:Hmany; [by apply IH|].
  apply Z.eqb_neq in Hzero. apply Z.ltb_ge in Hmany. lia.
Qed.

Lemma insert_twice sds size key :
  size <> 0%nat -> sds <> [] ->
  exists st1 st2,
    insert key (empty sds size) = Returns st1 /\
    insert key st1 = Returns st2 /\
    Filter.size st2 = 2 /\
    contains key st2 = Returns might_exist /\
    remove key st2 = Returns (false, st2) /\
    (forall fuel,
       listAll (S fuel) st2 =
         if 2 <=? Z.of_N max_reserve then Returns (None, st2) else Throws) /\
    (forall seed, seed ∈ sds ->
       exists b, buckets st2 !! slot size key seed = Some b /\
                 count b = 2 /\ cumulative_key b = 0).
Proof.
  intros Hsize Hsds.
  pose proof counter_mod_bounds as Hcm.
  destruct (consistent_insert key _ _ (consistent_empty sds size Hsize))
    as (st1 & Hins1 & Hseeds1 & Hcons1).
  { intros i. rewrite load_cons. destruct (decide _); simpl; lia. }
  destruct (consistent_insert key _ _ Hcons1)
    as (st2 & Hins2 & Hseeds2 & Hcons2).
  { intros i. rewrite !load_cons. destruct (decide _); simpl; lia. }
  simpl in Hseeds1. rewrite Hseeds1 in Hseeds2.
  exists st1, st2. split; [done|]. split; [done|].
  assert (length (buckets st2) = size) as Hlen.
  { unfold insert in Hins1, Hins2.
    destruct (insert_loop key (seeds (empty sds size)) _ _)
      as [bs1| | | |] eqn:Hl1; simpl in Hins1; try done.
    injection Hins1 as <-. simpl in Hins2.
    destruct (insert_loop key sds [] bs1) as [bs2| | | |] eqn:Hl2;
      simpl in Hins2; try done.
    injection Hins2 as <-. simpl.
    apply insert_loop_length in Hl1, Hl2. simpl in Hl1.
    rewrite length_replicate in Hl1. congruence. }
  destruct Hcons2 as (Hn & _ & Hcount & Hb).
  change (Z.of_nat (length [key; key]) mod size_t_mod) with 2 in Hcount.
  assert (forall i b, buckets st2 !! i = Some b ->
            ((i ∈ slots size key sds) /\ count b = 2 /\
             cumulative_key b = 0)
            \/ ((i ∉ slots size key sds) /\ count b = 0)) as Hshape.
  { intros i b Hlk. destruct (Hb _ _ Hlk) as [Hc Hx].
    rewrite Hlen, Hseeds2 in Hc, Hx.
    rewrite !load_cons in Hc, Hx.
    destruct (decide (i ∈ slots size key sds)); [left|right].
    - simpl in Hc, Hx. rewrite Z.lxor_0_r, Z.lxor_nilpotent in Hx. done.
    - done. }
  assert (forall seed, seed ∈ sds ->
            exists b, buckets st2 !! slot size key seed = Some b /\
                      count b = 2 /\ cumulative_key b = 0) as Hprobe.
  { intros seed Hseed.
    assert (slot size key seed < length (buckets st2))%nat as Hlt
      by (rewrite Hlen; by apply slot_lt).
    destruct (lookup_lt_is_Some_2 _ _ Hlt) as [b Hlk].
    exists b. split; [done|].
    destruct (Hshape _ _ Hlk) as [(_ & ? & ?)|[Hno _]]; [done|].
    exfalso. apply Hno. apply list_elem_of_fmap. eauto. }
  assert (contains key st2 = Returns might_exist) as Hcont.
  { unfold contains. apply contains_loop_many; [done| |left; congruence].
    rewrite Hseeds2, Hlen. intros seed Hseed.
    destruct (Hprobe seed Hseed) as (b & ? & ? & ?). exists b.
    split; [done|lia]. }
  split_and!; try done.
  - unfold remove. rewrite Hcont. done.
  - intros fuel. unfold listAll, reserve. rewrite Hcount.
    destruct (2 <=? Z.of_N max_reserve); [|done].
    cbn [mbind Run_bind peel negb andb].
    destruct (scan_no_single (seq 0 (length (buckets st2))) st2 [] true
                false) as [fin Hscan].
    { intros i Hi%elem_of_seq.
      assert (i < length (buckets st2))%nat as Hlt by lia.
      destruct (lookup_lt_is_Some_2 _ _ Hlt) as [b Hlk].
      exists b. split; [done|].
      destruct (Hshape _ _ Hlk) as [(_ & ? & _)|[_ ?]]; [right; lia|by left]. }
    rewrite Hscan. cbn [mbind Run_bind].
    assert (peel fuel st2 [] fin false = Returns (st2, [], fin)) as ->.
    { destruct fuel; cbn [peel]; by rewrite andb_false_r. }
    cbn [mbind Run_bind]. simpl.
    by rewrite orb_true_r.
Qed.
End Duplicate.
End FilterDuplicate.

(** ** Round trip in the key-value variant *)

Module DictRoundTrip.
Import Dictionary DictSpec DictFacts DictHistory DictInv DictDecode.
Section RoundTrip.
Context {T : Template}.

Lemma dict_consistent_nil_empty st :
  consistent st [] -> st = empty (seeds st) (length (buckets st)).
Proof.
  intros (Hn & _ & _ & Hcount & Hb). destruct st as [sds bs c].
  unfold empty. simpl in *. f_equal; [|done].
  apply list_eq. intros i.
  destruct (bs !! i) as [[ck cv cc]|] eqn:Hlk.
  - destruct (Hb _ _ Hlk) as (Hc & Hx & Hv). simpl in *. subst.
    symmetry. apply lookup_replicate. split; [done|].
    by apply lookup_lt_Some in Hlk.
  - symmetry. apply lookup_ge_None. rewrite length_replicate.
    by apply lookup_ge_None in Hlk.
Qed.

Lemma dict_insert_remove_empty sds size key value :
  size <> 0%nat -> sds <> [] ->
  exists st1, insert key value (empty sds size) = Returns st1 /\
              get key st1 = Returns (Some value) /\
              remove key st1 = Returns (true, empty sds size).
Proof.
  intros Hsize Hsds.
  pose proof counter_mod_bounds as Hcm.
  destruct (dict_consistent_insert key value _ _
              (dict_consistent_empty sds size Hsize))
    as (st1 & Hins & Hseeds & Hcons); [apply not_elem_of_nil| |].
  { intros i. rewrite dload_cons. destruct (decide _); simpl; lia. }
  simpl in Hseeds.
  exists st1. split; [done|].
  assert (length (buckets st1) = size) as Hlen.
  { unfold insert in Hins.
    destruct (insert_loop _ _ _ _ _) as [bs| | | |] eqn:Hl; simpl in Hins;
      try done.
    injection Hins as <-. simpl. apply dict_insert_loop_length in Hl.
    simpl in Hl. by rewrite length_replicate in Hl. }
  assert (get key st1 = Returns (Some value)) as Hget.
  { unfold get.
    apply (get_loop_singleton key value st1 [(key, value)]);
      [done|by left|done|].
    destruct sds as [|seed rest]; [done|].
    destruct Hcons as (Hn & _ & _ & _ & Hb).
    pose proof (slot_lt (length (buckets st1)) key seed Hn) as Hlt.
    destruct (lookup_lt_is_Some_2 (buckets st1) _ Hlt) as [b Hlk].
    exists seed, b. rewrite Hseeds. split; [by left|]. split; [done|].
    destruct (Hb _ _ Hlk) as [Hc _]. rewrite Hc, dload_cons.
    destruct (decide _) as [_|Hno]; [done|].
    exfalso. apply Hno. unfold slots. rewrite Hseeds. simpl.
    by left. }
  split; [done|].
  destruct (dict_consistent_remove key value _ _ Hcons Hget)
    as (_ & st' & Hrm & Hseeds' & Hcons').
  simpl in Hcons'. rewrite bool_decide_eq_true_2 in Hcons' by done.
  rewrite Hrm. do 2 f_equal.
  rewrite (dict_consistent_nil_empty st' Hcons').
  apply dict_remove_length in Hrm. by rewrite Hseeds', Hseeds, Hrm, Hlen.
Qed.
End RoundTrip.
End DictRoundTrip.

(** * The remaining properties *)

Section BothVariants.
Context {T : Template}.

(** C3, as amended (decode correctness as long as no counter wraps):
    after any history of insertions of keys that were absent when
    inserted and of removals, during which no bucket was ever probed by
    [2 ^ bits BucketCounter] or more of the keys present, and which ends
    with fewer than [2 ^ 64] keys present, a result returned by [listAll]
    has exactly [size()] entries and is, up to order, the list of the
    keys inserted and not yet removed; in the dictionary variant, of the
    pairs of those keys and their values. *)
Theorem decode_correct_within_capacity
    (sds : list Z) (size : nat) (fuel : nat)
    (ops : list Op) (tr : Trace Filter.IBF Z)
    (res : list Z) (st' : Filter.IBF)
    (dops : list DOp) (dtr : Trace Dictionary.IBD (Z * Z))
    (dres : list (Z * Z)) (dst' : Dictionary.IBD) :
  (FilterHistory.replay ops (FilterHistory.start sds size) = Returns tr ->
   fresh tr = true ->
   Z.of_nat (bucket_peak ops (FilterHistory.start sds size)) < counter_mod ->
   Z.of_nat (length (present tr)) < size_t_mod ->
   Filter.listAll fuel (state tr) = Returns (Some res, st') ->
   Z.of_nat (length res) = Filter.size (state tr) /\ res ≡ₚ present tr)
  /\
  (DictHistory.replay dops (DictHistory.start sds size) = Returns dtr ->
   fresh dtr = true ->
   Z.of_nat (dict_bucket_peak dops (DictHistory.start sds size))
     < counter_mod ->
   Z.of_nat (length (present dtr)) < size_t_mod ->
   Dictionary.listAll fuel (state dtr) = Returns (Some dres, dst') ->
   Z.of_nat (length dres) = Dictionary.size (state dtr) /\
   dres ≡ₚ present dtr).
Proof.
  split.
  - apply FilterDecode.filter_decode_correct_within_capacity.
  - apply DictReplay.dict_decode_correct_within_capacity.
Qed.

(** C4 (remove atomicity on failure): on a directory of non-zero size,
    [remove] returns false exactly when [contains] does not answer
    [exists] (when [get] finds no value, in the dictionary variant), and
    a call that returns false leaves the whole instance as it was. *)
Theorem remove_failure_leaves_state
    (st : Filter.IBF) (d : Dictionary.IBD) (key : Z) :
  Filter.directory_size st <> 0%nat ->
  Dictionary.directory_size d <> 0%nat ->
  (exists c, Filter.contains key st = Returns c /\
     (c <> exists_ -> Filter.remove key st = Returns (false, st)) /\
     (forall removed st', Filter.remove key st = Returns (removed, st') ->
        (removed = false <-> c <> exists_) /\
        (removed = false -> st' = st)))
  /\
  (exists v, Dictionary.get key d = Returns v /\
     (v = None -> Dictionary.remove key d = Returns (false, d)) /\
     (forall removed d', Dictionary.remove key d = Returns (removed, d') ->
        (removed = false <-> v = None) /\
        (removed = false -> d' = d))).
Proof.
  intros Hst Hd. split.
  - by apply FilterRemove.remove_failure_atomic.
  - by apply DictFacts.dict_remove_failure_atomic.
Qed.

(** C7, as amended (insert/remove round trip with at least one seed): a
    key (with a value, in the dictionary variant) inserted into an empty
    instance of non-zero directory size with at least one seed is
    provably present, and removing it at once returns true and gives
    back the empty instance: every bucket and the global count are as
    before the insertion. *)
Theorem insert_remove_round_trip
    (sds : list Z) (size : nat) (key value : Z) :
  size <> 0%nat ->
  sds <> [] ->
  (exists st1,
     Filter.insert key (FilterHistory.empty sds size) = Returns st1 /\
     Filter.contains key st1 = Returns exists_ /\
     Filter.remove key st1 = Returns (true, FilterHistory.empty sds size))
  /\
  (exists d1,
     Dictionary.insert key value (DictHistory.empty sds size) = Returns d1 /\
     Dictionary.get key d1 = Returns (Some value) /\
     Dictionary.remove key d1 = Returns (true, DictHistory.empty sds size)).
Proof.
  intros Hsize Hsds. split.
  - by apply FilterRemove.insert_remove_empty.
  - by apply DictRoundTrip.dict_insert_remove_empty.
Qed.

(** C8 (decode frame): whatever [listAll] returns, the instance it was
    called on is the same afterwards, in both variants. *)
Theorem listAll_leaves_instance
    (fuel : nat) (st st' : Filter.IBF) (r : option (list Z))
    (d d' : Dictionary.IBD) (dr : option (list (Z * Z))) :
  (Filter.listAll fuel st = Returns (r, st') -> st' = st) /\
  (Dictionary.listAll fuel d = Returns (dr, d') -> d' = d).
Proof.
  split.
  - unfold Filter.listAll.
    destruct (reserve (Filter.ibf_count st)); cbn [mbind Run_bind];
      try done.
    destruct (Filter.peel fuel st [] false true)
      as [[[copy' res] fin]| | | |]; simpl; try done.
    destruct (negb fin || _); by intros [= _ <-].
  - apply DictFacts.listAll_frame.
Qed.

(** C9, as amended (decode termination): on every instance whose counts
    are values of their types and that has fewer than
    [2 ^ bits BucketCounter] seeds, [listAll] with fuel beyond the
    potential of the buckets terminates: it throws from [reserve] when
    the global count is more than the result set can reserve, and
    otherwise returns, leaving the instance as it was, or stops at a
    failed assertion when assertions are compiled in; and a full scan
    after which the loop goes on has lowered the potential, and has
    lowered the global count of the working copy if that count was at
    least the directory size. *)
Theorem decode_terminates (st : Filter.IBF) (fuel : nat) :
  FilterSpec.well_typed st ->
  Z.of_nat (length (Filter.seeds st)) < counter_mod ->
  (Z.to_nat (FilterSpec.potential (Filter.buckets st)) < fuel)%nat ->
  (if Filter.ibf_count st <=? Z.of_N max_reserve
   then (ndebug = false /\ Filter.listAll fuel st = AssertFailed) \/
        exists r, Filter.listAll fuel st = Returns (r, st)
   else Filter.listAll fuel st = Throws)
  /\
  (forall res copy' res' finished' has_changed',
     Filter.scan (seq 0 (Filter.directory_size st)) st res true false
       = Returns (copy', res', finished', has_changed') ->
     negb finished' && has_changed' = true ->
     FilterSpec.potential (Filter.buckets copy')
       < FilterSpec.potential (Filter.buckets st) /\
     (Z.of_nat (Filter.directory_size st) <= Filter.ibf_count st ->
      Filter.ibf_count copy' < Filter.ibf_count st)).
Proof.
  intros Hwt HK Hfuel. split.
  - unfold Filter.listAll, reserve.
    destruct (Filter.ibf_count st <=? Z.of_N max_reserve); [|done].
    cbn [mbind Run_bind].
    destruct (FilterTermination.peel_terminates fuel st [] false true
                Hwt HK Hfuel) as [[Hnd ->]|(c' & r' & f' & ->)].
    + by left.
    + right. cbn [mbind Run_bind]. destruct (negb f' || _); eauto.
  - intros res copy' res' fin' hc' Hscan Hgo.
    destruct (FilterTermination.scan_measure
                (seq 0 (Filter.directory_size st)) st res true false Hwt HK)
      as [[_ Hs]|(c & r0 & f & h & r & Hs & _ & _ & _ & _ & Hr & Hcnt & Hh)].
    { apply Forall_forall. intros i Hi%elem_of_seq.
      unfold Filter.directory_size in Hi. lia. }
    { congruence. }
    rewrite Hscan in Hs. injection Hs as <- <- <- <-.
    apply andb_true_iff in Hgo as [_ ->].
    destruct (Hh eq_refl) as [?|[Hlt Hr1]]; [done|].
    split; [done|]. intros Hbig.
    rewrite length_seq in Hr. destruct Hwt as [_ Hrange].
    rewrite Hcnt, Z.mod_small; lia.
Qed.

(** C10, as amended (a key inserted twice, with at least one seed):
    after two insertions of one key into an empty instance of non-zero
    directory size with at least one seed, [size()] is 2, every bucket
    probed for the key has count 2 and [cumulative_key] 0, [contains]
    answers [might_exist], [remove] returns false and changes nothing,
    and [listAll] returns no result (it throws instead on a platform
    whose sets cannot reserve two elements). *)
Theorem duplicate_insert_undecidable
    (sds : list Z) (size : nat) (key : Z) :
  size <> 0%nat ->
  sds <> [] ->
  exists st1 st2,
    Filter.insert key (FilterHistory.empty sds size) = Returns st1 /\
    Filter.insert key st1 = Returns st2 /\
    Filter.size st2 = 2 /\
    Filter.contains key st2 = Returns might_exist /\
    Filter.remove key st2 = Returns (false, st2) /\
    (forall fuel,
       Filter.listAll (S fuel) st2 =
         if 2 <=? Z.of_N max_reserve then Returns (None, st2) else Throws) /\
    (forall seed, seed ∈ sds ->
       exists b, Filter.buckets st2 !! slot size key seed = Some b /\
                 Filter.count b = 2 /\ Filter.cumulative_key b = 0).
Proof. apply FilterDuplicate.insert_twice. Qed.
End BothVariants.

(** ** The properties at the scenarios of the test-suite *)

Lemma decode_correct_within_capacity_witness :
  (Z.of_nat (length [84]) = Filter.size (state trace_small) /\
   [84] ≡ₚ present trace_small) /\
  (Z.of_nat (length [(84, 85)]) = Dictionary.size (state dtrace_small) /\
   [(84, 85)] ≡ₚ present dtrace_small).
Proof.
  split.
  - apply (proj1 (@decode_correct_within_capacity Tests some_seeds 10 5
                    ops_small trace_small [84] (state trace_small)
                    dops_small dtrace_small [(84, 85)] (state dtrace_small)));
      vm_compute; reflexivity.
  - apply (proj2 (@decode_correct_within_capacity Tests some_seeds 10 5
                    ops_small trace_small [84] (state trace_small)
                    dops_small dtrace_small [(84, 85)] (state dtrace_small)));
      vm_compute; reflexivity.
Defined.

Lemma remove_failure_leaves_state_witness :
  (exists c, Filter.contains (T:=Tests) 1337 (state trace_small) = Returns c /\
     (c <> exists_ ->
      Filter.remove (T:=Tests) 1337 (state trace_small)
        = Returns (false, state trace_small)) /\
     (forall removed st',
        Filter.remove (T:=Tests) 1337 (state trace_small)
          = Returns (removed, st') ->
        (removed = false <-> c <> exists_) /\
        (removed = false -> st' = state trace_small)))
  /\
  (exists v, Dictionary.get (T:=Tests) 1337 (state dtrace_small) = Returns v /\
     (v = None ->
      Dictionary.remove (T:=Tests) 1337 (state dtrace_small)
        = Returns (false, state dtrace_small)) /\
     (forall removed d',
        Dictionary.remove (T:=Tests) 1337 (state dtrace_small)
          = Returns (removed, d') ->
        (removed = false <-> v = None) /\
        (removed = false -> d' = state dtrace_small))).
Proof.
  apply (@remove_failure_leaves_state Tests (state trace_small)
           (state dtrace_small) 1337).
  - vm_compute. discriminate.
  - vm_compute. discriminate.
Defined.

Lemma insert_remove_round_trip_witness :
  (exists st1,
     Filter.insert (T:=Tests) 1337 (FilterHistory.empty some_seeds 10)
       = Returns st1 /\
     Filter.contains (T:=Tests) 1337 st1 = Returns exists_ /\
     Filter.remove (T:=Tests) 1337 st1
       = Returns (true, FilterHistory.empty some_seeds 10))
  /\
  (exists d1,
     Dictionary.insert (T:=Tests) 1337 42 (DictHistory.empty some_seeds 10)
       = Returns d1 /\
     Dictionary.get (T:=Tests) 1337 d1 = Returns (Some 42) /\
     Dictionary.remove (T:=Tests) 1337 d1
       = Returns (true, DictHistory.empty some_seeds 10)).
Proof.
  apply (@insert_remove_round_trip Tests some_seeds 10 1337 42).
  - lia.
  - discriminate.
Defined.

Lemma listAll_leaves_instance_witness :
  (Filter.listAll (T:=Tests) 5 (state trace_small)
     = Returns (Some [84], state trace_small) /\
   state trace_small = state trace_small) /\
  (Dictionary.listAll (T:=Tests) 5 (state dtrace_small)
     = Returns (Some [(84, 85)], state dtrace_small) /\
   state dtrace_small = state dtrace_small).
Proof.
  split; (split; [vm_compute; reflexivity|]).
  - apply (proj1 (@listAll_leaves_instance Tests 5 (state trace_small)
                    (state trace_small) (Some [84])
                    (state dtrace_small) (state dtrace_small)
                    (Some [(84, 85)]))).
    vm_compute. reflexivity.
  - apply (proj2 (@listAll_leaves_instance Tests 5 (state trace_small)
                    (state trace_small) (Some [84])
                    (state dtrace_small) (state dtrace_small)
                    (Some [(84, 85)]))).
    vm_compute. reflexivity.
Defined.

Lemma decode_terminates_witness :
  ((@ndebug Narrow = false /\
    Filter.listAll (T:=Narrow) 507 overcounted = AssertFailed) \/
   exists r, Filter.listAll (T:=Narrow) 507 overcounted
             = Returns (r, overcounted))
  /\
  exists copy' res',
    Filter.scan (T:=Narrow) (seq 0 (Filter.directory_size overcounted))
      overcounted [] true false = Returns (copy', res', false, true) /\
    FilterSpec.potential (T:=Narrow) (Filter.buckets copy')
      < FilterSpec.potential (T:=Narrow) (Filter.buckets overcounted) /\
    Filter.ibf_count copy' < Filter.ibf_count overcounted.
Proof.
  assert (FilterSpec.well_typed (T:=Narrow) overcounted) as Hwt.
  { split.
    - apply (bool_decide_unpack _). vm_compute. exact I.
    - vm_compute. split; [discriminate|reflexivity]. }
  assert (Z.of_nat (length (Filter.seeds overcounted))
          < counter_mod (T:=Narrow)) as HK by (vm_compute; reflexivity).
  assert (Z.to_nat (FilterSpec.potential (T:=Narrow)
                      (Filter.buckets overcounted)) < 507)%nat as Hfuel
    by (vm_compute; lia).
  destruct (@decode_terminates Narrow overcounted 507 Hwt HK Hfuel)
    as [Hout Hscan].
  split; [exact Hout|].
  eexists. eexists. split; [vm_compute; reflexivity|].
  edestruct (Hscan []) as [Hpot Hcount];
    [vm_compute; reflexivity|reflexivity|].
  split; [exact Hpot|]. apply Hcount. vm_compute. discriminate.
Defined.

Lemma duplicate_insert_undecidable_witness :
  exists st1 st2,
    Filter.insert (T:=Tests) 7 (FilterHistory.empty some_seeds 10)
      = Returns st1 /\
    Filter.insert (T:=Tests) 7 st1 = Returns st2 /\
    Filter.size st2 = 2 /\
    Filter.contains (T:=Tests) 7 st2 = Returns might_exist /\
    Filter.remove (T:=Tests) 7 st2 = Returns (false, st2) /\
    (forall fuel,
       Filter.listAll (T:=Tests) (S fuel) st2 = Returns (None, st2)) /\
    (forall seed, seed ∈ some_seeds ->
       exists b, Filter.buckets st2 !! slot (T:=Tests) 10 7 seed = Some b /\
                 Filter.count b = 2 /\ Filter.cumulative_key b = 0).
Proof.
  apply (@duplicate_insert_undecidable Tests some_seeds 10 7).
  - lia.
  - discriminate.
Defined.

(** ** Insertions into an instance with no seed

    With [K = 0] no bucket is probed: an insertion only adds one to the
    global count, whatever the number of keys present. *)

Module NoSeed.
Import Filter FilterHistory.
Section NoSeed.
Context {T : Template}.

Lemma max_load_no_seed size M : max_load size [] M = 0%nat.
Proof.
  unfold max_load.
  assert (forall l : list nat, Forall (fun x => x = 0%nat) l ->
                               max_list l = 0%nat) as Hmax.
  { intros l Hl. induction Hl; simpl; lia. }
  apply Hmax, Forall_fmap, Forall_forall. intros i _. simpl.
  unfold load. induction M as [|k M IH]; [done|].
  rewrite filter_cons_False; [done|]. unfold slots. simpl.
  apply not_elem_of_nil.
Qed.

Lemma replay_inserts_no_seed (l : list Z) (tr : Trace IBF Z) :
  seeds (state tr) = [] ->
  0 <= ibf_count (state tr) < size_t_mod ->
  exists tr',
    replay (map Insert l) tr = Returns tr' /\
    seeds (state tr') = [] /\
    buckets (state tr') = buckets (state tr) /\
    ibf_count (state tr')
      = (ibf_count (state tr) + Z.of_nat (length l)) mod size_t_mod /\
    length (present tr') = (length l + length (present tr))%nat /\
    (forall k, k ∈ l -> k ∈ present tr') /\
    (forall k, k ∈ present tr -> k ∈ present tr') /\
    (NoDup l -> (forall k, k ∈ l -> k ∉ present tr) ->
     fresh tr' = fresh tr) /\
    bucket_peak (map Insert l) tr = 0%nat.
Proof.
  revert tr. induction l as [|key l IH]; intros tr Hsds Hrange.
  - exists tr. simpl. rewrite Hsds, max_load_no_seed.
    split_and!; try done.
    + by rewrite Z.add_0_r, Z.mod_small.
    + intros k Hk. by apply elem_of_nil in Hk.
  - simpl. unfold insert at 1 2. rewrite Hsds. simpl.
    destruct (IH (mkTrace
                    (mkIBF [] (buckets (state tr))
                       ((ibf_count (state tr) + 1) mod size_t_mod))
                    (key :: present tr)
                    (Nat.max (peak tr) (S (length (present tr))))
                    (fresh tr && negb (bool_decide (key ∈ present tr)))))
      as (tr' & Hrun & Hs & Hb & Hc & Hlen & Hin & Hold & Hfresh & Hpk);
      [done|by apply Z.mod_pos_bound|].
    simpl in *. exists tr'. rewrite Hpk, max_load_no_seed.
    split_and!; try done.
    + rewrite Hc, Zplus_mod_idemp_l. f_equal. lia.
    + lia.
    + intros k [->|Hk]%elem_of_cons; [apply Hold; left|by apply Hin].
    + intros k Hk. apply Hold. by right.
    + intros [Hnew Hnd]%NoDup_cons Hout. rewrite Hfresh.
      * rewrite bool_decide_eq_false_2; [by rewrite andb_true_r|].
        apply Hout. left.
      * done.
      * intros k Hk [->|Hk']%elem_of_cons; [done|].
        apply (Hout k); [by right|done].
Qed.
End NoSeed.
End NoSeed.

(** C3 fails as stated, in two ways.  With 8-bit bucket counters and
    assertions compiled out, 257 distinct keys that share bucket 197 are
    inserted; its count wraps to 1; [listAll] then returns 257 keys, among
    them the XOR of all of them, which was never inserted, and not
    [hidden_key], which was.  And on an instance with no seed, [K = 0],
    where no bucket is ever probed, [2 ^ 64] distinct keys are inserted;
    the global count wraps to 0, and [listAll] returns the empty set
    although key 1 is present. *)
Lemma decode_wrong_after_overflow :
  (exists tr res st',
     FilterHistory.replay (T:=NarrowRelease) ops_crowd
       (FilterHistory.start some_seeds 999) = Returns tr /\
     fresh tr = true /\
     Filter.listAll (T:=NarrowRelease) 5 (state tr)
       = Returns (Some res, st') /\
     Z.of_nat (length res) = Filter.size (state tr) /\
     (hidden_key ∈ present tr) /\ (hidden_key ∉ res) /\
     (phantom_key ∈ res) /\ (phantom_key ∉ present tr))
  /\
  (exists tr,
     FilterHistory.replay (T:=Seedless) ops_flood
       (FilterHistory.start [] 10) = Returns tr /\
     fresh tr = true /\
     bucket_peak (T:=Seedless) ops_flood (FilterHistory.start [] 10)
       = 0%nat /\
     Z.of_nat (length (present tr)) = size_t_mod /\
     Filter.size (state tr) = 0 /\
     (forall fuel,
        Filter.listAll (T:=Seedless) (S fuel) (state tr)
          = Returns (Some [], state tr)) /\
     1 ∈ present tr).
Proof.
  split.
  { eexists. eexists. eexists.
    split; [vm_compute; reflexivity|].
    split; [reflexivity|].
    split; [vm_compute; reflexivity|].
    split; [reflexivity|].
    split_and!; apply (bool_decide_unpack _); vm_compute; exact I. }
  unfold ops_flood.
  assert (exists n, Z.to_nat size_t_mod = S n /\ Z.of_nat (S n) = size_t_mod)
    as (n & -> & Hn).
  { exists (Z.to_nat (size_t_mod - 1)). unfold size_t_mod. split; lia. }
  destruct (NoSeed.replay_inserts_no_seed (T:=Seedless) (keys_upto (S n))
              (FilterHistory.start [] 10) eq_refl)
    as (tr & Hrun & Hs & Hb & Hc & Hlen & Hin & _ & Hfresh & Hpk);
    [done|].
  assert (length (keys_upto (S n)) = S n) as Hl.
  { unfold keys_upto. by rewrite length_map, length_seq. }
  rewrite Hl in Hc, Hlen.
  change (Filter.ibf_count (state (FilterHistory.start [] 10)))
    with 0 in Hc.
  rewrite Z.add_0_l, Hn, Z.mod_same in Hc by done.
  change (length (present (FilterHistory.start [] 10))) with 0%nat in Hlen.
  exists tr. split_and!.
  - exact Hrun.
  - rewrite Hfresh; [done| |].
    + unfold keys_upto. apply NoDup_fmap_2; [|apply NoDup_seq].
      intros i j. lia.
    + intros k _. cbn. apply not_elem_of_nil.
  - exact Hpk.
  - rewrite Hlen, Nat.add_0_r. exact Hn.
  - exact Hc.
  - intros fuel. destruct (state tr) as [sds bs c]. simpl in Hs, Hb, Hc.
    subst sds bs c. destruct fuel; vm_compute; reflexivity.
  - apply Hin. unfold keys_upto. apply list_elem_of_fmap.
    exists 0%nat. split; [done|]. apply elem_of_seq. lia.
Qed.

(** C7 fails as stated: the instance that the constructor builds for
    [K = 0] has no seed and probes no bucket; a key inserted into it is
    only counted, and [remove] of that key at once returns false and
    leaves the count at 1.  The same in the dictionary variant. *)
Lemma round_trip_fails_without_seed :
  (Filter.new (T:=Seedless) 1 10 Z.of_nat
     = Returns (FilterHistory.empty [] 10) /\
   exists st1,
     Filter.insert (T:=Seedless) 1337 (FilterHistory.empty [] 10)
       = Returns st1 /\
     Filter.remove (T:=Seedless) 1337 st1 = Returns (false, st1) /\
     Filter.size st1 = 1)
  /\
  (Dictionary.new (T:=Seedless) 1 10 Z.of_nat
     = Returns (DictHistory.empty [] 10) /\
   exists d1,
     Dictionary.insert (T:=Seedless) 1337 42 (DictHistory.empty [] 10)
       = Returns d1 /\
     Dictionary.remove (T:=Seedless) 1337 d1 = Returns (false, d1) /\
     Dictionary.size d1 = 1).
Proof.
  split; (split; [reflexivity|]); eexists;
    (split; [reflexivity|]); split; reflexivity.
Qed.

(** C10 fails as stated: in the instance that the constructor builds for
    [K = 0] a key inserted twice is counted twice and probes no bucket;
    [contains] answers [not_found] for it, not [might_exist]. *)
Lemma duplicate_insert_unseen_without_seed :
  Filter.new (T:=Seedless) 1 10 Z.of_nat
    = Returns (FilterHistory.empty [] 10) /\
  exists st1 st2,
    Filter.insert (T:=Seedless) 7 (FilterHistory.empty [] 10)
      = Returns st1 /\
    Filter.insert (T:=Seedless) 7 st1 = Returns st2 /\
    Filter.size st2 = 2 /\
    Filter.contains (T:=Seedless) 7 st2 = Returns not_found.
Proof.
  split; [reflexivity|]. eexists. eexists.
  split; [reflexivity|]. split; [reflexivity|]. split; reflexivity.
Qed.

(** C9 fails as stated: with 256 seeds, 8-bit bucket counters and NDEBUG,
    [listAll] on the well-typed instance [cycling] runs out of every amount
    of fuel, each scan leaving the buckets as it found them; on the
    well-typed instance [uncounted] a scan after which the loop goes on
    wraps the count of the working copy from 0 up to [2 ^ 64 - 1]; and
    on the well-typed instance [overfull], wherever a set cannot reserve
    [2 ^ 64 - 1] elements, [listAll] throws before it reads a bucket. *)
Lemma decode_can_run_forever :
  (FilterSpec.well_typed (T:=Wide) cycling /\
   forall fuel, Filter.listAll (T:=Wide) fuel cycling = OutOfFuel) /\
  (FilterSpec.well_typed (T:=Tests) uncounted /\
   exists copy' res',
     Filter.scan (T:=Tests) (seq 0 (Filter.directory_size uncounted))
       uncounted [] true false = Returns (copy', res', false, true) /\
     Filter.ibf_count uncounted < Filter.ibf_count copy') /\
  (FilterSpec.well_typed (T:=Tests) overfull /\
   forall (T : Template) fuel,
     Z.of_N (@max_reserve T) < 2 ^ 64 - 1 ->
     Filter.listAll (T:=T) fuel overfull = Throws).
Proof.
  split; [|split; [exact uncounted_scan_wraps|]].
  2: { split.
       - split.
         + apply (bool_decide_unpack _). vm_compute. exact I.
         + vm_compute. split; [discriminate|reflexivity].
       - intros T fuel Hmax. unfold Filter.listAll, reserve.
         change (Filter.ibf_count overfull) with (2 ^ 64 - 1).
         by rewrite (proj2 (Z.leb_gt _ _) Hmax). }
  split.
  - split.
    + apply (bool_decide_unpack _). vm_compute. exact I.
    + vm_compute. split; [discriminate|reflexivity].
  - intros fuel. unfold Filter.listAll.
    change (reserve (T:=Wide) (Filter.ibf_count cycling))
      with (Returns (A:=unit) tt).
    cbn [mbind Run_bind]. by rewrite (peel_cycles fuel cycling []).
Qed.

(** * Further properties of the operations *)

(** ** What the constructor returns *)

Section ConstructorOutcome.
Context {T : Template}.

Lemma already_exists_decides (accepted : list Z) (rand_seed : Z) acc :
  fold_left (fun acc s => acc || (s =? rand_seed)) accepted acc =
    acc || bool_decide (rand_seed ∈ accepted).
Proof.
  revert acc. induction accepted as [|s l IH]; intros acc; simpl.
  - by rewrite orb_false_r.
  - rewrite IH. destruct acc; simpl; [done|].
    destruct (s =? rand_seed) eqn:Heq; simpl.
    + apply Z.eqb_eq in Heq. subst.
      symmetry. apply bool_decide_eq_true. by left.
    + apply Z.eqb_neq in Heq.
      apply bool_decide_ext. rewrite elem_of_cons. naive_solver.
Qed.

Lemma draw_seed_outcome fuel rng pos accepted :
  draw_seed (S fuel) rng pos accepted false =
    if bool_decide (rng pos mod Seed_mod ∈ accepted) then OutOfFuel
    else Returns (rng pos mod Seed_mod, S pos).
Proof.
  cbn [draw_seed]. rewrite already_exists_decides. cbn [orb].
  case_bool_decide; [apply draw_seed_stuck|done].
Qed.

Lemma seed_loop_outcome fuel rng n pos accepted :
  NoDup accepted ->
  seed_loop (S fuel) rng n pos accepted =
    if bool_decide (NoDup (accepted ++ draws rng pos n))
    then Returns (accepted ++ draws rng pos n) else OutOfFuel.
Proof.
  revert pos accepted. induction n as [|n IH]; intros pos accepted Hnd.
  - unfold draws. cbn [seq map seed_loop]. rewrite app_nil_r.
    by rewrite bool_decide_eq_true_2.
  - cbn [seed_loop]. rewrite draw_seed_outcome.
    unfold draws. cbn [seq map]. fold (draws rng (S pos) n).
    case_bool_decide as Hin; cbn [mbind Run_bind].
    + rewrite bool_decide_eq_false_2; [done|].
      intros Hnd'. apply NoDup_app in Hnd' as (_ & Hdis & _).
      apply (Hdis _ Hin). by left.
    + rewrite IH.
      * rewrite <- app_assoc. done.
      * apply NoDup_app. split_and!; [done| |apply NoDup_singleton].
        intros x Hx ->%list_elem_of_singleton. done.
Qed.
End ConstructorOutcome.

Section ConstructorTheorem.
Context {T : Template}.

(** X1 (the constructor): with fuel for at least one draw, the constructor
    returns exactly when the first [K] values drawn are pairwise distinct,
    and then yields those values as seeds, [size] zeroed buckets and count
    0; otherwise it never leaves its seed loop.  Both variants. *)
Theorem constructor_returns_iff_draws_distinct
    (fuel size : nat) (rng : nat -> Z) :
  Filter.new (S fuel) size rng =
    (if bool_decide (NoDup (draws rng 0 K))
     then Returns (FilterHistory.empty (draws rng 0 K) size)
     else OutOfFuel)
  /\
  Dictionary.new (S fuel) size rng =
    (if bool_decide (NoDup (draws rng 0 K))
     then Returns (DictHistory.empty (draws rng 0 K) size)
     else OutOfFuel).
Proof.
  unfold Filter.new, Dictionary.new.
  rewrite seed_loop_outcome by constructor. cbn [app].
  by case_bool_decide.
Qed.
End ConstructorTheorem.

(** ** What no operation changes *)

Module DictLength.
Import Dictionary DictFacts DictHistory.
Section Lengths.
Context {T : Template}.

Lemma dict_replay_frame ops (tr tr' : Trace IBD (Z * Z)) :
  replay ops tr = Returns tr' ->
  length (buckets (state tr')) = length (buckets (state tr)) /\
  seeds (state tr') = seeds (state tr).
Proof.
  revert tr. induction ops as [|[key value|key] ops IH]; intros tr; simpl.
  - by intros [= ->].
  - unfold insert.
    destruct (insert_loop _ _ _ _ _) as [bs| | | |] eqn:Hl; simpl; try done.
    intros Hr%IH. simpl in Hr. apply dict_insert_loop_length in Hl.
    destruct Hr as [? ?]. split; congruence.
  - destruct (remove key (state tr)) as [[removed st']| | | |] eqn:Hrm;
      simpl; try done.
    pose proof (dict_remove_length _ _ _ _ Hrm) as Hlen.
    assert (seeds st' = seeds (state tr)) as Hseeds.
    { unfold remove in Hrm.
      destruct (get key (state tr)) as [[v|]| | | |]; simpl in Hrm; try done.
      - destruct (remove_loop _ _ _ _ _) as [bs| | | |]; simpl in Hrm;
          try done.
        by injection Hrm as _ <-.
      - by injection Hrm as _ <-. }
    destruct removed; [|apply IH].
    intros Hr%IH. simpl in Hr. destruct Hr as [? ?]. split; congruence.
Qed.
End Lengths.
End DictLength.

Module FilterFrame.
Import Filter FilterFacts FilterHistory FilterLength.
Section Frame.
Context {T : Template}.

Lemma remove_seeds key st removed st' :
  remove key st = Returns (removed, st') -> seeds st' = seeds st.
Proof.
  unfold remove. destruct (contains key st) as [c| | | |]; simpl; try done.
  destruct (decide (c = exists_)); simpl.
  - destruct (remove_loop _ _ _ _) as [bs| | | |]; simpl; try done.
    by intros [= _ <-].
  - by intros [= _ <-].
Qed.

Lemma replay_seeds ops (tr tr' : Trace IBF Z) :
  replay ops tr = Returns tr' -> seeds (state tr') = seeds (state tr).
Proof.
  revert tr. induction ops as [|[key|key] ops IH]; intros tr; simpl.
  - by intros [= ->].
  - unfold insert.
    destruct (insert_loop _ _ _ _) as [bs| | | |]; simpl; try done.
    intros Hr%IH. done.
  - destruct (remove key (state tr)) as [[removed st']| | | |] eqn:Hrm;
      simpl; try done.
    apply remove_seeds in Hrm.
    destruct removed; [|apply IH].
    intros Hr%IH. simpl in Hr. congruence.
Qed.
End Frame.
End FilterFrame.

Section FrameTheorem.
Context {T : Template}.

(** X2 (the directory never resizes): whatever insertions and removals
    are played on an instance, and whether or not they overflow a counter,
    [directory_size()] and [listSeeds()] answer afterwards what they
    answered before.  Both variants. *)
Theorem directory_size_and_seeds_never_change
    (ops : list Op) (tr tr' : Trace Filter.IBF Z)
    (dops : list DOp) (dtr dtr' : Trace Dictionary.IBD (Z * Z)) :
  (FilterHistory.replay ops tr = Returns tr' ->
   Filter.directory_size (state tr') = Filter.directory_size (state tr) /\
   Filter.listSeeds (state tr') = Filter.listSeeds (state tr))
  /\
  (DictHistory.replay dops dtr = Returns dtr' ->
   Dictionary.directory_size (state dtr')
     = Dictionary.directory_size (state dtr) /\
   Dictionary.listSeeds (state dtr') = Dictionary.listSeeds (state dtr)).
Proof.
  split.
  - intros Hr. split.
    + by apply FilterLength.replay_directory_size in Hr.
    + by apply FilterFrame.replay_seeds in Hr.
  - apply DictLength.dict_replay_frame.
Qed.

(** X3 ([size()] within capacity): after any history during which fewer
    than [2 ^ bits BucketCounter] keys were ever present at once, [size()]
    is the number of keys inserted and not yet removed; in the dictionary
    variant for histories that insert no key already present. *)
Theorem size_counts_present_keys
    (sds : list Z) (size : nat)
    (ops : list Op) (tr : Trace Filter.IBF Z)
    (dops : list DOp) (dtr : Trace Dictionary.IBD (Z * Z)) :
  (FilterHistory.replay ops (FilterHistory.start sds size) = Returns tr ->
   Z.of_nat (peak tr) < counter_mod ->
   Filter.size (state tr) = Z.of_nat (length (present tr)))
  /\
  (DictHistory.replay dops (DictHistory.start sds size) = Returns dtr ->
   fresh dtr = true ->
   Z.of_nat (peak dtr) < counter_mod ->
   Dictionary.size (state dtr) = Z.of_nat (length (present dtr))).
Proof.
  split.
  - intros Hrun Hcap. destruct (decide (size = 0%nat)) as [->|Hsize].
    + by destruct (FilterDecode.replay_empty_directory _ _ _ Hrun)
        as [_ Hcount]; simpl.
    + destruct (FilterQuery.replay_consistent _ _ _ Hrun) as [Hcons _];
        simpl; [by apply FilterInv.consistent_empty|lia|done|].
      apply (FilterInv.consistent_count _ _ Hcons).
      pose proof (FilterQuery.replay_present_peak _ _ _ Hrun) as Hpk.
      pose proof counter_mod_bounds. simpl in Hpk. lia.
  - intros Hrun Hfresh Hcap. destruct (decide (size = 0%nat)) as [->|Hsize].
    + by destruct (DictReplay.dict_replay_empty_directory _ _ _ Hrun)
        as [_ Hcount]; simpl.
    + apply (DictInv.dict_consistent_count _ (present dtr)).
      * apply (DictReplay.dict_replay_consistent _ _ _ Hrun Hfresh); simpl;
          [by apply DictInv.dict_consistent_empty|lia|done].
      * pose proof (DictReplay.dict_replay_present_peak _ _ _ Hrun) as Hpk.
        pose proof counter_mod_bounds. simpl in Hpk. lia.
Qed.
End FrameTheorem.

(** ** Lookups in the key-value variant *)

Module DictLookup.
Import Dictionary DictSpec DictFacts DictHistory DictInv DictDecode.
Section Lookup.
Context {T : Template}.

(** [get] and [contains] walk the same probes and stop at the same
    bucket. *)
Lemma get_loop_contains_loop key sds bs might :
  match get_loop key sds bs with
  | Returns (Some v) => contains_loop key sds bs might = Returns exists_
  | Returns None =>
      contains_loop key sds bs might = Returns not_found \/
      contains_loop key sds bs might = Returns might_exist
  | Undefined => contains_loop key sds bs might = Undefined
  | AssertFailed => False
  | Throws => False
  | OutOfFuel => False
  end.
Proof.
  revert might. induction sds as [|seed rest IH]; intros might;
    cbn [get_loop contains_loop].
  { destruct might; [by right|by left]. }
  destruct (hash_index bs key seed) as [i| | | |] eqn:Hi;
    cbn [mbind Run_bind]; try done.
  - destruct (bs !! i) as [b|]; [|done].
    destruct (count b =? 1); [|apply IH].
    destruct (key =? cumulative_key b); [done|by left].
  - unfold hash_index, hash_index_of in Hi. by destruct (decide _).
  - unfold hash_index, hash_index_of in Hi. by destruct (decide _).
  - unfold hash_index, hash_index_of in Hi. by destruct (decide _).
Qed.

(** A value that [get] returns in a consistent instance is the one held
    for that key. *)
Lemma get_sound key v st M :
  consistent st M -> get key st = Returns (Some v) -> (key, v) ∈ M.
Proof.
  intros Hcons Hget.
  by destruct (dict_consistent_remove key v st M Hcons Hget) as [? _].
Qed.

Lemma get_absent key st M :
  consistent st M -> key ∉ M.*1 -> get key st = Returns None.
Proof.
  intros Hcons Hno.
  destruct (get_loop_total key (seeds st) (buckets st)) as [[v|] Hv];
    [apply Hcons| |done].
  exfalso. apply Hno. apply list_elem_of_fmap. exists (key, v).
  split; [done|]. by apply (get_sound key v st M).
Qed.
End Lookup.
End DictLookup.

Module FilterLookup.
Import Filter FilterSpec FilterFacts FilterHistory FilterInv.
Section Lookup.
Context {T : Template}.

Lemma contains_absent key st M :
  consistent st M -> key ∉ M ->
  exists c, contains key st = Returns c /\ c <> exists_.
Proof.
  intros Hcons Hno.
  destruct (contains_loop_total key (seeds st) (buckets st) false)
    as [c Hc]; [apply Hcons|].
  exists c. split; [done|]. intros ->.
  by destruct (consistent_remove key st M Hcons Hc) as [? _].
Qed.
End Lookup.
End FilterLookup.

Section LookupTheorems.
Context {T : Template}.

(** X4 ([get] within capacity): after any history of the dictionary that
    inserts no key already present and never holds
    [2 ^ bits BucketCounter] keys at once, a value that [get(key)]
    returns is the value inserted with [key] and not yet removed; and if
    one of the buckets probed for [key] has count 1, [get(key)] returns
    that value when [key] is present and [nullopt] when it is not. *)
Theorem get_exact_within_capacity
    (sds : list Z) (size : nat) (dops : list DOp)
    (dtr : Trace Dictionary.IBD (Z * Z)) (key : Z) :
  DictHistory.replay dops (DictHistory.start sds size) = Returns dtr ->
  fresh dtr = true ->
  Z.of_nat (peak dtr) < counter_mod ->
  (forall v, Dictionary.get key (state dtr) = Returns (Some v) ->
             (key, v) ∈ present dtr)
  /\
  ((exists seed b, seed ∈ sds /\
      Dictionary.buckets (state dtr)
        !! slot (Dictionary.directory_size (state dtr)) key seed = Some b /\
      Dictionary.count b = 1) ->
   (forall v, (key, v) ∈ present dtr ->
              Dictionary.get key (state dtr) = Returns (Some v)) /\
   (key ∉ (present dtr).*1 ->
    Dictionary.get key (state dtr) = Returns None)).
Proof.
  intros Hrun Hfresh Hcap.
  destruct (DictLength.dict_replay_frame _ _ _ Hrun) as [Hlen Hseeds].
  simpl in Hlen, Hseeds. rewrite length_replicate in Hlen.
  destruct (decide (size = 0%nat)) as [->|Hsize].
  { apply nil_length_inv in Hlen. split.
    - intros v. unfold Dictionary.get. rewrite Hlen.
      by destruct (Dictionary.seeds (state dtr)).
    - intros (seed & b & _ & Hlk & _). by rewrite Hlen in Hlk. }
  assert (DictSpec.consistent (state dtr) (present dtr)) as Hcons.
  { apply (DictReplay.dict_replay_consistent _ _ _ Hrun Hfresh); simpl;
      [by apply DictInv.dict_consistent_empty|lia|done]. }
  split.
  - intros v. by apply DictLookup.get_sound.
  - intros Hex. split.
    + intros v Hin. unfold Dictionary.get.
      apply (DictDecode.get_loop_singleton key v _ (present dtr));
        [done|done|done|].
      by rewrite Hseeds.
    + by apply DictLookup.get_absent.
Qed.

(** X6 ([get] against [contains]): on every instance of the dictionary,
    [get(key)] has a value exactly when [contains(key)] answers [exists];
    it returns [nullopt] exactly when [contains(key)] answers [not_found]
    or [might_exist]; and the two are undefined together. *)
Theorem get_has_value_iff_contains_exists
    (key : Z) (d : Dictionary.IBD) :
  ((exists v, Dictionary.get key d = Returns (Some v)) <->
   Dictionary.contains key d = Returns exists_)
  /\
  (Dictionary.get key d = Returns None <->
   Dictionary.contains key d = Returns not_found \/
   Dictionary.contains key d = Returns might_exist)
  /\
  (Dictionary.get key d = Undefined <->
   Dictionary.contains key d = Undefined).
Proof.
  pose proof (DictLookup.get_loop_contains_loop key (Dictionary.seeds d)
                (Dictionary.buckets d) false) as H.
  unfold Dictionary.get, Dictionary.contains.
  destruct (Dictionary.get_loop key _ _) as [[v|]| | | |]; try done.
  - rewrite H. split_and!; split; try done; try eauto.
    + by intros [|].
  - split_and!; split; try done.
    + by intros [? ?].
    + destruct H as [-> | ->]; done.
    + destruct H as [-> | ->]; done.
  - rewrite H. split_and!; split; try done.
    + by intros [? ?].
    + by intros [|].
Qed.
End LookupTheorems.

(** ** The dictionary on its keys *)

Module KeySide.
Section Simulation.
Context {T : Template}.

Lemma insert_loop_key_side key value sds seen
    (bs : list Dictionary.Bucket) :
  Filter.insert_loop key sds seen (key_bucket <$> bs) =
    fmap (M:=list) key_bucket <$>
      Dictionary.insert_loop key value sds seen bs.
Proof.
  revert seen bs. induction sds as [|seed rest IH]; intros seen bs;
    cbn [Filter.insert_loop Dictionary.insert_loop]; [done|].
  unfold Filter.hash_index, Dictionary.hash_index. rewrite length_fmap.
  destruct (hash_index_of (length bs) key seed) as [i| | | |];
    cbn [mbind Run_bind]; try done.
  case_bool_decide; [apply IH|].
  rewrite <- IH. f_equal. symmetry. apply list_fmap_alter.
  apply Forall_forall. intros b _. done.
Qed.

Lemma contains_loop_key_side key sds (bs : list Dictionary.Bucket) might :
  Filter.contains_loop key sds (key_bucket <$> bs) might =
    Dictionary.contains_loop key sds bs might.
Proof.
  revert might. induction sds as [|seed rest IH]; intros might;
    cbn [Filter.contains_loop Dictionary.contains_loop]; [done|].
  unfold Filter.hash_index, Dictionary.hash_index. rewrite length_fmap.
  destruct (hash_index_of (length bs) key seed) as [i| | | |];
    cbn [mbind Run_bind]; try done.
  rewrite list_lookup_fmap. destruct (bs !! i) as [b|]; [|done].
  cbn [fmap option_fmap option_map key_bucket Filter.count
       Filter.cumulative_key].
  destruct (Dictionary.count b =? 1); [done|apply IH].
Qed.

Lemma remove_loop_key_side key value sds seen
    (bs : list Dictionary.Bucket) :
  Filter.remove_loop key sds seen (key_bucket <$> bs) =
    fmap (M:=list) key_bucket <$>
      Dictionary.remove_loop key value sds seen bs.
Proof.
  revert seen bs. induction sds as [|seed rest IH]; intros seen bs;
    cbn [Filter.remove_loop Dictionary.remove_loop]; [done|].
  unfold Filter.hash_index, Dictionary.hash_index. rewrite length_fmap.
  destruct (hash_index_of (length bs) key seed) as [i| | | |];
    cbn [mbind Run_bind]; try done.
  case_bool_decide; [apply IH|].
  rewrite list_lookup_fmap. destruct (bs !! i) as [b|]; [|done].
  cbn [fmap option_fmap option_map key_bucket Filter.count].
  destruct (assert_ (0 <? Dictionary.count b)); cbn [mbind Run_bind];
    try done.
  rewrite <- IH. f_equal. symmetry. apply list_fmap_alter.
  apply Forall_forall. intros b' _. done.
Qed.

Lemma insert_key_side key value d :
  Filter.insert key (key_side d) =
    key_side <$> Dictionary.insert key value d.
Proof.
  unfold Filter.insert, Dictionary.insert, key_side.
  cbn [Filter.seeds Filter.buckets Filter.ibf_count].
  rewrite (insert_loop_key_side key value).
  by destruct (Dictionary.insert_loop _ _ _ _ _).
Qed.

Lemma contains_key_side key d :
  Filter.contains key (key_side d) = Dictionary.contains key d.
Proof. apply contains_loop_key_side. Qed.

Lemma remove_key_side key d :
  Filter.remove key (key_side d) =
    prod_map id key_side <$> Dictionary.remove key d.
Proof.
  unfold Filter.remove. rewrite contains_key_side.
  unfold Dictionary.remove, Dictionary.get, Dictionary.contains.
  pose proof (DictLookup.get_loop_contains_loop key (Dictionary.seeds d)
                (Dictionary.buckets d) false) as H.
  destruct (Dictionary.get_loop key _ _) as [[v|]| | | |]; try done.
  - rewrite H. cbn [mbind Run_bind].
    destruct (decide (exists_ = exists_)); [|done].
    unfold key_side. cbn [Filter.seeds Filter.buckets Filter.ibf_count].
    rewrite (remove_loop_key_side key v).
    by destruct (Dictionary.remove_loop _ _ _ _ _).
  - destruct H as [-> | ->]; cbn [mbind Run_bind];
      destruct (decide _); done.
  - by rewrite H.
Qed.

Lemma key_side_lookup d i :
  Filter.buckets (key_side d) !! i = key_bucket <$> Dictionary.buckets d !! i.
Proof. apply list_lookup_fmap. Qed.

Lemma key_side_length d :
  length (Filter.buckets (key_side d)) = length (Dictionary.buckets d).
Proof. apply length_fmap. Qed.

Lemma scan_key_side idxs d res fres finished has_changed :
  match Dictionary.scan idxs d res finished has_changed with
  | Returns (d', _, finished', has_changed') =>
      exists fres',
        Filter.scan idxs (key_side d) fres finished has_changed =
          Returns (key_side d', fres', finished', has_changed')
  | Undefined =>
      Filter.scan idxs (key_side d) fres finished has_changed = Undefined
  | AssertFailed =>
      Filter.scan idxs (key_side d) fres finished has_changed = AssertFailed
  | Throws =>
      Filter.scan idxs (key_side d) fres finished has_changed = Throws
  | OutOfFuel =>
      Filter.scan idxs (key_side d) fres finished has_changed = OutOfFuel
  end.
Proof.
  revert d res fres finished has_changed.
  induction idxs as [|i idxs IH]; intros d res fres finished has_changed.
  { cbn [Dictionary.scan Filter.scan]. eauto. }
  rewrite scan_cons. cbn [Dictionary.scan].
  rewrite key_side_lookup. destruct (Dictionary.buckets d !! i) as [b|];
    [|done].
  cbn [fmap option_fmap option_map key_bucket Filter.count
       Filter.cumulative_key].
  destruct (Dictionary.count b =? 0); [apply IH|].
  destruct (1 <? Dictionary.count b); [apply IH|].
  rewrite remove_key_side.
  destruct (Dictionary.remove (Dictionary.cumulative_key b) d)
    as [[removed d']| | | |]; cbn [fmap Run_fmap mbind Run_bind prod_map fst snd
                                 id]; try done.
  rewrite key_side_lookup. destruct (Dictionary.buckets d' !! i) as [b'|];
    [|done].
  cbn [fmap option_fmap option_map key_bucket Filter.count].
  destruct (assert_ (Dictionary.count b' =? 0)); cbn [mbind Run_bind];
    try done.
  apply IH.
Qed.

Lemma peel_key_side fuel d res fres finished has_changed :
  match Dictionary.peel fuel d res finished has_changed with
  | Returns (d', _, finished') =>
      exists fres',
        Filter.peel fuel (key_side d) fres finished has_changed =
          Returns (key_side d', fres', finished')
  | Undefined =>
      Filter.peel fuel (key_side d) fres finished has_changed = Undefined
  | AssertFailed =>
      Filter.peel fuel (key_side d) fres finished has_changed = AssertFailed
  | Throws =>
      Filter.peel fuel (key_side d) fres finished has_changed = Throws
  | OutOfFuel =>
      Filter.peel fuel (key_side d) fres finished has_changed = OutOfFuel
  end.
Proof.
  revert d res fres finished has_changed.
  induction fuel as [|fuel IH]; intros d res fres finished has_changed;
    cbn [Dictionary.peel Filter.peel];
    destruct (negb finished && has_changed); eauto.
  rewrite key_side_length.
  pose proof (scan_key_side (seq 0 (length (Dictionary.buckets d))) d res
                fres true false) as Hscan.
  destruct (Dictionary.scan _ d res true false)
    as [[[[d' res'] fin'] hc']| | | |]; cbn [mbind Run_bind].
  - destruct Hscan as [fres' ->]. cbn [mbind Run_bind]. apply IH.
  - by rewrite Hscan.
  - by rewrite Hscan.
  - by rewrite Hscan.
  - by rewrite Hscan.
Qed.

Lemma key_side_empty sds size :
  key_side (DictHistory.empty sds size) = FilterHistory.empty sds size.
Proof.
  unfold key_side, DictHistory.empty, FilterHistory.empty.
  cbn [Dictionary.seeds Dictionary.buckets Dictionary.ibd_count].
  by rewrite fmap_replicate.
Qed.

Lemma dict_scan_no_single idxs copy res finished has_changed :
  (forall i, i ∈ idxs ->
     exists b, Dictionary.buckets copy !! i = Some b /\
               (Dictionary.count b = 0 \/ 1 < Dictionary.count b)) ->
  exists finished',
    Dictionary.scan idxs copy res finished has_changed =
      Returns (copy, res, finished', has_changed).
Proof.
  revert finished. induction idxs as [|i idxs IH]; intros finished Hall;
    cbn [Dictionary.scan]; [eauto|].
  destruct (Hall i) as (b & Hlk & Hc); [by left|]. rewrite Hlk.
  assert (forall j, j ∈ idxs ->
            exists b, Dictionary.buckets copy !! j = Some b /\
              (Dictionary.count b = 0 \/ 1 < Dictionary.count b)) as Hrest.
  { intros j Hj. apply Hall. by right. }
  destruct (Dictionary.count b =? 0) eqn:Hzero; [by apply IH|].
  destruct (1 <? Dictionary.count b) eqn:Hmany; [by apply IH|].
  apply Z.eqb_neq in Hzero. apply Z.ltb_ge in Hmany. lia.
Qed.

(** Whatever a history of the dictionary inserts, its key side stays a
    consistent instance of the set variant as long as fewer than
    [counter_mod] keys are present at once. *)
Lemma replay_key_side_consistent dops
    (dtr dtr' : Trace Dictionary.IBD (Z * Z)) :
  DictHistory.replay dops dtr = Returns dtr' ->
  FilterSpec.consistent (key_side (state dtr)) (present dtr).*1 ->
  (length (present dtr) <= peak dtr)%nat ->
  Z.of_nat (peak dtr') < counter_mod ->
  FilterSpec.consistent (key_side (state dtr')) (present dtr').*1.
Proof.
  revert dtr. induction dops as [|[key value|key] dops IH]; intros dtr;
    cbn [DictHistory.replay].
  - by intros [= ->].
  - intros Hr Hcons Hpk Hcap.
    pose proof (insert_key_side key value (state dtr)) as Hsim.
    destruct (Dictionary.insert key value (state dtr)) as [d'| | | |];
      cbn [mbind Run_bind] in Hr; try done.
    cbn [fmap Run_fmap] in Hsim.
    pose proof (DictReplay.dict_replay_peak_mono _ _ _ Hr) as Hmono.
    cbn [peak] in Hmono.
    destruct (FilterInv.consistent_insert key _ _ Hcons)
      as (st'' & Hins' & _ & Hc').
    { intros i.
      pose proof (load_length
                    (length (Filter.buckets (key_side (state dtr))))
                    (Filter.seeds (key_side (state dtr)))
                    (key :: (present dtr).*1) i) as Hle.
      cbn [length] in Hle. rewrite length_fmap in Hle. lia. }
    rewrite Hsim in Hins'. injection Hins' as <-.
    apply IH in Hr; cbn [state present peak]; [done|done|simpl; lia|done].
  - intros Hr Hcons Hpk Hcap.
    pose proof (remove_key_side key (state dtr)) as Hsim.
    destruct (Dictionary.remove key (state dtr)) as [[removed d']| | | |];
      cbn [mbind Run_bind] in Hr; try done.
    cbn [fmap Run_fmap prod_map fst snd id] in Hsim.
    destruct removed; [|by apply IH in Hr].
    assert (Filter.contains key (key_side (state dtr)) = Returns exists_)
      as Hex.
    { unfold Filter.remove in Hsim.
      destruct (Filter.contains key (key_side (state dtr))) as [c| | | |];
        cbn [mbind Run_bind] in Hsim; try done.
      by destruct (decide (c = exists_)) as [->|]. }
    destruct (FilterInv.consistent_remove key _ _ Hcons Hex)
      as (HinM & st'' & Hrm' & _ & Hc').
    rewrite Hsim in Hrm'. injection Hrm' as <-.
    apply IH in Hr; cbn [state present peak]; [done| | |done].
    + by rewrite remove_key_fst.
    + pose proof (sublist_length _ _
                    (remove_key_sublist key (present dtr))). lia.
Qed.
End Simulation.
End KeySide.

Section KeySideTheorems.
Context {T : Template}.

(** X7 (the dictionary on its keys is the set variant): dropping the
    values of a dictionary commutes with [insert], [contains] and
    [remove]: each of them does to the keys, counts and global count of a
    dictionary exactly what the operation of the same name does to an
    instance of the set variant, failing when it fails. *)
Theorem dictionary_key_side_is_filter
    (key value : Z) (d : Dictionary.IBD) :
  Filter.insert key (key_side d) =
    key_side <$> Dictionary.insert key value d
  /\
  Filter.contains key (key_side d) = Dictionary.contains key d
  /\
  Filter.remove key (key_side d) =
    prod_map id key_side <$> Dictionary.remove key d.
Proof.
  split_and!.
  - apply KeySide.insert_key_side.
  - apply KeySide.contains_key_side.
  - apply KeySide.remove_key_side.
Qed.

(** X5 (a key that is not there): after any history that never holds
    [2 ^ bits BucketCounter] keys at once, on a directory of non-zero
    size, a key that is not present is never reported [exists], has no
    value, and [remove] of it returns false and changes nothing.  Both
    variants; in the dictionary, also after a key was inserted while
    present. *)
Theorem absent_key_is_never_removed
    (sds : list Z) (size : nat) (key : Z)
    (ops : list Op) (tr : Trace Filter.IBF Z)
    (dops : list DOp) (dtr : Trace Dictionary.IBD (Z * Z)) :
  size <> 0%nat ->
  (FilterHistory.replay ops (FilterHistory.start sds size) = Returns tr ->
   Z.of_nat (peak tr) < counter_mod ->
   key ∉ present tr ->
   (exists c, Filter.contains key (state tr) = Returns c /\ c <> exists_) /\
   Filter.remove key (state tr) = Returns (false, state tr))
  /\
  (DictHistory.replay dops (DictHistory.start sds size) = Returns dtr ->
   Z.of_nat (peak dtr) < counter_mod ->
   key ∉ (present dtr).*1 ->
   Dictionary.get key (state dtr) = Returns None /\
   Dictionary.remove key (state dtr) = Returns (false, state dtr)).
Proof.
  intros Hsize. split.
  - intros Hrun Hcap Hno.
    destruct (FilterQuery.replay_consistent _ _ _ Hrun) as [Hcons _]; simpl;
      [by apply FilterInv.consistent_empty|lia|done|].
    destruct (FilterLookup.contains_absent key _ _ Hcons Hno)
      as (c & Hc & Hne).
    split; [by exists c|].
    unfold Filter.remove. rewrite Hc. cbn [mbind Run_bind].
    by destruct (decide (c = exists_)).
  - intros Hrun Hcap Hno.
    assert (FilterSpec.consistent (key_side (state dtr)) (present dtr).*1)
      as Hcons.
    { apply (KeySide.replay_key_side_consistent _ _ _ Hrun); simpl;
        [|lia|done].
      rewrite KeySide.key_side_empty.
      by apply FilterInv.consistent_empty. }
    destruct (FilterLookup.contains_absent key _ _ Hcons Hno)
      as (c & Hc & Hne).
    rewrite KeySide.contains_key_side in Hc.
    assert (Dictionary.get key (state dtr) = Returns None) as Hget.
    { pose proof (DictLookup.get_loop_contains_loop key
                    (Dictionary.seeds (state dtr))
                    (Dictionary.buckets (state dtr)) false) as H.
      unfold Dictionary.contains in Hc. unfold Dictionary.get.
      destruct (Dictionary.get_loop key _ _) as [[v|]| | | |]; try done;
        congruence. }
    split; [done|]. unfold Dictionary.remove. by rewrite Hget.
Qed.

(** X8 (decode termination in the dictionary): on every dictionary whose
    counts are values of their types and that has fewer than
    [2 ^ bits BucketCounter] seeds, [listAll] with fuel beyond the
    potential of the buckets terminates: it throws from [reserve] when
    the global count is more than the result vector can reserve, and
    otherwise returns, leaving the instance as it was, or stops at a
    failed assertion when assertions are compiled in. *)
Theorem dictionary_decode_terminates (d : Dictionary.IBD) (fuel : nat) :
  FilterSpec.well_typed (key_side d) ->
  Z.of_nat (length (Dictionary.seeds d)) < counter_mod ->
  (Z.to_nat (FilterSpec.potential (Filter.buckets (key_side d))) < fuel)%nat ->
  if Dictionary.ibd_count d <=? Z.of_N max_reserve
  then (ndebug = false /\ Dictionary.listAll fuel d = AssertFailed) \/
       exists r, Dictionary.listAll fuel d = Returns (r, d)
  else Dictionary.listAll fuel d = Throws.
Proof.
  intros Hwt HK Hfuel.
  pose proof (KeySide.peel_key_side fuel d [] [] false true) as Hsim.
  unfold Dictionary.listAll, reserve.
  destruct (Dictionary.ibd_count d <=? Z.of_N max_reserve); [|done].
  cbn [mbind Run_bind].
  destruct (FilterTermination.peel_terminates fuel (key_side d) [] false
              true Hwt HK Hfuel) as [[Hnd Hp]|(c' & r' & f' & Hp)];
    rewrite Hp in Hsim.
  - left. split; [done|].
    destruct (Dictionary.peel fuel d [] false true)
      as [[[d' res'] fin']| | | |]; try done.
    by destruct Hsim.
  - right.
    destruct (Dictionary.peel fuel d [] false true)
      as [[[d' res'] fin']| | | |]; try done.
    cbn [mbind Run_bind]. destruct (negb fin' || _); eauto.
Qed.

(** X9 (a key inserted twice into a dictionary): [insert] does not
    overwrite.  After [insert(key, v1)] and [insert(key, v2)] on an empty
    dictionary of non-zero directory size with at least one seed,
    [size()] is 2, [get(key)] returns [nullopt], [contains(key)] answers
    [might_exist], [remove(key)] returns false and changes nothing, and
    [listAll] returns no result. *)
Theorem dictionary_insert_does_not_overwrite
    (sds : list Z) (size : nat) (key v1 v2 : Z) :
  size <> 0%nat ->
  sds <> [] ->
  exists d1 d2,
    Dictionary.insert key v1 (DictHistory.empty sds size) = Returns d1 /\
    Dictionary.insert key v2 d1 = Returns d2 /\
    Dictionary.size d2 = 2 /\
    Dictionary.get key d2 = Returns None /\
    Dictionary.contains key d2 = Returns might_exist /\
    Dictionary.remove key d2 = Returns (false, d2) /\
    (forall fuel,
       Dictionary.listAll (S fuel) d2 =
         if 2 <=? Z.of_N max_reserve then Returns (None, d2) else Throws).
Proof.
  intros Hsize Hsds.
  destruct (FilterDuplicate.insert_twice sds size key Hsize Hsds)
    as (st1 & st2 & Hins1 & Hins2 & Hsz & Hcont & _ & _ & Hprobe).
  rewrite <- KeySide.key_side_empty in Hins1.
  rewrite (KeySide.insert_key_side key v1) in Hins1.
  destruct (Dictionary.insert key v1 (DictHistory.empty sds size))
    as [d1| | | |] eqn:Hd1; try done.
  injection Hins1 as <-.
  rewrite (KeySide.insert_key_side key v2) in Hins2.
  destruct (Dictionary.insert key v2 d1) as [d2| | | |] eqn:Hd2; try done.
  injection Hins2 as <-.
  exists d1, d2. split; [done|]. split; [done|]. split; [done|].
  rewrite KeySide.contains_key_side in Hcont.
  assert (Dictionary.get key d2 = Returns None) as Hget.
  { pose proof (DictLookup.get_loop_contains_loop key (Dictionary.seeds d2)
                  (Dictionary.buckets d2) false) as H.
    unfold Dictionary.contains in Hcont. unfold Dictionary.get.
    destruct (Dictionary.get_loop key _ _) as [[v|]| | | |]; try done;
      congruence. }
  split; [done|]. split; [done|].
  split; [unfold Dictionary.remove; by rewrite Hget|].
  assert (forall i b, Filter.buckets (key_side d2) !! i = Some b ->
            Filter.count b = 0 \/ 1 < Filter.count b) as Hshape.
  { assert (FilterSpec.consistent (key_side d2) [key; key]) as Hcons2.
    { pose proof counter_mod_bounds.
      destruct (FilterInv.consistent_insert key _ _
                  (FilterInv.consistent_empty sds size Hsize))
        as (s1 & Hi1 & _ & Hc1).
      { intros i. rewrite load_cons. destruct (decide _); simpl; lia. }
      destruct (FilterInv.consistent_insert key _ _ Hc1)
        as (s2 & Hi2 & _ & Hc2).
      { intros i. rewrite !load_cons. destruct (decide _); simpl; lia. }
      rewrite <- KeySide.key_side_empty in Hi1.
      rewrite (KeySide.insert_key_side key v1), Hd1 in Hi1.
      injection Hi1 as <-.
      rewrite (KeySide.insert_key_side key v2), Hd2 in Hi2.
      by injection Hi2 as <-. }
    destruct Hcons2 as (_ & _ & _ & Hb).
    intros i b Hlk. destruct (Hb _ _ Hlk) as [Hc _].
    rewrite !load_cons in Hc.
    destruct (decide _); simpl in Hc; [right|left]; lia. }
  intros fuel. unfold Dictionary.listAll, reserve.
  change (Dictionary.ibd_count d2) with (Dictionary.size d2).
  assert (Dictionary.size d2 = 2) as -> by done.
  destruct (2 <=? Z.of_N max_reserve); [|done].
  cbn [mbind Run_bind Dictionary.peel negb andb].
  destruct (KeySide.dict_scan_no_single
              (seq 0 (length (Dictionary.buckets d2))) d2 [] true false)
    as [fin' Hdscan].
  { intros i Hi%elem_of_seq.
    assert (i < length (Dictionary.buckets d2))%nat as Hlt by lia.
    destruct (lookup_lt_is_Some_2 _ _ Hlt) as [b Hlk].
    exists b. split; [done|].
    apply (Hshape i (key_bucket b)).
    by rewrite KeySide.key_side_lookup, Hlk. }
  rewrite Hdscan. cbn [mbind Run_bind].
  assert (Dictionary.peel fuel d2 [] fin' false = Returns (d2, [], fin'))
    as ->.
  { destruct fuel; cbn [Dictionary.peel]; by rewrite andb_false_r. }
  cbn [mbind Run_bind]. by rewrite orb_true_r.
Qed.
End KeySideTheorems.

(** ** Insertions and removals as operations on buckets *)

Lemma alter_all_comm {A} (f g : A -> A) idxs jdxs (bs : list A) :
  (forall b, f (g b) = g (f b)) -> NoDup idxs -> NoDup jdxs ->
  alter_all f idxs (alter_all g jdxs bs) =
    alter_all g jdxs (alter_all f idxs bs).
Proof.
  intros Hfg Hi Hj. apply list_eq. intros i.
  rewrite !alter_all_lookup by done.
  repeat case_bool_decide; try done.
  destruct (bs !! i) as [b|]; simpl; [|done]. by rewrite Hfg.
Qed.

Lemma alter_all_inverse {A} (f g : A -> A) idxs (bs : list A) :
  NoDup idxs -> Forall (fun b => g (f b) = b) bs ->
  alter_all g idxs (alter_all f idxs bs) = bs.
Proof.
  intros Hnd Hinv. apply list_eq. intros i.
  rewrite !alter_all_lookup by done.
  case_bool_decide; [|done].
  destruct (bs !! i) as [b|] eqn:Hlk; simpl; [|done].
  f_equal. by apply (Forall_lookup_1 _ _ _ _ Hinv Hlk).
Qed.

Lemma xors_perm l l' : l ≡ₚ l' -> xors l = xors l'.
Proof.
  induction 1 as [|x l l' _ IH|x y l|l1 l2 l3 _ IH1 _ IH2]; simpl.
  - done.
  - by rewrite IH.
  - rewrite <- !Z.lxor_assoc. f_equal. apply Z.lxor_comm.
  - congruence.
Qed.

Module FilterAlgebra.
Import Filter FilterSpec FilterFacts FilterHistory FilterInv.
Section Algebra.
Context {T : Template}.

Lemma bump_comm k1 k2 b : bump k1 (bump k2 b) = bump k2 (bump k1 b).
Proof.
  unfold bump. cbn [cumulative_key count]. f_equal.
  rewrite !Z.lxor_assoc. f_equal. apply Z.lxor_comm.
Qed.

Lemma drop_bump key b :
  0 <= count b < counter_mod -> drop key (bump key b) = b.
Proof.
  intros Hc. destruct b as [ck c]. unfold drop, bump.
  cbn [cumulative_key count] in *. f_equal.
  - by rewrite Z.lxor_assoc, Z.lxor_nilpotent, Z.lxor_0_r.
  - rewrite Zminus_mod_idemp_l. replace (c + 1 - 1) with c by lia.
    by apply Z.mod_small.
Qed.

Lemma bump_drop key b :
  0 <= count b < counter_mod -> bump key (drop key b) = b.
Proof.
  intros Hc. destruct b as [ck c]. unfold drop, bump.
  cbn [cumulative_key count] in *. f_equal.
  - by rewrite Z.lxor_assoc, Z.lxor_nilpotent, Z.lxor_0_r.
  - rewrite Zplus_mod_idemp_l. replace (c - 1 + 1) with c by lia.
    by apply Z.mod_small.
Qed.

Lemma insert_swap k1 k2 st :
  (insert k1 st ≫= insert k2) = (insert k2 st ≫= insert k1).
Proof.
  destruct (decide (length (buckets st) = 0%nat)) as [Hz|Hn].
  - destruct st as [sds bs c]. cbn [buckets] in Hz.
    apply nil_length_inv in Hz. subst bs.
    destruct sds as [|seed rest]; [|done].
    unfold insert. by cbn.
  - rewrite !insert_returns by done. cbn [mbind Run_bind].
    rewrite !insert_returns by (cbn [buckets]; by rewrite alter_all_length).
    cbn [buckets seeds ibf_count]. rewrite !alter_all_length.
    do 2 f_equal.
    apply alter_all_comm; [apply bump_comm|apply NoDup_touched..].
Qed.

Lemma insert_all_perm keys keys' st :
  keys ≡ₚ keys' -> insert_all keys st = insert_all keys' st.
Proof.
  intros Hperm. revert st.
  induction Hperm as [|x l l' _ IH|x y l|l1 l2 l3 _ IH1 _ IH2]; intros st.
  - done.
  - cbn [insert_all]. destruct (insert x st); cbn [mbind Run_bind]; auto.
  - cbn [insert_all]. pose proof (insert_swap x y st) as Hsw.
    destruct (insert x st) as [sx| | | |], (insert y st) as [sy| | | |];
      cbn [mbind Run_bind] in *; try done;
      first [by rewrite Hsw|by rewrite <- Hsw].
  - by rewrite IH1.
Qed.

Lemma insert_then_remove key st st1 st2 :
  well_typed st ->
  insert key st = Returns st1 ->
  remove key st1 = Returns (true, st2) ->
  st2 = st.
Proof.
  intros [Hwf Hcnt] Hins Hrm.
  destruct (decide (length (buckets st) = 0%nat)) as [Hz|Hn].
  { destruct st as [sds bs c]. cbn [buckets] in Hz.
    apply nil_length_inv in Hz. subst bs.
    destruct sds as [|seed rest]; [|done].
    unfold insert in Hins. cbn in Hins. injection Hins as <-.
    by cbn in Hrm. }
  rewrite insert_returns in Hins by done. injection Hins as <-.
  unfold remove in Hrm.
  destruct (contains key _) as [c| | | |]; cbn [mbind Run_bind] in Hrm;
    try done.
  destruct (decide (c = exists_)); [|done].
  rewrite remove_loop_touched in Hrm
    by (cbn [buckets]; by rewrite alter_all_length).
  cbn [buckets seeds ibf_count] in Hrm. rewrite alter_all_length in Hrm.
  destruct (ndebug || _); [|done].
  cbn [mbind Run_bind mret Run_ret] in Hrm. injection Hrm as <-.
  destruct st as [sds bs n]. cbn [buckets seeds ibf_count] in *. f_equal.
  - apply alter_all_inverse; [apply NoDup_touched|].
    eapply Forall_impl; [exact Hwf|]. intros b Hb. by apply drop_bump.
  - rewrite Zminus_mod_idemp_l. replace (n + 1 - 1) with n by lia.
    by apply Z.mod_small.
Qed.

Lemma remove_then_insert key st st1 :
  well_typed st ->
  remove key st = Returns (true, st1) ->
  insert key st1 = Returns st.
Proof.
  intros [Hwf Hcnt] Hrm.
  destruct (decide (length (buckets st) = 0%nat)) as [Hz|Hn].
  { destruct st as [sds bs c]. cbn [buckets] in Hz.
    apply nil_length_inv in Hz. subst bs.
    destruct sds as [|seed rest]; by cbn in Hrm. }
  unfold remove in Hrm.
  destruct (contains key _) as [c| | | |]; cbn [mbind Run_bind] in Hrm;
    try done.
  destruct (decide (c = exists_)); [|done].
  rewrite remove_loop_touched in Hrm by done.
  destruct (ndebug || _); [|done].
  cbn [mbind Run_bind mret Run_ret] in Hrm. injection Hrm as <-.
  rewrite insert_returns by (cbn [buckets]; by rewrite alter_all_length).
  cbn [buckets seeds ibf_count]. rewrite alter_all_length.
  destruct st as [sds bs n]. cbn [buckets seeds ibf_count] in *.
  do 2 f_equal.
  - apply alter_all_inverse; [apply NoDup_touched|].
    eapply Forall_impl; [exact Hwf|]. intros b Hb. by apply bump_drop.
  - rewrite Zplus_mod_idemp_l. replace (n - 1 + 1) with n by lia.
    by apply Z.mod_small.
Qed.

(** A consistent instance is determined by its seeds, its directory size
    and the keys it holds. *)
Lemma consistent_unique st st' M M' :
  consistent st M -> consistent st' M' -> M ≡ₚ M' ->
  seeds st = seeds st' -> length (buckets st) = length (buckets st') ->
  st = st'.
Proof.
  intros (_ & _ & Hcount & Hb) (_ & _ & Hcount' & Hb') Hperm Hseeds Hlen.
  destruct st as [sds bs c], st' as [sds' bs' c'].
  cbn [buckets seeds ibf_count] in *. subst sds'. f_equal.
  - apply list_eq. intros i.
    destruct (bs !! i) as [b|] eqn:Hlk, (bs' !! i) as [b'|] eqn:Hlk'.
    + destruct (Hb _ _ Hlk) as [Hc Hx], (Hb' _ _ Hlk') as [Hc' Hx'].
      rewrite <- Hlen in Hc', Hx'.
      assert (load (length bs) sds M i ≡ₚ load (length bs) sds M' i) as Hl.
      { unfold load. by rewrite Hperm. }
      destruct b as [ck cc], b' as [ck' cc'].
      cbn [cumulative_key count] in *. f_equal. f_equal.
      * by rewrite Hx, Hx', (xors_perm _ _ Hl).
      * by rewrite Hc, Hc', (Permutation_length Hl).
    + apply lookup_lt_Some in Hlk. apply lookup_ge_None in Hlk'. lia.
    + apply lookup_lt_Some in Hlk'. apply lookup_ge_None in Hlk. lia.
    + done.
  - by rewrite Hcount, Hcount', (Permutation_length Hperm).
Qed.
End Algebra.
End FilterAlgebra.

Module DictAlgebra.
Import Dictionary DictSpec DictFacts DictHistory DictInv.
Section Algebra.
Context {T : Template}.

Lemma dict_bump_comm k1 v1 k2 v2 b :
  bump k1 v1 (bump k2 v2 b) = bump k2 v2 (bump k1 v1 b).
Proof.
  unfold bump. cbn [cumulative_key cumulative_value count]. f_equal.
  - rewrite !Z.lxor_assoc. f_equal. apply Z.lxor_comm.
  - rewrite !Z.lxor_assoc. f_equal. apply Z.lxor_comm.
Qed.

Lemma dict_insert_returns key value st :
  length (buckets st) <> 0%nat ->
  insert key value st =
    Returns (mkIBD (seeds st)
               (alter_all (bump key value)
                  (touched (length (buckets st)) key (seeds st) [])
                  (buckets st))
               ((ibd_count st + 1) mod size_t_mod)).
Proof.
  intros Hn. unfold insert. by rewrite dict_insert_loop_touched.
Qed.

Lemma dict_insert_swap k1 v1 k2 v2 st :
  (insert k1 v1 st ≫= insert k2 v2) = (insert k2 v2 st ≫= insert k1 v1).
Proof.
  destruct (decide (length (buckets st) = 0%nat)) as [Hz|Hn].
  - destruct st as [sds bs c]. cbn [buckets] in Hz.
    apply nil_length_inv in Hz. subst bs.
    destruct sds as [|seed rest]; [|done].
    unfold insert. by cbn.
  - rewrite !dict_insert_returns by done. cbn [mbind Run_bind].
    rewrite !dict_insert_returns
      by (cbn [buckets]; by rewrite alter_all_length).
    cbn [buckets seeds ibd_count]. rewrite !alter_all_length.
    do 2 f_equal.
    apply alter_all_comm; [apply dict_bump_comm|apply NoDup_touched..].
Qed.

Lemma put_all_perm data data' st :
  data ≡ₚ data' -> put_all data st = put_all data' st.
Proof.
  intros Hperm. revert st.
  induction Hperm as [|x l l' _ IH|x y l|l1 l2 l3 _ IH1 _ IH2]; intros st.
  - done.
  - cbn [put_all]. destruct (insert x.1 x.2 st); cbn [mbind Run_bind]; auto.
  - cbn [put_all]. pose proof (dict_insert_swap x.1 x.2 y.1 y.2 st) as Hsw.
    destruct (insert x.1 x.2 st) as [sx| | | |],
             (insert y.1 y.2 st) as [sy| | | |];
      cbn [mbind Run_bind] in *; try done;
      first [by rewrite Hsw|by rewrite <- Hsw].
  - by rewrite IH1.
Qed.

Lemma dict_consistent_unique st st' M M' :
  consistent st M -> consistent st' M' -> M ≡ₚ M' ->
  seeds st = seeds st' -> length (buckets st) = length (buckets st') ->
  st = st'.
Proof.
  intros (_ & _ & _ & Hcount & Hb) (_ & _ & _ & Hcount' & Hb')
    Hperm Hseeds Hlen.
  destruct st as [sds bs c], st' as [sds' bs' c'].
  cbn [buckets seeds ibd_count] in *. subst sds'. f_equal.
  - apply list_eq. intros i.
    destruct (bs !! i) as [b|] eqn:Hlk, (bs' !! i) as [b'|] eqn:Hlk'.
    + destruct (Hb _ _ Hlk) as (Hc & Hx & Hv),
               (Hb' _ _ Hlk') as (Hc' & Hx' & Hv').
      rewrite <- Hlen in Hc', Hx', Hv'.
      assert (dload (length bs) sds M i ≡ₚ dload (length bs) sds M' i)
        as Hl.
      { unfold dload. by rewrite Hperm. }
      destruct b as [ck cv cc], b' as [ck' cv' cc'].
      cbn [cumulative_key cumulative_value count] in *. f_equal. f_equal.
      * rewrite Hx, Hx'. apply xors_perm. by rewrite Hl.
      * rewrite Hv, Hv'. apply xors_perm. by rewrite Hl.
      * by rewrite Hc, Hc', (Permutation_length Hl).
    + apply lookup_lt_Some in Hlk. apply lookup_ge_None in Hlk'. lia.
    + apply lookup_lt_Some in Hlk'. apply lookup_ge_None in Hlk. lia.
    + done.
  - by rewrite Hcount, Hcount', (Permutation_length Hperm).
Qed.
End Algebra.
End DictAlgebra.

Section AlgebraTheorems.
Context {T : Template}.

(** X10 (the order of insertions does not matter): inserting the same
    keys (the same pairs, in the dictionary) in another order leaves
    exactly the same instance, bucket for bucket, whatever the instance
    was before and whether or not a counter wraps. *)
Theorem insertion_order_is_irrelevant
    (keys keys' : list Z) (st : Filter.IBF)
    (data data' : list (Z * Z)) (d : Dictionary.IBD) :
  (keys ≡ₚ keys' -> insert_all keys st = insert_all keys' st) /\
  (data ≡ₚ data' -> put_all data d = put_all data' d).
Proof.
  split.
  - apply FilterAlgebra.insert_all_perm.
  - apply DictAlgebra.put_all_perm.
Qed.

(** X11 ([remove] is the inverse of [insert]): on every instance whose
    counts are values of their types, a [remove(key)] that succeeds
    right after [insert(key)] gives back the instance as it was before
    the insertion, and an [insert(key)] right after a [remove(key)] that
    succeeded gives back the instance as it was before the removal. *)
Theorem remove_and_insert_are_inverse (key : Z) (st : Filter.IBF) :
  FilterSpec.well_typed st ->
  (forall st1 st2,
     Filter.insert key st = Returns st1 ->
     Filter.remove key st1 = Returns (true, st2) ->
     st2 = st)
  /\
  (forall st1,
     Filter.remove key st = Returns (true, st1) ->
     Filter.insert key st1 = Returns st).
Proof.
  intros Hwt. split.
  - intros st1 st2. by apply FilterAlgebra.insert_then_remove.
  - intros st1. by apply FilterAlgebra.remove_then_insert.
Qed.

(** X12 (the instance depends on the keys present only): two histories
    on the same seeds and directory size, neither of which ever holds
    [2 ^ bits BucketCounter] keys at once, that end with the same keys
    present (the same pairs, for dictionary histories that insert no key
    already present) end in the same instance, bucket for bucket. *)
Theorem same_keys_same_instance
    (sds : list Z) (size : nat)
    (ops1 ops2 : list Op) (tr1 tr2 : Trace Filter.IBF Z)
    (dops1 dops2 : list DOp) (dtr1 dtr2 : Trace Dictionary.IBD (Z * Z)) :
  (FilterHistory.replay ops1 (FilterHistory.start sds size) = Returns tr1 ->
   FilterHistory.replay ops2 (FilterHistory.start sds size) = Returns tr2 ->
   Z.of_nat (peak tr1) < counter_mod ->
   Z.of_nat (peak tr2) < counter_mod ->
   present tr1 ≡ₚ present tr2 ->
   state tr1 = state tr2)
  /\
  (DictHistory.replay dops1 (DictHistory.start sds size) = Returns dtr1 ->
   DictHistory.replay dops2 (DictHistory.start sds size) = Returns dtr2 ->
   fresh dtr1 = true -> fresh dtr2 = true ->
   Z.of_nat (peak dtr1) < counter_mod ->
   Z.of_nat (peak dtr2) < counter_mod ->
   present dtr1 ≡ₚ present dtr2 ->
   state dtr1 = state dtr2).
Proof.
  split.
  - intros Hr1 Hr2 Hc1 Hc2 Hperm.
    pose proof (FilterLength.replay_directory_size _ _ _ Hr1) as Hl1.
    pose proof (FilterLength.replay_directory_size _ _ _ Hr2) as Hl2.
    pose proof (FilterFrame.replay_seeds _ _ _ Hr1) as Hs1.
    pose proof (FilterFrame.replay_seeds _ _ _ Hr2) as Hs2.
    destruct (decide (size = 0%nat)) as [->|Hsize].
    + destruct (FilterDecode.replay_empty_directory _ _ _ Hr1)
        as [Hb1 Hn1]; simpl; try done.
      destruct (FilterDecode.replay_empty_directory _ _ _ Hr2)
        as [Hb2 Hn2]; simpl; try done.
      destruct (state tr1) as [s1 b1 c1], (state tr2) as [s2 b2 c2].
      simpl in *. subst. by rewrite (Permutation_length Hperm).
    + destruct (FilterQuery.replay_consistent _ _ _ Hr1) as [Hcons1 _];
        simpl; [by apply FilterInv.consistent_empty|lia|done|].
      destruct (FilterQuery.replay_consistent _ _ _ Hr2) as [Hcons2 _];
        simpl; [by apply FilterInv.consistent_empty|lia|done|].
      apply (FilterAlgebra.consistent_unique _ _ _ _ Hcons1 Hcons2 Hperm);
        congruence.
  - intros Hr1 Hr2 Hf1 Hf2 Hc1 Hc2 Hperm.
    destruct (DictLength.dict_replay_frame _ _ _ Hr1) as [Hl1 Hs1].
    destruct (DictLength.dict_replay_frame _ _ _ Hr2) as [Hl2 Hs2].
    destruct (decide (size = 0%nat)) as [->|Hsize].
    + destruct (DictReplay.dict_replay_empty_directory _ _ _ Hr1)
        as [Hb1 Hn1]; simpl; try done.
      destruct (DictReplay.dict_replay_empty_directory _ _ _ Hr2)
        as [Hb2 Hn2]; simpl; try done.
      destruct (state dtr1) as [s1 b1 c1], (state dtr2) as [s2 b2 c2].
      simpl in *. subst. by rewrite (Permutation_length Hperm).
    + assert (DictSpec.consistent (state dtr1) (present dtr1)) as Hcons1.
      { apply (DictReplay.dict_replay_consistent _ _ _ Hr1 Hf1); simpl;
          [by apply DictInv.dict_consistent_empty|lia|done]. }
      assert (DictSpec.consistent (state dtr2) (present dtr2)) as Hcons2.
      { apply (DictReplay.dict_replay_consistent _ _ _ Hr2 Hf2); simpl;
          [by apply DictInv.dict_consistent_empty|lia|done]. }
      apply (DictAlgebra.dict_consistent_unique _ _ _ _ Hcons1 Hcons2 Hperm);
        congruence.
Qed.
End AlgebraTheorems.

(** ** Decoding always returns, and when it succeeds *)

Lemma remove_one_comm a b l :
  remove_one a (remove_one b l) = remove_one b (remove_one a l).
Proof.
  destruct (decide (a = b)) as [->|Hab]; [done|].
  induction l as [|x l IH]; [done|]. cbn [remove_one].
  do 2 case_bool_decide; subst; cbn [remove_one];
    repeat case_bool_decide; try done.
  by rewrite IH.
Qed.

Section Peelable.
Context {T : Template}.

Lemma load_remove_other size sds M i k k0 :
  k <> k0 -> load size sds M i = [k] ->
  load size sds (remove_one k0 M) i = [k].
Proof.
  intros Hne Hload. rewrite load_remove_one, Hload.
  destruct (decide _); [|done].
  cbn [remove_one]. by rewrite bool_decide_eq_false_2.
Qed.

(** Taking out a key that has a bucket of its own never spoils what can
    be peeled. *)
Lemma peelable_remove size sds M k i :
  load size sds M i = [k] -> peelable size sds M ->
  peelable size sds (remove_one k M).
Proof.
  intros Hload Hp. revert k i Hload.
  induction Hp as [|M k0 i0 Hl0 Hp0 IH]; intros k i Hload.
  { unfold load in Hload. by rewrite filter_nil in Hload. }
  destruct (decide (k = k0)) as [->|Hne]; [done|].
  apply (peelable_step size sds _ k0 i0).
  - by apply load_remove_other.
  - rewrite remove_one_comm. apply (IH k i).
    apply load_remove_other; [done|done].
Qed.

Lemma peelable_stuck size sds M :
  M <> [] -> (forall i, length (load size sds M i) <> 1%nat) ->
  ~ peelable size sds M.
Proof.
  intros Hne Hno Hp. destruct Hp as [|M k i Hload _]; [done|].
  apply (Hno i). by rewrite Hload.
Qed.

Lemma load_nil_sub size sds (M M' : list Z) i :
  (forall k, k ∈ M' -> k ∈ M) ->
  load size sds M i = [] -> load size sds M' i = [].
Proof.
  intros Hsub Hnil.
  destruct (load size sds M' i) as [|k l] eqn:Hload; [done|]. exfalso.
  assert (k ∈ load size sds M' i) as Hk by (rewrite Hload; by left).
  apply elem_of_load in Hk as [Hslot Hk].
  assert (k ∈ load size sds M i) as Hk' by (apply elem_of_load; auto).
  rewrite Hnil in Hk'. by apply elem_of_nil in Hk'.
Qed.
End Peelable.

Module FilterPeel.
Import Filter FilterSpec FilterFacts FilterHistory FilterInv FilterQuery
  FilterLength FilterDecode.
Section Peel.
Context {T : Template}.

(** A pass over buckets that are all empty changes nothing. *)
Lemma scan_all_zero idxs copy res finished has_changed :
  (forall i, i ∈ idxs ->
     exists b, buckets copy !! i = Some b /\ count b = 0) ->
  scan idxs copy res finished has_changed =
    Returns (copy, res, finished, has_changed).
Proof.
  induction idxs as [|i idxs IH]; intros Hall; cbn [scan]; [done|].
  destruct (Hall i) as (b & -> & ->); [by left|].
  cbn. apply IH. intros j Hj. apply Hall. by right.
Qed.

Lemma consistent_nil_zero copy i :
  consistent copy [] -> (i < length (buckets copy))%nat ->
  exists b, buckets copy !! i = Some b /\ count b = 0.
Proof.
  intros (_ & _ & _ & Hb) Hi.
  destruct (lookup_lt_is_Some_2 _ _ Hi) as [b Hlk].
  exists b. split; [done|]. by destruct (Hb _ _ Hlk) as [-> _].
Qed.

(** One pass over a consistent working copy, in full: it returns; every
    key it takes out of the copy goes to the result; it sets
    [has_changed] exactly when it takes a key out; it takes out every
    key that had a bucket of its own among the buckets visited; it
    never sets [finished], and leaves it set only over buckets that end
    empty; when it takes nothing out, no bucket visited held exactly
    one key; and the keys left can be taken out one at a time exactly
    when the keys before could. *)
Lemma scan_progress M0 idxs copy Mc res finished has_changed :
  NoDup M0 ->
  consistent copy Mc ->
  res ++ Mc ≡ₚ M0 ->
  Forall (fun i => (i < length (buckets copy))%nat) idxs ->
  exists copy' Mc' res' finished' has_changed',
    scan idxs copy res finished has_changed =
      Returns (copy', res', finished', has_changed') /\
    consistent copy' Mc' /\ res' ++ Mc' ≡ₚ M0 /\
    length (buckets copy') = length (buckets copy) /\
    seeds copy' = seeds copy /\
    (forall k, k ∈ Mc' -> k ∈ Mc) /\
    (((length Mc' < length Mc)%nat /\ has_changed' = true) \/
     (Mc' = Mc /\ has_changed' = has_changed)) /\
    (forall i k, i ∈ idxs ->
       load (length (buckets copy)) (seeds copy) Mc i = [k] -> k ∉ Mc') /\
    (finished' = true -> finished = true) /\
    (finished' = true -> forall i, i ∈ idxs ->
       load (length (buckets copy)) (seeds copy) Mc' i = []) /\
    (finished' = false -> finished = false \/ Mc <> []) /\
    (Mc' = Mc -> forall i, i ∈ idxs ->
       length (load (length (buckets copy)) (seeds copy) Mc i) <> 1%nat) /\
    (peelable (length (buckets copy)) (seeds copy) Mc <->
     peelable (length (buckets copy)) (seeds copy) Mc').
Proof.
  intros Hnd. revert copy Mc res finished has_changed.
  induction idxs as [|i idxs IH];
    intros copy Mc res finished has_changed Hcons Hperm Hidx;
    cbn [scan].
  { exists copy, Mc, res, finished, has_changed.
    split_and!; try done.
    - by right.
    - intros i k Hi. by apply elem_of_nil in Hi.
    - intros _ i Hi. by apply elem_of_nil in Hi.
    - intros ->. by left.
    - intros _ i Hi. by apply elem_of_nil in Hi. }
  apply Forall_cons in Hidx as [Hi Hidx].
  destruct (lookup_lt_is_Some_2 _ _ Hi) as [b Hlk]. rewrite Hlk.
  pose proof Hcons as (_ & _ & _ & Hb).
  destruct (Hb _ _ Hlk) as [Hc Hx].
  destruct (count b =? 0) eqn:Hzero.
  { apply Z.eqb_eq in Hzero.
    assert (load (length (buckets copy)) (seeds copy) Mc i = []) as Hnil.
    { destruct (load _ _ Mc i); [done|simpl in Hc; lia]. }
    destruct (IH copy Mc res finished has_changed Hcons Hperm Hidx)
      as (copy' & Mc' & res' & fin' & hc' & Hscan & Hcons' & Hperm' & Hlen'
          & Hseeds' & Hsub & Hprog & Hpriv & Hfin & Hempty & Hmany' & Hsame
          & Hpeel).
    exists copy', Mc', res', fin', hc'. split_and!; try done.
    - intros j k Hj Hload. apply elem_of_cons in Hj as [->|Hj].
      + by rewrite Hnil in Hload.
      + by apply (Hpriv j).
    - intros Hf j Hj. apply elem_of_cons in Hj as [->|Hj].
      + by apply (load_nil_sub _ _ Mc).
      + by apply Hempty.
    - intros HM j Hj. apply elem_of_cons in Hj as [->|Hj].
      + by rewrite Hnil.
      + by apply Hsame. }
  destruct (1 <? count b) eqn:Hmany.
  { apply Z.ltb_lt in Hmany.
    destruct (IH copy Mc res false has_changed Hcons Hperm Hidx)
      as (copy' & Mc' & res' & fin' & hc' & Hscan & Hcons' & Hperm' & Hlen'
          & Hseeds' & Hsub & Hprog & Hpriv & Hfin & Hempty & Hmany' & Hsame
          & Hpeel).
    exists copy', Mc', res', fin', hc'. split_and!; try done.
    - intros j k Hj Hload. apply elem_of_cons in Hj as [->|Hj].
      + rewrite Hload in Hc. simpl in Hc. lia.
      + by apply (Hpriv j).
    - intros Hf. by apply Hfin in Hf.
    - intros Hf. by apply Hfin in Hf.
    - intros _. right. intros ->. unfold load in Hc.
      rewrite filter_nil in Hc. simpl in Hc. lia.
    - intros HM j Hj. apply elem_of_cons in Hj as [->|Hj].
      + lia.
      + by apply Hsame. }
  assert (count b = 1) as Hone.
  { apply Z.eqb_neq in Hzero. apply Z.ltb_ge in Hmany. lia. }
  assert (NoDup Mc) as HndMc.
  { rewrite <- Hperm in Hnd. by apply NoDup_app in Hnd as (_ & _ & ?). }
  assert (load (length (buckets copy)) (seeds copy) Mc i
          = [cumulative_key b]) as Hloadi.
  { rewrite Hone in Hc.
    destruct (load _ _ Mc i) as [|j [|]] eqn:Hload; simpl in Hc; try lia.
    rewrite Hx. simpl. by rewrite Z.lxor_0_r. }
  destruct (peel_one _ _ _ _ Hcons Hlk Hone)
    as (HinM & copy1 & b1 & Hrm & Hlk1 & Hc1 & Hseeds1 & Hlen1 & Hcons1).
  rewrite Hrm. cbn [mbind Run_bind]. rewrite Hlk1, Hc1.
  unfold assert_. rewrite orb_true_r. cbn [mbind Run_bind].
  assert (cumulative_key b ∉ res) as Hnew.
  { intros Hin. rewrite <- Hperm in Hnd.
    apply NoDup_app in Hnd as (_ & Hdis & _). by apply (Hdis _ Hin). }
  unfold set_insert. rewrite bool_decide_eq_false_2 by done.
  destruct (IH copy1 (remove_one (cumulative_key b) Mc)
              (res ++ [cumulative_key b]) finished true)
    as (copy' & Mc' & res' & fin' & hc' & Hscan & Hcons' & Hperm' & Hlen'
        & Hseeds' & Hsub & Hprog & Hpriv & Hfin & Hempty & Hmany' & Hsame
        & Hpeel);
    [done| |by rewrite Hlen1|].
  { rewrite <- Hperm, <- app_assoc. simpl.
    apply Permutation_app_head. symmetry. by apply remove_one_perm. }
  pose proof (remove_one_length _ _ HinM) as Hshorter.
  rewrite Hlen1, Hseeds1 in Hpriv, Hempty, Hpeel.
  assert (length Mc' < length Mc)%nat as Hless.
  { destruct Hprog as [[? _]|[-> _]]; lia. }
  exists copy', Mc', res', fin', hc'. split_and!; try done.
  - congruence.
  - congruence.
  - intros k Hk. apply Hsub in Hk. by apply elem_of_remove_one_inv in Hk.
  - left. destruct Hprog as [[? ?]|[-> ->]]; split; try done; lia.
  - intros j k Hj Hload.
    destruct (decide (k = cumulative_key b)) as [->|Hne].
    { intros Hin%Hsub. exact (NoDup_remove_one_notin _ _ HndMc Hin). }
    apply elem_of_cons in Hj as [->|Hj].
    { rewrite Hloadi in Hload. congruence. }
    apply (Hpriv j); [done|]. by apply load_remove_other.
  - intros Hf j Hj. apply elem_of_cons in Hj as [->|Hj].
    + apply (load_nil_sub _ _ (remove_one (cumulative_key b) Mc));
        [done|].
      rewrite load_remove_one, Hloadi.
      destruct (decide _) as [_|Hno].
      * cbn [remove_one]. by rewrite bool_decide_eq_true_2.
      * exfalso. apply Hno.
        assert (cumulative_key b
                ∈ load (length (buckets copy)) (seeds copy) Mc i) as Hk
          by (rewrite Hloadi; by left).
        by apply elem_of_load in Hk as [? _].
    + by apply Hempty.
  - intros _. right. intros ->. by apply elem_of_nil in HinM.
  - intros HM. rewrite HM in Hless. lia.
  - rewrite <- Hpeel. split.
    + by apply (peelable_remove _ _ _ _ i).
    + by apply (peelable_step _ _ _ _ i).
Qed.

(** Fuel beyond the number of keys present suffices to peel a
    consistent instance, whatever the number of seeds. *)
Lemma peel_returns M0 fuel copy Mc res finished has_changed :
  NoDup M0 ->
  consistent copy Mc ->
  res ++ Mc ≡ₚ M0 ->
  (length Mc < fuel)%nat ->
  exists copy' res' finished',
    peel fuel copy res finished has_changed =
      Returns (copy', res', finished').
Proof.
  intros Hnd. revert copy Mc res finished has_changed.
  induction fuel as [|fuel IH];
    intros copy Mc res finished has_changed Hcons Hperm Hfuel; [lia|].
  cbn [peel]. destruct (negb finished && has_changed); [|eauto].
  destruct (scan_progress M0 (seq 0 (length (buckets copy))) copy Mc res
              true false Hnd Hcons Hperm)
    as (copy' & Mc' & res' & fin' & hc' & Hscan & Hcons' & Hperm' & _ & _
        & _ & Hprog & _).
  { apply Forall_forall. intros i Hi%elem_of_seq. lia. }
  rewrite Hscan. cbn [mbind Run_bind].
  destruct Hprog as [[Hlt _]|[_ ->]].
  - apply (IH copy' Mc'); [done|done|lia].
  - destruct fuel; cbn [peel]; rewrite andb_false_r; eauto.
Qed.

(** When every key present has a bucket of its own, one pass takes all
    of them out and a second pass, if one is needed, finds every bucket
    empty. *)
Lemma peel_private fuel st M :
  NoDup M ->
  consistent st M ->
  (forall k, k ∈ M ->
     exists i, load (length (buckets st)) (seeds st) M i = [k]) ->
  exists copy' res',
    peel (S (S fuel)) st [] false true = Returns (copy', res', true) /\
    consistent copy' [] /\ res' ≡ₚ M.
Proof.
  intros Hnd Hcons Hprivate.
  pose proof Hcons as (Hn & _).
  cbn [peel negb andb].
  destruct (scan_progress M (seq 0 (length (buckets st))) st M []
              true false Hnd Hcons (reflexivity _))
    as (copy1 & Mc1 & res1 & fin1 & hc1 & Hscan & Hcons1 & Hperm1 & Hlen1
        & _ & Hsub & Hprog & Hpriv & _).
  { apply Forall_forall. intros i Hi%elem_of_seq. lia. }
  rewrite Hscan. cbn [mbind Run_bind].
  assert (Mc1 = []) as ->.
  { destruct Mc1 as [|k Mc1]; [done|]. exfalso.
    assert (k ∈ M) as HkM by (apply Hsub; by left).
    destruct (Hprivate k HkM) as [i Hload].
    apply (Hpriv i k); [|done|by left].
    apply elem_of_seq. split; [lia|]. simpl.
    assert (k ∈ load (length (buckets st)) (seeds st) M i) as Hk.
    { rewrite Hload. by left. }
    apply elem_of_load in Hk as [Hslot _].
    apply list_elem_of_fmap in Hslot as (seed & -> & _).
    by apply slot_lt. }
  rewrite app_nil_r in Hperm1.
  assert (scan (seq 0 (length (buckets copy1))) copy1 res1 true false
          = Returns (copy1, res1, true, false)) as Hscan2.
  { apply scan_all_zero. intros i Hi%elem_of_seq.
    apply consistent_nil_zero; [done|lia]. }
  assert (forall f, peel f copy1 res1 true false
                    = Returns (copy1, res1, true)) as Hstop.
  { intros f. destruct f; cbn [peel]; done. }
  destruct Hprog as [[_ ->]|[HM ->]].
  - destruct fin1.
    + exists copy1, res1. cbn [peel negb andb]. done.
    + exists copy1, res1. cbn [peel negb andb].
      rewrite Hscan2. cbn [mbind Run_bind]. by rewrite Hstop.
  - subst M.
    assert (fin1 = true) as ->.
    { rewrite scan_all_zero in Hscan.
      - by injection Hscan as _ _ <-.
      - intros i Hi%elem_of_seq.
        apply consistent_nil_zero; [done|lia]. }
    exists copy1, res1. cbn [peel negb andb]. done.
Qed.
End Peel.
End FilterPeel.

Module DictPeel.
Import Dictionary DictSpec DictFacts DictHistory DictInv DictDecode.
Section Peel.
Context {T : Template}.

Lemma load_keys size sds (M : list (Z * Z)) i :
  load size sds M.*1 i = (dload size sds M i).*1.
Proof.
  induction M as [|kv M IH]; [done|].
  rewrite fmap_cons, load_cons, dload_cons.
  destruct (decide _); [|done]. by rewrite fmap_cons, IH.
Qed.

(** The key side of a consistent dictionary is a consistent instance of
    the set variant, holding the keys of the pairs. *)
Lemma key_side_consistent d M :
  consistent d M -> FilterSpec.consistent (key_side d) M.*1.
Proof.
  intros (Hn & Hcap & Hnd & Hcount & Hb).
  unfold FilterSpec.consistent.
  rewrite KeySide.key_side_length, length_fmap.
  split_and!; try done.
  { intros i. cbn [key_side Filter.seeds].
    rewrite load_keys, length_fmap. apply Hcap. }
  intros i b. rewrite KeySide.key_side_lookup.
  destruct (buckets d !! i) as [b0|] eqn:Hlk; [|done].
  intros [= <-]. destruct (Hb _ _ Hlk) as (Hc & Hx & _).
  cbn [key_side Filter.seeds key_bucket Filter.count Filter.cumulative_key].
  rewrite load_keys, length_fmap. done.
Qed.

Lemma dict_peel_returns fuel d M :
  consistent d M ->
  (length M < fuel)%nat ->
  exists d' res' finished',
    peel fuel d [] false true = Returns (d', res', finished').
Proof.
  intros Hcons Hfuel.
  pose proof Hcons as (_ & _ & Hnd & _).
  destruct (FilterPeel.peel_returns M.*1 fuel (key_side d) M.*1 [] false
              true Hnd (key_side_consistent _ _ Hcons) (reflexivity _))
    as (c' & r' & f' & Hp).
  { by rewrite length_fmap. }
  pose proof (KeySide.peel_key_side fuel d [] [] false true) as Hsim.
  rewrite Hp in Hsim.
  destruct (peel fuel d [] false true) as [[[d' res'] fin']| | | |];
    try done.
  eauto.
Qed.

Lemma dict_peel_private fuel d M :
  consistent d M ->
  Z.of_nat (length M) < size_t_mod ->
  (forall kv, kv ∈ M ->
     exists i, dload (length (buckets d)) (seeds d) M i = [kv]) ->
  exists d' res',
    peel (S (S fuel)) d [] false true = Returns (d', res', true) /\
    res' ≡ₚ M.
Proof.
  intros Hcons Hfew Hprivate.
  pose proof Hcons as (_ & _ & Hnd & _).
  destruct (FilterPeel.peel_private fuel (key_side d) M.*1 Hnd
              (key_side_consistent _ _ Hcons))
    as (c' & r' & Hp & Hc' & _).
  { intros k (kv & -> & Hkv)%list_elem_of_fmap.
    destruct (Hprivate kv Hkv) as [i Hload]. exists i.
    rewrite KeySide.key_side_length.
    cbn [key_side Filter.seeds]. by rewrite load_keys, Hload. }
  pose proof (KeySide.peel_key_side (S (S fuel)) d [] [] false true) as Hsim.
  rewrite Hp in Hsim.
  destruct (peel (S (S fuel)) d [] false true)
    as [[[d' res'] fin']| | | |] eqn:Hdp; try done.
  destruct Hsim as [fres' [= -> _ <-]].
  exists d', res'. split; [done|].
  destruct (dict_peel_consistent M _ d M [] false true _ _ _ Hcons
              (reflexivity _) Hdp) as (Mc' & Hcons' & Hperm).
  pose proof (Permutation_length Hperm) as Hlen.
  rewrite length_app in Hlen.
  destruct Hc' as (_ & _ & Hcount0 & _).
  destruct Hcons' as (_ & _ & _ & Hcount' & _).
  change (ibd_count d' = 0) in Hcount0.
  rewrite Hcount0, Z.mod_small in Hcount' by lia.
  destruct Mc' as [|kv Mc']; [|simpl in Hcount'; lia].
  by rewrite app_nil_r in Hperm.
Qed.
End Peel.
End DictPeel.

Section PeelTheorems.
Context {T : Template}.

(** X13 (decoding always returns within capacity): after any history
    that inserts no key already present and never holds
    [2 ^ bits BucketCounter] keys at once, [listAll] returns (it fails no
    assertion and is never undefined), with fuel for one pass more than
    there are keys present, whatever the number of seeds; and it leaves
    the instance as it was.  The one exception is a history that ends
    with more keys than the result container can reserve: [listAll] then
    throws from [reserve].  Both variants. *)
Theorem decode_returns_within_capacity
    (sds : list Z) (size fuel : nat)
    (ops : list Op) (tr : Trace Filter.IBF Z)
    (dops : list DOp) (dtr : Trace Dictionary.IBD (Z * Z)) :
  (FilterHistory.replay ops (FilterHistory.start sds size) = Returns tr ->
   fresh tr = true ->
   Z.of_nat (peak tr) < counter_mod ->
   (length (present tr) < fuel)%nat ->
   if Filter.size (state tr) <=? Z.of_N max_reserve
   then exists r, Filter.listAll fuel (state tr) = Returns (r, state tr)
   else Filter.listAll fuel (state tr) = Throws)
  /\
  (DictHistory.replay dops (DictHistory.start sds size) = Returns dtr ->
   fresh dtr = true ->
   Z.of_nat (peak dtr) < counter_mod ->
   (length (present dtr) < fuel)%nat ->
   if Dictionary.size (state dtr) <=? Z.of_N max_reserve
   then exists r,
          Dictionary.listAll fuel (state dtr) = Returns (r, state dtr)
   else Dictionary.listAll fuel (state dtr) = Throws).
Proof.
  split.
  - intros Hrun Hfresh Hcap Hfuel.
    unfold Filter.listAll, reserve, Filter.size.
    destruct (Filter.ibf_count (state tr) <=? Z.of_N max_reserve);
      [|done].
    cbn [mbind Run_bind].
    assert (exists copy' res' fin',
              Filter.peel fuel (state tr) [] false true
                = Returns (copy', res', fin')) as (c' & r' & f' & ->).
    { destruct (decide (size = 0%nat)) as [->|Hsize].
      - destruct (FilterDecode.replay_empty_directory _ _ _ Hrun)
          as [Hbs _]; simpl; try done.
        destruct fuel as [|fuel]; [lia|].
        cbn [Filter.peel negb andb]. rewrite Hbs.
        cbn [length seq Filter.scan mbind Run_bind].
        destruct fuel; cbn [Filter.peel negb andb]; eauto.
      - destruct (FilterQuery.replay_consistent _ _ _ Hrun) as [Hcons _];
          simpl; [by apply FilterInv.consistent_empty|lia|done|].
        apply (FilterPeel.peel_returns (present tr) fuel _ (present tr));
          try done.
        apply (FilterDecode.replay_NoDup _ _ _ Hrun Hfresh). simpl.
        constructor. }
    cbn [mbind Run_bind]. destruct (negb f' || _); eauto.
  - intros Hrun Hfresh Hcap Hfuel.
    unfold Dictionary.listAll, reserve, Dictionary.size.
    destruct (Dictionary.ibd_count (state dtr) <=? Z.of_N max_reserve);
      [|done].
    cbn [mbind Run_bind].
    assert (exists d' res' fin',
              Dictionary.peel fuel (state dtr) [] false true
                = Returns (d', res', fin')) as (c' & r' & f' & ->).
    { destruct (decide (size = 0%nat)) as [->|Hsize].
      - destruct (DictReplay.dict_replay_empty_directory _ _ _ Hrun)
          as [Hbs _]; simpl; try done.
        destruct fuel as [|fuel]; [lia|].
        cbn [Dictionary.peel negb andb]. rewrite Hbs.
        cbn [length seq Dictionary.scan mbind Run_bind].
        destruct fuel; cbn [Dictionary.peel negb andb]; eauto.
      - apply (DictPeel.dict_peel_returns fuel _ (present dtr)); [|done].
        apply (DictReplay.dict_replay_consistent _ _ _ Hrun Hfresh); simpl;
          [by apply DictInv.dict_consistent_empty|lia|done]. }
    cbn [mbind Run_bind]. destruct (negb f' || _); eauto.
Qed.

(** X14 (when decoding succeeds): after any such history on a directory
    of non-zero size, if every key present has a bucket that no other
    key present probes, [listAll] succeeds within two passes and lists
    exactly the keys present (the pairs present, in the dictionary);
    except that it throws from [reserve] when there are more of them
    than the result container can reserve. *)
Theorem decode_succeeds_with_private_buckets
    (sds : list Z) (size fuel : nat)
    (ops : list Op) (tr : Trace Filter.IBF Z)
    (dops : list DOp) (dtr : Trace Dictionary.IBD (Z * Z)) :
  size <> 0%nat ->
  (FilterHistory.replay ops (FilterHistory.start sds size) = Returns tr ->
   fresh tr = true ->
   Z.of_nat (peak tr) < counter_mod ->
   (forall k, k ∈ present tr ->
      exists i, load size sds (present tr) i = [k]) ->
   if Filter.size (state tr) <=? Z.of_N max_reserve
   then exists res,
          Filter.listAll (S (S fuel)) (state tr)
            = Returns (Some res, state tr) /\
          res ≡ₚ present tr
   else Filter.listAll (S (S fuel)) (state tr) = Throws)
  /\
  (DictHistory.replay dops (DictHistory.start sds size) = Returns dtr ->
   fresh dtr = true ->
   Z.of_nat (peak dtr) < counter_mod ->
   (forall kv, kv ∈ present dtr ->
      exists i, dload size sds (present dtr) i = [kv]) ->
   if Dictionary.size (state dtr) <=? Z.of_N max_reserve
   then exists res,
          Dictionary.listAll (S (S fuel)) (state dtr)
            = Returns (Some res, state dtr) /\
          res ≡ₚ present dtr
   else Dictionary.listAll (S (S fuel)) (state dtr) = Throws).
Proof.
  intros Hsize. split.
  - intros Hrun Hfresh Hcap Hprivate.
    destruct (Z.leb_spec (Filter.size (state tr)) (Z.of_N max_reserve))
      as [Hres|Hres].
    2: { unfold Filter.listAll, reserve. unfold Filter.size in Hres.
         by rewrite (proj2 (Z.leb_gt _ _) Hres). }
    destruct (FilterQuery.replay_consistent _ _ _ Hrun) as [Hcons Hseeds];
      simpl; [by apply FilterInv.consistent_empty|lia|done|].
    pose proof (FilterLength.replay_directory_size _ _ _ Hrun) as Hlen.
    pose proof (FilterQuery.replay_present_peak _ _ _ Hrun) as Hpk.
    pose proof counter_mod_bounds as Hcm.
    simpl in Hlen, Hseeds, Hpk. rewrite length_replicate in Hlen.
    destruct (FilterPeel.peel_private fuel (state tr) (present tr))
      as (c' & res & Hp & _ & Hperm); [|done| |].
    { apply (FilterDecode.replay_NoDup _ _ _ Hrun Hfresh). simpl.
      constructor. }
    { by rewrite Hlen, Hseeds. }
    exists res. split; [|done].
    unfold Filter.listAll, reserve. unfold Filter.size in Hres.
    rewrite (proj2 (Z.leb_le _ _) Hres), Hp.
    cbn [mbind Run_bind negb orb].
    rewrite (FilterInv.consistent_count _ _ Hcons) by lia.
    by rewrite (Permutation_length Hperm), Z.eqb_refl.
  - intros Hrun Hfresh Hcap Hprivate.
    destruct (Z.leb_spec (Dictionary.size (state dtr))
                (Z.of_N max_reserve)) as [Hres|Hres].
    2: { unfold Dictionary.listAll, reserve.
         unfold Dictionary.size in Hres.
         by rewrite (proj2 (Z.leb_gt _ _) Hres). }
    assert (DictSpec.consistent (state dtr) (present dtr)) as Hcons.
    { apply (DictReplay.dict_replay_consistent _ _ _ Hrun Hfresh); simpl;
        [by apply DictInv.dict_consistent_empty|lia|done]. }
    destruct (DictLength.dict_replay_frame _ _ _ Hrun) as [Hlen Hseeds].
    pose proof (DictReplay.dict_replay_present_peak _ _ _ Hrun) as Hpk.
    pose proof counter_mod_bounds as Hcm.
    simpl in Hlen, Hseeds, Hpk. rewrite length_replicate in Hlen.
    destruct (DictPeel.dict_peel_private fuel (state dtr) (present dtr))
      as (d' & res & Hp & Hperm); [done|lia| |].
    { by rewrite Hlen, Hseeds. }
    exists res. split; [|done].
    unfold Dictionary.listAll, reserve. unfold Dictionary.size in Hres.
    rewrite (proj2 (Z.leb_le _ _) Hres), Hp.
    cbn [mbind Run_bind negb orb].
    rewrite (DictInv.dict_consistent_count _ _ Hcons) by lia.
    by rewrite (Permutation_length Hperm), Z.eqb_refl.
Qed.
End PeelTheorems.

(** ** A freshly constructed instance *)

Module FreshInstance.
Section Fresh.
Context {T : Template}.

Lemma contains_loop_zeroed key sds size might :
  size <> 0%nat ->
  Filter.contains_loop key sds (replicate size (Filter.mkBucket 0 0)) might
    = Returns (if might then might_exist else not_found).
Proof.
  intros Hn. revert might.
  induction sds as [|seed rest IH]; intros might;
    cbn [Filter.contains_loop]; [done|].
  unfold Filter.hash_index. rewrite length_replicate.
  rewrite hash_index_of_pos by done. cbn [mbind Run_bind].
  rewrite lookup_replicate_2 by (by apply slot_lt).
  cbn. rewrite IH. by rewrite orb_false_r.
Qed.

Lemma dict_scan_all_zero idxs copy res finished has_changed :
  (forall i, i ∈ idxs ->
     exists b, Dictionary.buckets copy !! i = Some b /\
               Dictionary.count b = 0) ->
  Dictionary.scan idxs copy res finished has_changed =
    Returns (copy, res, finished, has_changed).
Proof.
  induction idxs as [|i idxs IH]; intros Hall; cbn [Dictionary.scan];
    [done|].
  destruct (Hall i) as (b & -> & ->); [by left|].
  cbn. apply IH. intros j Hj. apply Hall. by right.
Qed.

Lemma listAll_zeroed fuel sds size :
  Filter.listAll (S fuel) (FilterHistory.empty sds size)
    = Returns (Some [], FilterHistory.empty sds size).
Proof.
  unfold Filter.listAll. cbn [FilterHistory.empty Filter.ibf_count].
  rewrite reserve_zero. cbn [mbind Run_bind Filter.peel negb andb].
  rewrite FilterPeel.scan_all_zero.
  - cbn [mbind Run_bind]. by destruct fuel.
  - intros i Hi%elem_of_seq. exists (Filter.mkBucket 0 0). split; [|done].
    apply lookup_replicate. split; [done|].
    cbn in Hi. rewrite length_replicate in Hi. lia.
Qed.

Lemma dict_listAll_zeroed fuel sds size :
  Dictionary.listAll (S fuel) (DictHistory.empty sds size)
    = Returns (Some [], DictHistory.empty sds size).
Proof.
  unfold Dictionary.listAll. cbn [DictHistory.empty Dictionary.ibd_count].
  rewrite reserve_zero. cbn [mbind Run_bind Dictionary.peel negb andb].
  rewrite dict_scan_all_zero.
  - cbn [mbind Run_bind]. by destruct fuel.
  - intros i Hi%elem_of_seq. exists (Dictionary.mkBucket 0 0 0).
    split; [|done].
    apply lookup_replicate. split; [done|].
    cbn in Hi. rewrite length_replicate in Hi. lia.
Qed.
End Fresh.
End FreshInstance.

Section FreshTheorem.
Context {T : Template}.

(** X15 (a fresh instance holds nothing): on an instance as the
    constructor leaves it, [listAll] returns the empty list; and if the
    directory size is not zero then, for every key, [contains] answers
    [not_found], [get] returns [nullopt], and [remove] returns false and
    changes nothing.  Both variants. *)
Theorem fresh_instance_holds_nothing
    (sds : list Z) (size fuel : nat) (key : Z) :
  (Filter.listAll (S fuel) (FilterHistory.empty sds size)
     = Returns (Some [], FilterHistory.empty sds size) /\
   Dictionary.listAll (S fuel) (DictHistory.empty sds size)
     = Returns (Some [], DictHistory.empty sds size))
  /\
  (size <> 0%nat ->
   Filter.contains key (FilterHistory.empty sds size) = Returns not_found /\
   Filter.remove key (FilterHistory.empty sds size)
     = Returns (false, FilterHistory.empty sds size) /\
   Dictionary.contains key (DictHistory.empty sds size)
     = Returns not_found /\
   Dictionary.get key (DictHistory.empty sds size) = Returns None /\
   Dictionary.remove key (DictHistory.empty sds size)
     = Returns (false, DictHistory.empty sds size)).
Proof.
  split.
  - split.
    + apply FreshInstance.listAll_zeroed.
    + apply FreshInstance.dict_listAll_zeroed.
  - intros Hsize.
    assert (Filter.contains key (FilterHistory.empty sds size)
            = Returns not_found) as Hc.
    { by apply FreshInstance.contains_loop_zeroed. }
    assert (Dictionary.contains key (DictHistory.empty sds size)
            = Returns not_found) as Hdc.
    { by rewrite <- KeySide.contains_key_side, KeySide.key_side_empty. }
    assert (Dictionary.get key (DictHistory.empty sds size) = Returns None)
      as Hget.
    { pose proof (DictLookup.get_loop_contains_loop key
                    (Dictionary.seeds (DictHistory.empty sds size))
                    (Dictionary.buckets (DictHistory.empty sds size))
                    false) as H.
      unfold Dictionary.contains in Hdc. unfold Dictionary.get.
      destruct (Dictionary.get_loop key _ _) as [[v|]| | | |]; try done;
        congruence. }
    split_and!; try done.
    + unfold Filter.remove. by rewrite Hc.
    + unfold Dictionary.remove. by rewrite Hget.
Qed.
End FreshTheorem.

(** ** Queries of the dictionary within capacity *)

Section DictContains.
Context {T : Template}.

(** X17 ([contains] of the dictionary within capacity): after any
    history of the dictionary that inserts no key already present and
    never holds [2 ^ bits BucketCounter] keys at once, on a directory of
    non-zero size with at least one seed, [contains] never answers
    [not_found] for a key that is present; and if one of the buckets
    probed for a key has count 1, it answers [exists] when the key is
    present and [not_found] when it is not. *)
Theorem dictionary_contains_within_capacity
    (sds : list Z) (size : nat) (dops : list DOp)
    (dtr : Trace Dictionary.IBD (Z * Z)) (key : Z) :
  size <> 0%nat ->
  sds <> [] ->
  DictHistory.replay dops (DictHistory.start sds size) = Returns dtr ->
  fresh dtr = true ->
  Z.of_nat (peak dtr) < counter_mod ->
  (key ∈ (present dtr).*1 ->
   exists c, Dictionary.contains key (state dtr) = Returns c /\
             c <> not_found)
  /\
  ((exists seed b, seed ∈ sds /\
      Dictionary.buckets (state dtr)
        !! slot (Dictionary.directory_size (state dtr)) key seed = Some b /\
      Dictionary.count b = 1) ->
   Dictionary.contains key (state dtr) =
     Returns (if bool_decide (key ∈ (present dtr).*1)
              then exists_ else not_found)).
Proof.
  intros Hsize Hsds Hrun Hfresh Hcap.
  assert (DictSpec.consistent (state dtr) (present dtr)) as Hcons.
  { apply (DictReplay.dict_replay_consistent _ _ _ Hrun Hfresh); simpl;
      [by apply DictInv.dict_consistent_empty|lia|done]. }
  destruct (DictLength.dict_replay_frame _ _ _ Hrun) as [Hlen Hseeds].
  simpl in Hseeds.
  pose proof (DictPeel.key_side_consistent _ _ Hcons) as Hfc.
  rewrite <- KeySide.contains_key_side. unfold Filter.contains.
  split.
  - intros Hin.
    apply (FilterQuery.contains_loop_present key (key_side (state dtr))
             (present dtr).*1); [done|done|done|].
    left. cbn [key_side Filter.seeds]. by rewrite Hseeds.
  - intros (seed & b & Hseed & Hlk & Hone).
    apply (FilterQuery.contains_loop_singleton key (key_side (state dtr))
             (present dtr).*1); [done|done|].
    exists seed, (key_bucket b).
    cbn [key_side Filter.seeds]. rewrite Hseeds. split; [done|].
    split; [|done].
    change (Filter.buckets (key_side (state dtr)))
      with (key_bucket <$> Dictionary.buckets (state dtr)).
    rewrite length_fmap, list_lookup_fmap.
    unfold Dictionary.directory_size in Hlk. by rewrite Hlk.
Qed.
End DictContains.

(** ** The hash functor of the test-suite *)

Section Murmur.

Lemma small_bit x n : 0 <= x < 2 ^ 64 -> 64 <= n -> Z.testbit x n = false.
Proof.
  intros Hx Hn. rewrite <- (Z.mod_small x (2 ^ 64)) by done.
  apply Z.mod_pow2_bits_high. lia.
Qed.

Lemma xorshift33_range x :
  0 <= x < 2 ^ 64 -> 0 <= Z.lxor x (Z.shiftr x 33) < 2 ^ 64.
Proof.
  intros Hx.
  assert (Z.lxor x (Z.shiftr x 33) = Z.lxor x (Z.shiftr x 33) mod 2 ^ 64)
    as ->.
  { apply Z.bits_inj'. intros n Hn.
    destruct (decide (n < 64)) as [Hlt|Hge].
    - by rewrite Z.mod_pow2_bits_low.
    - rewrite Z.mod_pow2_bits_high by lia.
      rewrite Z.lxor_spec, Z.shiftr_spec by done.
      rewrite !small_bit by (done || lia). done. }
  apply Z.mod_pos_bound. lia.
Qed.

Lemma xorshift33_involutive x :
  0 <= x < 2 ^ 64 ->
  Z.lxor (Z.lxor x (Z.shiftr x 33))
         (Z.shiftr (Z.lxor x (Z.shiftr x 33)) 33) = x.
Proof.
  intros Hx. apply Z.bits_inj'. intros n Hn.
  rewrite !Z.lxor_spec, !Z.shiftr_spec, !Z.lxor_spec, !Z.shiftr_spec by lia.
  rewrite (small_bit x (n + 33 + 33)) by (done || lia).
  destruct (Z.testbit x n), (Z.testbit x (n + 33)); done.
Qed.

Lemma xorshift33_injective x y :
  0 <= x < 2 ^ 64 -> 0 <= y < 2 ^ 64 ->
  Z.lxor x (Z.shiftr x 33) = Z.lxor y (Z.shiftr y 33) -> x = y.
Proof.
  intros Hx Hy Heq.
  rewrite <- (xorshift33_involutive x Hx), <- (xorshift33_involutive y Hy).
  by rewrite Heq.
Qed.

Lemma odd_multiplier_injective c cinv x y :
  (c * cinv) mod 2 ^ 64 = 1 ->
  0 <= x < 2 ^ 64 -> 0 <= y < 2 ^ 64 ->
  (x * c) mod 2 ^ 64 = (y * c) mod 2 ^ 64 -> x = y.
Proof.
  intros Hinv Hx Hy Heq.
  assert (forall z, 0 <= z < 2 ^ 64 ->
            ((z * c) mod 2 ^ 64 * cinv) mod 2 ^ 64 = z) as Hback.
  { intros z Hz. rewrite Z.mul_mod_idemp_l by lia.
    rewrite <- Z.mul_assoc, <- Z.mul_mod_idemp_r, Hinv by lia.
    rewrite Z.mul_1_r. by apply Z.mod_small. }
  rewrite <- (Hback x Hx), <- (Hback y Hy). by rewrite Heq.
Qed.

(** X16 (the hash of the test-suite): on 64-bit keys [Murmur3Finalizer]
    yields 64-bit values and is one-to-one, so two different keys never
    have the same hash; and it sends 0 to 0. *)
Theorem Murmur3Finalizer_one_to_one (x y : Z) :
  0 <= x < 2 ^ 64 ->
  0 <= y < 2 ^ 64 ->
  0 <= Murmur3Finalizer x < 2 ^ 64 /\
  (Murmur3Finalizer x = Murmur3Finalizer y -> x = y) /\
  Murmur3Finalizer 0 = 0.
Proof.
  intros Hx Hy. unfold Murmur3Finalizer. cbv zeta.
  split; [|split].
  - apply xorshift33_range. apply Z.mod_pos_bound. lia.
  - intros Heq.
    apply xorshift33_injective in Heq;
      [|apply Z.mod_pos_bound; lia|apply Z.mod_pos_bound; lia].
    apply (odd_multiplier_injective _ 0x9cb4b2f8129337db) in Heq;
      [|reflexivity|by apply xorshift33_range, Z.mod_pos_bound
       |by apply xorshift33_range, Z.mod_pos_bound].
    apply xorshift33_injective in Heq;
      [|apply Z.mod_pos_bound; lia|apply Z.mod_pos_bound; lia].
    apply (odd_multiplier_injective _ 0x4f74430c22a54005) in Heq;
      [|reflexivity|by apply xorshift33_range|by apply xorshift33_range].
    by apply xorshift33_injective in Heq.
  - reflexivity.
Qed.
End Murmur.

(** ** The further properties at the scenarios of the test-suite *)

Lemma directory_size_and_seeds_never_change_witness :
  (Filter.directory_size (state trace_small)
     = Filter.directory_size (FilterHistory.empty some_seeds 10) /\
   Filter.listSeeds (state trace_small)
     = Filter.listSeeds (FilterHistory.empty some_seeds 10)) /\
  (Dictionary.directory_size (state dtrace_small)
     = Dictionary.directory_size (DictHistory.empty some_seeds 10) /\
   Dictionary.listSeeds (state dtrace_small)
     = Dictionary.listSeeds (DictHistory.empty some_seeds 10)).
Proof.
  split.
  - apply (proj1 (@directory_size_and_seeds_never_change Tests ops_small
                    (FilterHistory.start some_seeds 10) trace_small
                    dops_small (DictHistory.start some_seeds 10)
                    dtrace_small)).
    vm_compute. reflexivity.
  - apply (proj2 (@directory_size_and_seeds_never_change Tests ops_small
                    (FilterHistory.start some_seeds 10) trace_small
                    dops_small (DictHistory.start some_seeds 10)
                    dtrace_small)).
    vm_compute. reflexivity.
Defined.

Lemma size_counts_present_keys_witness :
  Filter.size (state trace_small) = Z.of_nat (length (present trace_small)) /\
  Dictionary.size (state dtrace_small)
    = Z.of_nat (length (present dtrace_small)).
Proof.
  split.
  - apply (proj1 (@size_counts_present_keys Tests some_seeds 10 ops_small
                    trace_small dops_small dtrace_small));
      vm_compute; reflexivity.
  - apply (proj2 (@size_counts_present_keys Tests some_seeds 10 ops_small
                    trace_small dops_small dtrace_small));
      vm_compute; reflexivity.
Defined.

Lemma get_exact_within_capacity_witness :
  (forall v, Dictionary.get (T:=Tests) 84 (state dtrace_small)
               = Returns (Some v) ->
             (84, v) ∈ present dtrace_small)
  /\
  ((exists seed b, seed ∈ some_seeds /\
      Dictionary.buckets (state dtrace_small)
        !! slot (T:=Tests) (Dictionary.directory_size (state dtrace_small))
             84 seed = Some b /\
      Dictionary.count b = 1) ->
   (forall v, (84, v) ∈ present dtrace_small ->
              Dictionary.get (T:=Tests) 84 (state dtrace_small)
                = Returns (Some v)) /\
   (84 ∉ (present dtrace_small).*1 ->
    Dictionary.get (T:=Tests) 84 (state dtrace_small) = Returns None)).
Proof.
  apply (@get_exact_within_capacity Tests some_seeds 10 dops_small
           dtrace_small 84); vm_compute; reflexivity.
Defined.

Lemma absent_key_is_never_removed_witness :
  ((exists c, Filter.contains (T:=Tests) 1337 (state trace_small)
                = Returns c /\ c <> exists_) /\
   Filter.remove (T:=Tests) 1337 (state trace_small)
     = Returns (false, state trace_small))
  /\
  (Dictionary.get (T:=Tests) 1337 (state dtrace_small) = Returns None /\
   Dictionary.remove (T:=Tests) 1337 (state dtrace_small)
     = Returns (false, state dtrace_small)).
Proof.
  split.
  - apply (proj1 (@absent_key_is_never_removed Tests some_seeds 10 1337
                    ops_small trace_small dops_small dtrace_small
                    ltac:(discriminate))).
    + vm_compute. reflexivity.
    + vm_compute. reflexivity.
    + apply (bool_decide_unpack _). vm_compute. exact I.
  - apply (proj2 (@absent_key_is_never_removed Tests some_seeds 10 1337
                    ops_small trace_small dops_small dtrace_small
                    ltac:(discriminate))).
    + vm_compute. reflexivity.
    + vm_compute. reflexivity.
    + apply (bool_decide_unpack _). vm_compute. exact I.
Defined.

Lemma dictionary_decode_terminates_witness :
  (@ndebug Narrow = false /\
   Dictionary.listAll (T:=Narrow) 507 overcounted_dict = AssertFailed) \/
  exists r, Dictionary.listAll (T:=Narrow) 507 overcounted_dict
            = Returns (r, overcounted_dict).
Proof.
  apply (@dictionary_decode_terminates Narrow overcounted_dict 507).
  - split.
    + apply (bool_decide_unpack _). vm_compute. exact I.
    + vm_compute. split; [discriminate|reflexivity].
  - vm_compute. reflexivity.
  - vm_compute. lia.
Defined.

Lemma dictionary_insert_does_not_overwrite_witness :
  exists d1 d2,
    Dictionary.insert (T:=Tests) 7 1 (DictHistory.empty some_seeds 10)
      = Returns d1 /\
    Dictionary.insert (T:=Tests) 7 2 d1 = Returns d2 /\
    Dictionary.size d2 = 2 /\
    Dictionary.get (T:=Tests) 7 d2 = Returns None /\
    Dictionary.contains (T:=Tests) 7 d2 = Returns might_exist /\
    Dictionary.remove (T:=Tests) 7 d2 = Returns (false, d2) /\
    (forall fuel,
       Dictionary.listAll (T:=Tests) (S fuel) d2 = Returns (None, d2)).
Proof.
  apply (@dictionary_insert_does_not_overwrite Tests some_seeds 10 7 1 2).
  - lia.
  - discriminate.
Defined.

Lemma insertion_order_is_irrelevant_witness :
  insert_all (T:=Tests) [1; 1337; 86] (FilterHistory.empty some_seeds 10)
    = insert_all (T:=Tests) [86; 1; 1337] (FilterHistory.empty some_seeds 10)
  /\
  put_all (T:=Tests) test_data (DictHistory.empty some_seeds 10)
    = put_all (T:=Tests) (reverse test_data)
        (DictHistory.empty some_seeds 10).
Proof.
  split.
  - apply (proj1 (@insertion_order_is_irrelevant Tests [1; 1337; 86]
                    [86; 1; 1337] (FilterHistory.empty some_seeds 10)
                    test_data (reverse test_data)
                    (DictHistory.empty some_seeds 10))).
    apply (bool_decide_unpack _). vm_compute. exact I.
  - apply (proj2 (@insertion_order_is_irrelevant Tests [1; 1337; 86]
                    [86; 1; 1337] (FilterHistory.empty some_seeds 10)
                    test_data (reverse test_data)
                    (DictHistory.empty some_seeds 10))).
    symmetry. apply reverse_Permutation.
Defined.

Lemma remove_and_insert_are_inverse_witness :
  (forall st1 st2,
     Filter.insert (T:=Tests) 84 (state trace_small) = Returns st1 ->
     Filter.remove (T:=Tests) 84 st1 = Returns (true, st2) ->
     st2 = state trace_small)
  /\
  (forall st1,
     Filter.remove (T:=Tests) 84 (state trace_small) = Returns (true, st1) ->
     Filter.insert (T:=Tests) 84 st1 = Returns (state trace_small)).
Proof.
  apply (@remove_and_insert_are_inverse Tests 84 (state trace_small)).
  split.
  - apply (bool_decide_unpack _). vm_compute. exact I.
  - vm_compute. split; [discriminate|reflexivity].
Defined.

Lemma same_keys_same_instance_witness :
  state trace_small = state trace_direct /\
  state dtrace_small = state dtrace_direct.
Proof.
  split.
  - apply (proj1 (@same_keys_same_instance Tests some_seeds 10
                    ops_small ops_direct trace_small trace_direct
                    dops_small dops_direct dtrace_small dtrace_direct));
      vm_compute; reflexivity.
  - apply (proj2 (@same_keys_same_instance Tests some_seeds 10
                    ops_small ops_direct trace_small trace_direct
                    dops_small dops_direct dtrace_small dtrace_direct));
      vm_compute; reflexivity.
Defined.

Lemma decode_returns_within_capacity_witness :
  (exists r, Filter.listAll (T:=Tests) 2 (state trace_small)
             = Returns (r, state trace_small)) /\
  (exists r, Dictionary.listAll (T:=Tests) 2 (state dtrace_small)
             = Returns (r, state dtrace_small)).
Proof.
  split.
  - refine (proj1 (@decode_returns_within_capacity Tests some_seeds 10 2
                     ops_small trace_small dops_small dtrace_small)
              _ _ _ _);
      first [vm_compute; reflexivity|vm_compute; lia].
  - refine (proj2 (@decode_returns_within_capacity Tests some_seeds 10 2
                     ops_small trace_small dops_small dtrace_small)
              _ _ _ _);
      first [vm_compute; reflexivity|vm_compute; lia].
Defined.

Lemma decode_succeeds_with_private_buckets_witness :
  (exists res,
     Filter.listAll (T:=Tests) 2 (state trace_small)
       = Returns (Some res, state trace_small) /\
     res ≡ₚ present trace_small)
  /\
  (exists res,
     Dictionary.listAll (T:=Tests) 2 (state dtrace_small)
       = Returns (Some res, state dtrace_small) /\
     res ≡ₚ present dtrace_small).
Proof.
  split.
  - refine (proj1 (@decode_succeeds_with_private_buckets Tests some_seeds
                     10 0 ops_small trace_small dops_small dtrace_small
                     ltac:(discriminate))
              _ _ _ _);
      try (vm_compute; reflexivity).
    intros k Hk. change (present trace_small) with [84] in *.
    apply list_elem_of_singleton in Hk. subst k.
    exists (slot (T:=Tests) 10 84 0x9e3779b97f4a7c15).
    vm_compute. reflexivity.
  - refine (proj2 (@decode_succeeds_with_private_buckets Tests some_seeds
                     10 0 ops_small trace_small dops_small dtrace_small
                     ltac:(discriminate))
              _ _ _ _);
      try (vm_compute; reflexivity).
    intros kv Hkv. change (present dtrace_small) with [(84, 85)] in *.
    apply list_elem_of_singleton in Hkv. subst kv.
    exists (slot (T:=Tests) 10 84 0x9e3779b97f4a7c15).
    vm_compute. reflexivity.
Defined.

Lemma fresh_instance_holds_nothing_witness :
  Filter.contains (T:=Tests) 1337 (FilterHistory.empty some_seeds 10)
    = Returns not_found /\
  Filter.remove (T:=Tests) 1337 (FilterHistory.empty some_seeds 10)
    = Returns (false, FilterHistory.empty some_seeds 10) /\
  Dictionary.contains (T:=Tests) 1337 (DictHistory.empty some_seeds 10)
    = Returns not_found /\
  Dictionary.get (T:=Tests) 1337 (DictHistory.empty some_seeds 10)
    = Returns None /\
  Dictionary.remove (T:=Tests) 1337 (DictHistory.empty some_seeds 10)
    = Returns (false, DictHistory.empty some_seeds 10).
Proof.
  apply (proj2 (@fresh_instance_holds_nothing Tests some_seeds 10 0 1337)).
  discriminate.
Defined.

Lemma Murmur3Finalizer_one_to_one_witness :
  0 <= Murmur3Finalizer 1337 < 2 ^ 64 /\
  (Murmur3Finalizer 1337 = Murmur3Finalizer 84 -> 1337 = 84) /\
  Murmur3Finalizer 0 = 0.
Proof.
  apply (Murmur3Finalizer_one_to_one 1337 84); lia.
Defined.

Lemma dictionary_contains_within_capacity_witness :
  (84 ∈ (present dtrace_small).*1 ->
   exists c, Dictionary.contains (T:=Tests) 84 (state dtrace_small)
               = Returns c /\ c <> not_found)
  /\
  ((exists seed b, seed ∈ some_seeds /\
      Dictionary.buckets (state dtrace_small)
        !! slot (T:=Tests) (Dictionary.directory_size (state dtrace_small))
             84 seed = Some b /\
      Dictionary.count b = 1) ->
   Dictionary.contains (T:=Tests) 84 (state dtrace_small) =
     Returns (if bool_decide (84 ∈ (present dtrace_small).*1)
              then exists_ else not_found)).
Proof.
  apply (@dictionary_contains_within_capacity Tests some_seeds 10 dops_small
           dtrace_small 84).
  - lia.
  - discriminate.
  - vm_compute. reflexivity.
  - reflexivity.
  - vm_compute. reflexivity.
Defined.

(** ** What [insert] and [remove] do to each bucket *)

Lemma alter_all_compose {A} (f g : A -> A) idxs (bs : list A) :
  NoDup idxs ->
  alter_all f idxs (alter_all g idxs bs) =
    alter_all (fun b => f (g b)) idxs bs.
Proof.
  intros Hnd. apply list_eq. intros i.
  rewrite !alter_all_lookup by done.
  case_bool_decide; [|done]. by destruct (bs !! i).
Qed.

Lemma alter_all_ext {A} (f g : A -> A) idxs (bs : list A) :
  NoDup idxs -> Forall (fun b => f b = g b) bs ->
  alter_all f idxs bs = alter_all g idxs bs.
Proof.
  intros Hnd Hfg. apply list_eq. intros i.
  rewrite !alter_all_lookup by done.
  case_bool_decide; [|done].
  destruct (bs !! i) as [b|] eqn:Hlk; [|done]. simpl. f_equal.
  by apply (Forall_lookup_1 _ _ _ _ Hfg Hlk).
Qed.

Lemma alter_all_id {A} (f : A -> A) idxs (bs : list A) :
  NoDup idxs -> Forall (fun b => f b = b) bs -> alter_all f idxs bs = bs.
Proof.
  intros Hnd Hf. apply list_eq. intros i.
  rewrite alter_all_lookup by done.
  case_bool_decide; [|done].
  destruct (bs !! i) as [b|] eqn:Hlk; [|done]. simpl. f_equal.
  by apply (Forall_lookup_1 _ _ _ _ Hf Hlk).
Qed.

Lemma elem_of_touched_nil `{T : Template} size key sds i :
  i ∈ touched size key sds [] <-> i ∈ slots size key sds.
Proof.
  rewrite elem_of_touched. split; [by intros [? _]|].
  intros Hi. split; [done|apply not_elem_of_nil].
Qed.

Module FilterBuckets.
Import Filter FilterSpec FilterFacts FilterHistory FilterInv.
Section Buckets.
Context {T : Template}.

Lemma insert_buckets key st :
  directory_size st <> 0%nat ->
  exists st',
    insert key st = Returns st' /\
    seeds st' = seeds st /\
    directory_size st' = directory_size st /\
    size st' = (size st + 1) mod size_t_mod /\
    forall i,
      buckets st' !! i =
        if bool_decide (i ∈ slots (directory_size st) key (seeds st))
        then bump key <$> buckets st !! i else buckets st !! i.
Proof.
  intros Hn. rewrite insert_returns by done. eexists. split; [done|].
  unfold directory_size, size. cbn [seeds buckets ibf_count].
  rewrite alter_all_length. split_and!; try done.
  intros i. rewrite alter_all_lookup by apply NoDup_touched.
  by rewrite (bool_decide_ext _ _ (elem_of_touched_nil _ key _ i)).
Qed.

Lemma remove_buckets key st st' :
  remove key st = Returns (true, st') ->
  seeds st' = seeds st /\
  directory_size st' = directory_size st /\
  size st' = (size st - 1) mod size_t_mod /\
  forall i,
    buckets st' !! i =
      if bool_decide (i ∈ slots (directory_size st) key (seeds st))
      then drop key <$> buckets st !! i else buckets st !! i.
Proof.
  intros Hrm.
  destruct (decide (length (buckets st) = 0%nat)) as [Hz|Hn].
  { destruct st as [sds bs c]. cbn [buckets] in Hz.
    apply nil_length_inv in Hz. subst bs.
    destruct sds as [|seed rest]; by cbn in Hrm. }
  unfold remove in Hrm.
  destruct (contains key _) as [c| | | |]; cbn [mbind Run_bind] in Hrm;
    try done.
  destruct (decide (c = exists_)); [|done].
  rewrite remove_loop_touched in Hrm by done.
  destruct (ndebug || _); [|done].
  cbn [mbind Run_bind mret Run_ret] in Hrm. injection Hrm as <-.
  unfold directory_size, size. cbn [seeds buckets ibf_count].
  rewrite alter_all_length. split_and!; try done.
  intros i. rewrite alter_all_lookup by apply NoDup_touched.
  by rewrite (bool_decide_ext _ _ (elem_of_touched_nil _ key _ i)).
Qed.

(** [n + 1] insertions of one key. *)
Lemma insert_all_same n key st :
  length (buckets st) <> 0%nat ->
  insert_all (replicate (S n) key) st =
    Returns (mkIBF (seeds st)
               (alter_all
                  (fun b =>
                     mkBucket
                       (if Nat.even (S n) then cumulative_key b
                        else Z.lxor (cumulative_key b) key)
                       ((count b + Z.of_nat (S n)) mod counter_mod))
                  (touched (length (buckets st)) key (seeds st) [])
                  (buckets st))
               ((ibf_count st + Z.of_nat (S n)) mod size_t_mod)).
Proof.
  revert st. induction n as [|n IH]; intros st Hn.
  - cbn [replicate insert_all]. rewrite insert_returns by done. done.
  - change (replicate (S (S n)) key) with (key :: replicate (S n) key).
    cbn [insert_all]. rewrite insert_returns by done.
    cbn [mbind Run_bind].
    rewrite IH by (cbn [buckets]; by rewrite alter_all_length).
    cbn [buckets seeds ibf_count]. rewrite alter_all_length.
    f_equal. f_equal.
    + rewrite alter_all_compose by apply NoDup_touched.
      apply alter_all_ext; [apply NoDup_touched|].
      apply Forall_forall. intros b _.
      unfold bump. cbn [cumulative_key count]. f_equal.
      * rewrite (Nat.even_succ (S n)), <- Nat.negb_even.
        destruct (Nat.even (S n)); cbn [negb]; [done|].
        by rewrite Z.lxor_assoc, Z.lxor_nilpotent, Z.lxor_0_r.
      * rewrite Zplus_mod_idemp_l. f_equal. lia.
    + rewrite Zplus_mod_idemp_l. f_equal. lia.
Qed.

Lemma counter_mod_even : Nat.even (Z.to_nat counter_mod) = true.
Proof.
  assert (counter_mod = 2 * 2 ^ (bits BucketCounter - 1)) as ->.
  { unfold counter_mod. rewrite <- Z.pow_succ_r.
    - f_equal. lia.
    - destruct BucketCounter; simpl; lia. }
  rewrite Z2Nat.inj_mul by (try apply Z.pow_nonneg; lia).
  by rewrite Nat.even_mul.
Qed.

Lemma insert_counter_mod_times key st :
  well_typed st ->
  directory_size st <> 0%nat ->
  insert_all (replicate (Z.to_nat counter_mod) key) st =
    Returns (mkIBF (seeds st) (buckets st)
               ((ibf_count st + counter_mod) mod size_t_mod)).
Proof.
  intros [Hwf _] Hn. pose proof counter_mod_bounds as Hcm.
  pose proof counter_mod_even as Heven.
  destruct (Z.to_nat counter_mod) as [|n] eqn:Hnat; [lia|].
  rewrite insert_all_same by done. rewrite Heven.
  rewrite <- Hnat, Z2Nat.id by lia. do 2 f_equal.
  apply alter_all_id; [apply NoDup_touched|].
  eapply Forall_impl; [exact Hwf|]. intros [ck c] Hc.
  cbn [cumulative_key count] in *. f_equal.
  rewrite <- Zplus_mod_idemp_r, Z_mod_same_full, Z.add_0_r.
  by apply Z.mod_small.
Qed.
End Buckets.
End FilterBuckets.

Module DictBuckets.
Import Dictionary DictSpec DictFacts DictHistory DictInv.
Section Buckets.
Context {T : Template}.

Lemma dict_insert_buckets key value st :
  directory_size st <> 0%nat ->
  exists st',
    insert key value st = Returns st' /\
    seeds st' = seeds st /\
    directory_size st' = directory_size st /\
    size st' = (size st + 1) mod size_t_mod /\
    forall i,
      buckets st' !! i =
        if bool_decide (i ∈ slots (directory_size st) key (seeds st))
        then bump key value <$> buckets st !! i else buckets st !! i.
Proof.
  intros Hn. rewrite DictAlgebra.dict_insert_returns by done.
  eexists. split; [done|].
  unfold directory_size, size. cbn [seeds buckets ibd_count].
  rewrite alter_all_length. split_and!; try done.
  intros i. rewrite alter_all_lookup by apply NoDup_touched.
  by rewrite (bool_decide_ext _ _ (elem_of_touched_nil _ key _ i)).
Qed.

Lemma dict_remove_buckets key st st' :
  remove key st = Returns (true, st') ->
  exists value,
    get key st = Returns (Some value) /\
    seeds st' = seeds st /\
    directory_size st' = directory_size st /\
    size st' = (size st - 1) mod size_t_mod /\
    forall i,
      buckets st' !! i =
        if bool_decide (i ∈ slots (directory_size st) key (seeds st))
        then drop key value <$> buckets st !! i else buckets st !! i.
Proof.
  intros Hrm.
  destruct (decide (length (buckets st) = 0%nat)) as [Hz|Hn].
  { destruct st as [sds bs c]. cbn [buckets] in Hz.
    apply nil_length_inv in Hz. subst bs.
    destruct sds as [|seed rest]; by cbn in Hrm. }
  unfold remove in Hrm.
  destruct (get key st) as [[v|]| | | |]; cbn [mbind Run_bind] in Hrm;
    try done.
  rewrite dict_remove_loop_touched in Hrm by done.
  destruct (ndebug || _); [|done].
  cbn [mbind Run_bind mret Run_ret] in Hrm. injection Hrm as <-.
  exists v. split; [done|].
  unfold directory_size, size. cbn [seeds buckets ibd_count].
  rewrite alter_all_length. split_and!; try done.
  intros i. rewrite alter_all_lookup by apply NoDup_touched.
  by rewrite (bool_decide_ext _ _ (elem_of_touched_nil _ key _ i)).
Qed.
End Buckets.
End DictBuckets.

Section BucketTheorems.
Context {T : Template}.

(** X18 (each probed bucket exactly once): on a directory of non-zero
    size [insert(key)] returns; it adds 1 to the count and XORs [key]
    into the key of every bucket that some seed sends [key] to, once for
    each such bucket however many seeds send [key] there; it leaves every
    other bucket, the seeds and the directory size as they were and adds
    1 to [size()].  A [remove(key)] that returns true undoes exactly
    that.  Counts wrap around at the width of their type. *)
Theorem insert_and_remove_touch_each_probed_bucket_once
    (key : Z) (st : Filter.IBF) :
  Filter.directory_size st <> 0%nat ->
  (exists st',
     Filter.insert key st = Returns st' /\
     Filter.seeds st' = Filter.seeds st /\
     Filter.directory_size st' = Filter.directory_size st /\
     Filter.size st' = (Filter.size st + 1) mod size_t_mod /\
     forall i,
       Filter.buckets st' !! i =
         if bool_decide
              (i ∈ slots (Filter.directory_size st) key (Filter.seeds st))
         then Filter.bump key <$> Filter.buckets st !! i
         else Filter.buckets st !! i)
  /\
  (forall st',
     Filter.remove key st = Returns (true, st') ->
     Filter.seeds st' = Filter.seeds st /\
     Filter.directory_size st' = Filter.directory_size st /\
     Filter.size st' = (Filter.size st - 1) mod size_t_mod /\
     forall i,
       Filter.buckets st' !! i =
         if bool_decide
              (i ∈ slots (Filter.directory_size st) key (Filter.seeds st))
         then Filter.drop key <$> Filter.buckets st !! i
         else Filter.buckets st !! i).
Proof.
  intros Hn. split.
  - by apply FilterBuckets.insert_buckets.
  - apply FilterBuckets.remove_buckets.
Qed.

(** X19 (the same for the dictionary): [insert(key, value)] XORs [key]
    into the key and [value] into the value of every probed bucket and
    adds one to its count, once per bucket; a [remove(key)] that returns
    true XORs out of exactly those buckets the key and the value that
    [get(key)] returned, and takes one from their counts.  No other
    bucket changes. *)
Theorem dictionary_insert_and_remove_touch_each_probed_bucket_once
    (key value : Z) (d : Dictionary.IBD) :
  Dictionary.directory_size d <> 0%nat ->
  (exists d',
     Dictionary.insert key value d = Returns d' /\
     Dictionary.seeds d' = Dictionary.seeds d /\
     Dictionary.directory_size d' = Dictionary.directory_size d /\
     Dictionary.size d' = (Dictionary.size d + 1) mod size_t_mod /\
     forall i,
       Dictionary.buckets d' !! i =
         if bool_decide
              (i ∈ slots (Dictionary.directory_size d) key
                     (Dictionary.seeds d))
         then (fun b =>
                 Dictionary.mkBucket
                   (Z.lxor (Dictionary.cumulative_key b) key)
                   (Z.lxor (Dictionary.cumulative_value b) value)
                   ((Dictionary.count b + 1) mod counter_mod))
                <$> Dictionary.buckets d !! i
         else Dictionary.buckets d !! i)
  /\
  (forall d',
     Dictionary.remove key d = Returns (true, d') ->
     exists v,
       Dictionary.get key d = Returns (Some v) /\
       Dictionary.seeds d' = Dictionary.seeds d /\
       Dictionary.directory_size d' = Dictionary.directory_size d /\
       Dictionary.size d' = (Dictionary.size d - 1) mod size_t_mod /\
       forall i,
         Dictionary.buckets d' !! i =
           if bool_decide
                (i ∈ slots (Dictionary.directory_size d) key
                       (Dictionary.seeds d))
           then (fun b =>
                   Dictionary.mkBucket
                     (Z.lxor (Dictionary.cumulative_key b) key)
                     (Z.lxor (Dictionary.cumulative_value b) v)
                     ((Dictionary.count b - 1) mod counter_mod))
                  <$> Dictionary.buckets d !! i
           else Dictionary.buckets d !! i).
Proof.
  intros Hn. split.
  - by apply DictBuckets.dict_insert_buckets.
  - apply DictBuckets.dict_remove_buckets.
Qed.

(** X20 (a counter that goes all the way round): inserting one key
    [2 ^ bits BucketCounter] times into an instance whose counts are
    values of their types brings every bucket back to what it was
    before, key and count, while [size()] has grown by that number: the
    instance then answers every query on its buckets as if none of these
    insertions had been made. *)
Theorem bucket_counters_wrap_to_where_they_were
    (key : Z) (st : Filter.IBF) :
  FilterSpec.well_typed st ->
  Filter.directory_size st <> 0%nat ->
  insert_all (replicate (Z.to_nat counter_mod) key) st =
    Returns (Filter.mkIBF (Filter.seeds st) (Filter.buckets st)
               ((Filter.ibf_count st + counter_mod) mod size_t_mod)).
Proof. apply FilterBuckets.insert_counter_mod_times. Qed.
End BucketTheorems.

Lemma insert_and_remove_touch_each_probed_bucket_once_witness :
  (exists st',
     Filter.insert (T:=Tests) 84 (state trace_small) = Returns st' /\
     Filter.seeds st' = Filter.seeds (state trace_small) /\
     Filter.directory_size st' = Filter.directory_size (state trace_small) /\
     Filter.size st' = (Filter.size (state trace_small) + 1) mod size_t_mod /\
     forall i,
       Filter.buckets st' !! i =
         if bool_decide
              (i ∈ slots (T:=Tests) (Filter.directory_size (state trace_small))
                     84 (Filter.seeds (state trace_small)))
         then Filter.bump (T:=Tests) 84
                <$> Filter.buckets (state trace_small) !! i
         else Filter.buckets (state trace_small) !! i)
  /\
  (forall st',
     Filter.remove (T:=Tests) 84 (state trace_small) = Returns (true, st') ->
     Filter.seeds st' = Filter.seeds (state trace_small) /\
     Filter.directory_size st' = Filter.directory_size (state trace_small) /\
     Filter.size st' = (Filter.size (state trace_small) - 1) mod size_t_mod /\
     forall i,
       Filter.buckets st' !! i =
         if bool_decide
              (i ∈ slots (T:=Tests) (Filter.directory_size (state trace_small))
                     84 (Filter.seeds (state trace_small)))
         then Filter.drop (T:=Tests) 84
                <$> Filter.buckets (state trace_small) !! i
         else Filter.buckets (state trace_small) !! i).
Proof.
  apply (@insert_and_remove_touch_each_probed_bucket_once Tests 84
           (state trace_small)).
  vm_compute. discriminate.
Defined.

Lemma dictionary_insert_and_remove_touch_each_probed_bucket_once_witness :
  (exists d',
     Dictionary.insert (T:=Tests) 84 85 (state dtrace_small) = Returns d' /\
     Dictionary.seeds d' = Dictionary.seeds (state dtrace_small) /\
     Dictionary.directory_size d'
       = Dictionary.directory_size (state dtrace_small) /\
     Dictionary.size d'
       = (Dictionary.size (state dtrace_small) + 1) mod size_t_mod /\
     forall i,
       Dictionary.buckets d' !! i =
         if bool_decide
              (i ∈ slots (T:=Tests)
                     (Dictionary.directory_size (state dtrace_small)) 84
                     (Dictionary.seeds (state dtrace_small)))
         then (fun b =>
                 Dictionary.mkBucket
                   (Z.lxor (Dictionary.cumulative_key b) 84)
                   (Z.lxor (Dictionary.cumulative_value b) 85)
                   ((Dictionary.count b + 1) mod counter_mod (T:=Tests)))
                <$> Dictionary.buckets (state dtrace_small) !! i
         else Dictionary.buckets (state dtrace_small) !! i)
  /\
  (exists d' v,
     Dictionary.remove (T:=Tests) 84 (state dtrace_small)
       = Returns (true, d') /\
     Dictionary.get (T:=Tests) 84 (state dtrace_small) = Returns (Some v) /\
     Dictionary.seeds d' = Dictionary.seeds (state dtrace_small) /\
     Dictionary.directory_size d'
       = Dictionary.directory_size (state dtrace_small) /\
     Dictionary.size d'
       = (Dictionary.size (state dtrace_small) - 1) mod size_t_mod /\
     forall i,
       Dictionary.buckets d' !! i =
         if bool_decide
              (i ∈ slots (T:=Tests)
                     (Dictionary.directory_size (state dtrace_small)) 84
                     (Dictionary.seeds (state dtrace_small)))
         then (fun b =>
                 Dictionary.mkBucket
                   (Z.lxor (Dictionary.cumulative_key b) 84)
                   (Z.lxor (Dictionary.cumulative_value b) v)
                   ((Dictionary.count b - 1) mod counter_mod (T:=Tests)))
                <$> Dictionary.buckets (state dtrace_small) !! i
         else Dictionary.buckets (state dtrace_small) !! i).
Proof.
  destruct (@dictionary_insert_and_remove_touch_each_probed_bucket_once
              Tests 84 85 (state dtrace_small)) as [Hins Hrm];
    [vm_compute; discriminate|].
  split; [exact Hins|].
  eexists. edestruct Hrm as (v & Hv); [vm_compute; reflexivity|].
  exists v. split; [vm_compute; reflexivity|exact Hv].
Defined.

Lemma bucket_counters_wrap_to_where_they_were_witness :
  insert_all (T:=Narrow) (replicate (Z.to_nat (@counter_mod Narrow)) 7)
    (FilterHistory.empty some_seeds 10) =
  Returns (Filter.mkIBF (Filter.seeds (FilterHistory.empty some_seeds 10))
             (Filter.buckets (FilterHistory.empty some_seeds 10))
             ((Filter.ibf_count (FilterHistory.empty some_seeds 10)
               + @counter_mod Narrow) mod size_t_mod)).
Proof.
  apply (@bucket_counters_wrap_to_where_they_were Narrow 7
           (FilterHistory.empty some_seeds 10)).
  - split.
    + apply (bool_decide_unpack _). vm_compute. exact I.
    + vm_compute. split; [discriminate|reflexivity].
  - vm_compute. discriminate.
Defined.

(** ** What a query answers for a key that is present *)

Module FilterAnswer.
Import Filter FilterSpec FilterFacts FilterHistory FilterInv FilterQuery.
Section Answer.
Context {T : Template}.

Lemma contains_present key st M :
  consistent st M -> seeds st <> [] -> key ∈ M ->
  contains key st =
    Returns (if bool_decide
                  (Exists (fun seed =>
                     load (length (buckets st)) (seeds st) M
                       (slot (length (buckets st)) key seed) = [key])
                     (seeds st))
             then exists_ else might_exist).
Proof.
  intros Hcons Hsds Hin. pose proof Hcons as (Hn & _ & _ & Hb).
  case_bool_decide as Hex.
  - apply Exists_exists in Hex as (seed & Hseed & Hload).
    unfold contains.
    rewrite (contains_loop_singleton key st M); [|done|done|].
    + by rewrite bool_decide_eq_true_2.
    + pose proof (slot_lt (length (buckets st)) key seed Hn) as Hlt.
      destruct (lookup_lt_is_Some_2 _ _ Hlt) as [b Hlk].
      exists seed, b. split; [done|]. split; [done|].
      destruct (Hb _ _ Hlk) as [-> _]. by rewrite Hload.
  - destruct (contains_loop_present key st M (seeds st) false Hcons Hin)
      as (c & Hc & Hne); [done|by left|].
    unfold contains. rewrite Hc. f_equal.
    destruct c; [done|done|]. exfalso. apply Hex.
    apply contains_loop_exists in Hc as (seed & b & Hseed & Hlk & Hone & Hk).
    apply Exists_exists. exists seed. split; [done|].
    destruct (Hb _ _ Hlk) as [Hc Hx]. rewrite Hone in Hc.
    destruct (load _ _ M _) as [|j [|]] eqn:Hload; simpl in Hc; try lia.
    simpl in Hx. rewrite Z.lxor_0_r in Hx. congruence.
Qed.
End Answer.
End FilterAnswer.

Module DictAnswer.
Import Dictionary DictSpec DictFacts DictHistory DictInv DictDecode.
Section Answer.
Context {T : Template}.

Lemma get_present key v st M :
  consistent st M -> (key, v) ∈ M ->
  get key st =
    Returns (if bool_decide
                  (Exists (fun seed =>
                     dload (length (buckets st)) (seeds st) M
                       (slot (length (buckets st)) key seed) = [(key, v)])
                     (seeds st))
             then Some v else None).
Proof.
  intros Hcons Hin. pose proof Hcons as (Hn & _ & _ & _ & Hb).
  case_bool_decide as Hex.
  - apply Exists_exists in Hex as (seed & Hseed & Hload).
    unfold get. apply (get_loop_singleton key v st M); [done|done|done|].
    pose proof (slot_lt (length (buckets st)) key seed Hn) as Hlt.
    destruct (lookup_lt_is_Some_2 _ _ Hlt) as [b Hlk].
    exists seed, b. split; [done|]. split; [done|].
    destruct (Hb _ _ Hlk) as (-> & _). by rewrite Hload.
  - destruct (get_loop_total key (seeds st) (buckets st) Hn) as [[w|] Hget];
      [|done].
    exfalso. apply Hex. unfold get.
    pose proof Hget as Hsome.
    apply get_loop_some in Hsome
      as (seed & b & Hseed & Hlk & Hone & Hk & Hv).
    apply Exists_exists. exists seed. split; [done|].
    destruct (Hb _ _ Hlk) as (Hc & Hx & Hxv). rewrite Hone in Hc.
    destruct (singleton_load (dload (length (buckets st)) (seeds st) M
                (slot (length (buckets st)) key seed))) as [kv Hload];
      [lia|].
    rewrite Hload. f_equal.
    assert ((key, v) ∈ dload (length (buckets st)) (seeds st) M
               (slot (length (buckets st)) key seed)) as Hmem.
    { apply elem_of_dload. split; [|done]. cbn [fst].
      apply list_elem_of_fmap. by exists seed. }
    rewrite Hload in Hmem. by apply list_elem_of_singleton in Hmem.
Qed.
End Answer.
End DictAnswer.

Section AnswerTheorem.
Context {T : Template}.

(** X21 (the answer for a key that is present): after any history that
    never holds [2 ^ bits BucketCounter] keys at once, on a directory of
    non-zero size with at least one seed, [contains(key)] for a key that
    is present answers [exists] if some bucket probed for [key] is probed
    for no other key present, and [might_exist] if there is no such
    bucket.  In the dictionary, after a history that inserts no key
    already present, [get(key)] returns the value of [key] in the first
    case and [nullopt] in the second. *)
Theorem answer_for_a_present_key
    (sds : list Z) (size : nat) (key value : Z)
    (ops : list Op) (tr : Trace Filter.IBF Z)
    (dops : list DOp) (dtr : Trace Dictionary.IBD (Z * Z)) :
  size <> 0%nat ->
  sds <> [] ->
  (FilterHistory.replay ops (FilterHistory.start sds size) = Returns tr ->
   Z.of_nat (peak tr) < counter_mod ->
   key ∈ present tr ->
   Filter.contains key (state tr) =
     Returns (if bool_decide
                   (Exists (fun seed =>
                      load size sds (present tr) (slot size key seed)
                        = [key]) sds)
              then exists_ else might_exist))
  /\
  (DictHistory.replay dops (DictHistory.start sds size) = Returns dtr ->
   fresh dtr = true ->
   Z.of_nat (peak dtr) < counter_mod ->
   (key, value) ∈ present dtr ->
   Dictionary.get key (state dtr) =
     Returns (if bool_decide
                   (Exists (fun seed =>
                      dload size sds (present dtr) (slot size key seed)
                        = [(key, value)]) sds)
              then Some value else None)).
Proof.
  intros Hsize Hsds. split.
  - intros Hrun Hcap Hin.
    destruct (FilterQuery.replay_consistent _ _ _ Hrun) as [Hcons Hseeds];
      simpl; [by apply FilterInv.consistent_empty|lia|done|].
    pose proof (FilterLength.replay_directory_size _ _ _ Hrun) as Hlen.
    simpl in Hlen, Hseeds. rewrite length_replicate in Hlen.
    rewrite (FilterAnswer.contains_present key _ _ Hcons); [|congruence|done].
    by rewrite Hlen, Hseeds.
  - intros Hrun Hfresh Hcap Hin.
    assert (DictSpec.consistent (state dtr) (present dtr)) as Hcons.
    { apply (DictReplay.dict_replay_consistent _ _ _ Hrun Hfresh); simpl;
        [by apply DictInv.dict_consistent_empty|lia|done]. }
    destruct (DictLength.dict_replay_frame _ _ _ Hrun) as [Hlen Hseeds].
    simpl in Hlen, Hseeds. rewrite length_replicate in Hlen.
    rewrite (DictAnswer.get_present key value _ _ Hcons Hin).
    by rewrite Hlen, Hseeds.
Qed.
End AnswerTheorem.

Lemma answer_for_a_present_key_witness :
  Filter.contains (T:=Tests) 84 (state trace_small) =
    Returns (if bool_decide
                  (Exists (fun seed =>
                     load (T:=Tests) 10 some_seeds (present trace_small)
                       (slot (T:=Tests) 10 84 seed) = [84]) some_seeds)
             then exists_ else might_exist)
  /\
  Dictionary.get (T:=Tests) 84 (state dtrace_small) =
    Returns (if bool_decide
                  (Exists (fun seed =>
                     dload (T:=Tests) 10 some_seeds (present dtrace_small)
                       (slot (T:=Tests) 10 84 seed) = [(84, 85)]) some_seeds)
             then Some 85 else None).
Proof.
  split.
  - apply (proj1 (@answer_for_a_present_key Tests some_seeds 10 84 85
                    ops_small trace_small dops_small dtrace_small
                    ltac:(discriminate) ltac:(discriminate))).
    + vm_compute. reflexivity.
    + vm_compute. reflexivity.
    + apply (bool_decide_unpack _). vm_compute. exact I.
  - apply (proj2 (@answer_for_a_present_key Tests some_seeds 10 84 85
                    ops_small trace_small dops_small dtrace_small
                    ltac:(discriminate) ltac:(discriminate))).
    + vm_compute. reflexivity.
    + reflexivity.
    + vm_compute. reflexivity.
    + apply (bool_decide_unpack _). vm_compute. exact I.
Defined.

(** ** Exactly when decoding succeeds *)

Module FilterOutcome.
Import Filter FilterSpec FilterFacts FilterHistory FilterInv FilterQuery
  FilterLength FilterDecode FilterPeel.
Section Outcome.
Context {T : Template}.

(** How the peeling loop ends on a consistent copy: with [finished] set
    and every bucket empty, or with [finished] unset, keys left, and no
    bucket that holds exactly one of them. *)
Lemma peel_outcome M0 fuel copy Mc res finished has_changed :
  NoDup M0 ->
  consistent copy Mc ->
  res ++ Mc ≡ₚ M0 ->
  (length Mc < fuel)%nat ->
  (negb finished && has_changed = false ->
   (finished = true ->
    forall i, (i < length (buckets copy))%nat ->
      load (length (buckets copy)) (seeds copy) Mc i = []) /\
   (finished = false ->
    Mc <> [] /\
    forall i, (i < length (buckets copy))%nat ->
      length (load (length (buckets copy)) (seeds copy) Mc i) <> 1%nat)) ->
  exists copy' Mc' res' finished',
    peel fuel copy res finished has_changed =
      Returns (copy', res', finished') /\
    consistent copy' Mc' /\ res' ++ Mc' ≡ₚ M0 /\
    length (buckets copy') = length (buckets copy) /\
    seeds copy' = seeds copy /\
    (peelable (length (buckets copy)) (seeds copy) Mc <->
     peelable (length (buckets copy)) (seeds copy) Mc') /\
    (finished' = true ->
     forall i, (i < length (buckets copy))%nat ->
       load (length (buckets copy)) (seeds copy) Mc' i = []) /\
    (finished' = false ->
     Mc' <> [] /\
     forall i, (i < length (buckets copy))%nat ->
       length (load (length (buckets copy)) (seeds copy) Mc' i) <> 1%nat).
Proof.
  intros Hnd. revert copy Mc res finished has_changed.
  induction fuel as [|fuel IH];
    intros copy Mc res finished has_changed Hcons Hperm Hfuel Hsettled;
    [lia|].
  cbn [peel]. destruct (negb finished && has_changed) eqn:Hcond.
  2:{ destruct (Hsettled eq_refl) as [Hfin Hstuck].
      exists copy, Mc, res, finished. split_and!; done. }
  clear Hsettled.
  destruct (scan_progress M0 (seq 0 (length (buckets copy))) copy Mc res
              true false Hnd Hcons Hperm)
    as (copy1 & Mc1 & res1 & fin1 & hc1 & Hscan & Hcons1 & Hperm1 & Hlen1
        & Hseeds1 & Hsub & Hprog & _ & _ & Hempty & Hmany & Hsame & Hpeel).
  { apply Forall_forall. intros i Hi%elem_of_seq. lia. }
  rewrite Hscan. cbn [mbind Run_bind].
  assert (forall i, (i < length (buckets copy))%nat ->
            i ∈ seq 0 (length (buckets copy))) as Hseq.
  { intros i Hi. apply elem_of_seq. lia. }
  destruct Hprog as [[Hlt ->]|[-> ->]].
  - destruct (IH copy1 Mc1 res1 fin1 true Hcons1 Hperm1)
      as (copy' & Mc' & res' & fin' & Hp & Hcons' & Hperm' & Hlen' & Hseeds'
          & Hpeel' & Hfin' & Hstuck'); [lia| |].
    { rewrite Hlen1, Hseeds1. intros Hc. rewrite andb_true_r in Hc.
      apply negb_false_iff in Hc. subst fin1. split; [|done].
      intros _ i Hi. by apply Hempty, Hseq. }
    rewrite Hlen1, Hseeds1 in Hpeel', Hfin', Hstuck'.
    exists copy', Mc', res', fin'. split_and!; try done; try congruence.
    by rewrite Hpeel.
  - exists copy1, Mc, res1, fin1.
    assert (peel fuel copy1 res1 fin1 false = Returns (copy1, res1, fin1))
      as ->.
    { destruct fuel; cbn [peel]; by rewrite andb_false_r. }
    split_and!; try done.
    + intros -> i Hi. by apply Hempty, Hseq.
    + intros ->. destruct (Hmany eq_refl) as [?|HMc]; [done|].
      split; [done|]. intros i Hi. by apply Hsame, Hseq.
Qed.

(** The verdict of the peeling loop on a consistent instance: it
    leaves no key exactly when the keys can be peeled, and it ends with
    [finished] unset only if it leaves keys. *)
Lemma peel_verdict fuel st M :
  NoDup M ->
  consistent st M ->
  (length M < fuel)%nat ->
  exists copy' Mc' res' finished',
    peel fuel st [] false true = Returns (copy', res', finished') /\
    consistent copy' Mc' /\ res' ++ Mc' ≡ₚ M /\
    (peelable (length (buckets st)) (seeds st) M <-> Mc' = []) /\
    (finished' = false -> Mc' <> []).
Proof.
  intros Hnd Hcons Hfuel. pose proof Hcons as (Hn & _).
  destruct (peel_outcome M fuel st M [] false true Hnd Hcons
              (reflexivity _) Hfuel)
    as (copy' & Mc' & res' & fin' & Hp & Hcons' & Hperm' & _ & _ & Hpeel
        & Hfin & Hstuck); [done|].
  exists copy', Mc', res', fin'. split_and!; try done.
  - rewrite Hpeel. split; [|intros ->; constructor].
    intros HpM. destruct Mc' as [|k Mc']; [done|]. exfalso.
    revert HpM. apply peelable_stuck; [done|]. intros i.
    destruct (decide (i < length (buckets st))%nat) as [Hi|Hi].
    + destruct fin'.
      * by rewrite Hfin.
      * by apply Hstuck.
    + rewrite load_outside; [done|done|lia].
  - intros Hf. by apply Hstuck.
Qed.

(** [listAll] on a consistent instance whose count has not wrapped and
    can be reserved returns the keys exactly when they can be peeled. *)
Lemma listAll_outcome fuel st M :
  NoDup M ->
  consistent st M ->
  Z.of_nat (length M) < size_t_mod ->
  ibf_count st <= Z.of_N max_reserve ->
  (length M < fuel)%nat ->
  (peelable (length (buckets st)) (seeds st) M ->
   exists res, listAll fuel st = Returns (Some res, st) /\ res ≡ₚ M) /\
  (~ peelable (length (buckets st)) (seeds st) M ->
   listAll fuel st = Returns (None, st)).
Proof.
  intros Hnd Hcons Hfew Hres Hfuel.
  pose proof (consistent_count _ _ Hcons Hfew) as Hcount.
  destruct (peel_verdict fuel st M Hnd Hcons Hfuel)
    as (copy' & Mc' & res' & fin' & Hp & _ & Hperm' & Hpeel & Hfin).
  unfold listAll, reserve. rewrite (proj2 (Z.leb_le _ _) Hres), Hp.
  cbn [mbind Run_bind].
  pose proof (Permutation_length Hperm') as Hlen. rewrite length_app in Hlen.
  split.
  - intros HpM. apply Hpeel in HpM. subst Mc'.
    rewrite app_nil_r in Hperm'. exists res'. split; [|done].
    destruct fin'; [|by destruct (Hfin eq_refl)].
    cbn [negb orb]. rewrite Hcount.
    by rewrite (Permutation_length Hperm'), Z.eqb_refl.
  - intros HnM.
    assert (Mc' <> []) as Hne by (intros HM; by apply HnM, Hpeel).
    destruct fin'; [|done]. cbn [negb orb].
    assert ((Z.of_nat (length res') =? ibf_count st) = false) as ->.
    { apply Z.eqb_neq. rewrite Hcount.
      destruct Mc'; [done|]. simpl in Hlen. lia. }
    done.
Qed.
End Outcome.
End FilterOutcome.

Module DictOutcome.
Import Dictionary DictSpec DictFacts DictHistory DictInv DictDecode.
Section Outcome.
Context {T : Template}.

Lemma dict_listAll_outcome fuel d M :
  consistent d M ->
  Z.of_nat (length M) < size_t_mod ->
  ibd_count d <= Z.of_N max_reserve ->
  (length M < fuel)%nat ->
  (peelable (length (buckets d)) (seeds d) M.*1 ->
   exists res, listAll fuel d = Returns (Some res, d) /\ res ≡ₚ M) /\
  (~ peelable (length (buckets d)) (seeds d) M.*1 ->
   listAll fuel d = Returns (None, d)).
Proof.
  intros Hcons Hfew Hres Hfuel. pose proof Hcons as (_ & _ & Hnd & _).
  pose proof (dict_consistent_count _ _ Hcons Hfew) as Hcount.
  destruct (FilterOutcome.peel_verdict fuel (key_side d) M.*1 Hnd
              (DictPeel.key_side_consistent _ _ Hcons))
    as (copy' & Mc' & fres' & fin' & Hp & Hcons' & Hpermf & Hpeel & Hfin).
  { by rewrite length_fmap. }
  rewrite KeySide.key_side_length in Hpeel.
  cbn [key_side Filter.seeds] in Hpeel.
  pose proof (KeySide.peel_key_side fuel d [] [] false true) as Hsim.
  rewrite Hp in Hsim.
  destruct (peel fuel d [] false true) as [[[d' res'] fin'']| | | |] eqn:Hdp;
    try done.
  destruct Hsim as [fres'' [= -> _ <-]].
  destruct (dict_peel_consistent M _ d M [] false true _ _ _ Hcons
              (reflexivity _) Hdp) as (Mcd & Hconsd & Hperm).
  pose proof (Permutation_length Hperm) as Hlen. rewrite length_app in Hlen.
  assert (length Mcd = length Mc') as Hsame.
  { pose proof (Permutation_length Hpermf) as Hlenf.
    rewrite length_app, length_fmap in Hlenf.
    destruct Hcons' as (_ & _ & Hcf & _).
    destruct Hconsd as (_ & _ & _ & Hcd & _).
    cbn [key_side Filter.ibf_count] in Hcf.
    rewrite Z.mod_small in Hcf, Hcd by lia. lia. }
  unfold listAll, reserve. rewrite (proj2 (Z.leb_le _ _) Hres), Hdp.
  cbn [mbind Run_bind].
  split.
  - intros HpM. apply Hpeel in HpM. subst Mc'.
    destruct Mcd; [|done]. rewrite app_nil_r in Hperm.
    exists res'. split; [|done].
    destruct fin'; [|by destruct (Hfin eq_refl)].
    cbn [negb orb]. rewrite Hcount.
    by rewrite (Permutation_length Hperm), Z.eqb_refl.
  - intros HnM.
    assert (Mc' <> []) as Hne by (intros HM; by apply HnM, Hpeel).
    destruct fin'; [|done]. cbn [negb orb].
    assert ((Z.of_nat (length res') =? ibd_count d) = false) as ->.
    { apply Z.eqb_neq. rewrite Hcount.
      destruct Mc'; [done|]. simpl in Hsame. lia. }
    done.
Qed.
End Outcome.
End DictOutcome.

Section OutcomeTheorem.
Context {T : Template}.

(** X22 (exactly when decoding succeeds): after any history that inserts
    no key already present and never holds [2 ^ bits BucketCounter] keys
    at once, on a directory of non-zero size, [listAll] returns the keys
    present (the pairs present, in the dictionary) if the keys can be
    taken out one at a time, each at a moment when some bucket is probed
    for it and for no other key left, and it returns no result if they
    cannot; the order in which the loop visits the buckets makes no
    difference.  The one exception is a history that ends with more keys
    than the result container can reserve: [listAll] then throws from
    [reserve]. *)
Theorem decode_succeeds_iff_peelable
    (sds : list Z) (size fuel : nat)
    (ops : list Op) (tr : Trace Filter.IBF Z)
    (dops : list DOp) (dtr : Trace Dictionary.IBD (Z * Z)) :
  size <> 0%nat ->
  (FilterHistory.replay ops (FilterHistory.start sds size) = Returns tr ->
   fresh tr = true ->
   Z.of_nat (peak tr) < counter_mod ->
   (length (present tr) < fuel)%nat ->
   if Filter.size (state tr) <=? Z.of_N max_reserve
   then
     (peelable size sds (present tr) ->
      exists res,
        Filter.listAll fuel (state tr) = Returns (Some res, state tr) /\
        res ≡ₚ present tr)
     /\
     (~ peelable size sds (present tr) ->
      Filter.listAll fuel (state tr) = Returns (None, state tr))
   else Filter.listAll fuel (state tr) = Throws)
  /\
  (DictHistory.replay dops (DictHistory.start sds size) = Returns dtr ->
   fresh dtr = true ->
   Z.of_nat (peak dtr) < counter_mod ->
   (length (present dtr) < fuel)%nat ->
   if Dictionary.size (state dtr) <=? Z.of_N max_reserve
   then
     (peelable size sds (present dtr).*1 ->
      exists res,
        Dictionary.listAll fuel (state dtr)
          = Returns (Some res, state dtr) /\
        res ≡ₚ present dtr)
     /\
     (~ peelable size sds (present dtr).*1 ->
      Dictionary.listAll fuel (state dtr) = Returns (None, state dtr))
   else Dictionary.listAll fuel (state dtr) = Throws).
Proof.
  intros Hsize. split.
  - intros Hrun Hfresh Hcap Hfuel.
    destruct (Z.leb_spec (Filter.size (state tr)) (Z.of_N max_reserve))
      as [Hres|Hres].
    2: { unfold Filter.listAll, reserve. unfold Filter.size in Hres.
         by rewrite (proj2 (Z.leb_gt _ _) Hres). }
    destruct (FilterQuery.replay_consistent _ _ _ Hrun) as [Hcons Hseeds];
      simpl; [by apply FilterInv.consistent_empty|lia|done|].
    pose proof (FilterLength.replay_directory_size _ _ _ Hrun) as Hlen.
    pose proof (FilterQuery.replay_present_peak _ _ _ Hrun) as Hpk.
    pose proof counter_mod_bounds as Hcm.
    simpl in Hlen, Hseeds, Hpk. rewrite length_replicate in Hlen.
    rewrite <- Hlen, <- Hseeds.
    apply FilterOutcome.listAll_outcome; [|done|lia|done|done].
    apply (FilterDecode.replay_NoDup _ _ _ Hrun Hfresh). simpl.
    constructor.
  - intros Hrun Hfresh Hcap Hfuel.
    destruct (Z.leb_spec (Dictionary.size (state dtr))
                (Z.of_N max_reserve)) as [Hres|Hres].
    2: { unfold Dictionary.listAll, reserve.
         unfold Dictionary.size in Hres.
         by rewrite (proj2 (Z.leb_gt _ _) Hres). }
    assert (DictSpec.consistent (state dtr) (present dtr)) as Hcons.
    { apply (DictReplay.dict_replay_consistent _ _ _ Hrun Hfresh); simpl;
        [by apply DictInv.dict_consistent_empty|lia|done]. }
    destruct (DictLength.dict_replay_frame _ _ _ Hrun) as [Hlen Hseeds].
    pose proof (DictReplay.dict_replay_present_peak _ _ _ Hrun) as Hpk.
    pose proof counter_mod_bounds as Hcm.
    simpl in Hlen, Hseeds, Hpk. rewrite length_replicate in Hlen.
    rewrite <- Hlen, <- Hseeds.
    apply DictOutcome.dict_listAll_outcome; [done|lia|done|done].
Qed.
End OutcomeTheorem.

Lemma decode_succeeds_iff_peelable_witness :
  (exists res,
     Filter.listAll (T:=Tests) 2 (state trace_small)
       = Returns (Some res, state trace_small) /\
     res ≡ₚ present trace_small)
  /\
  (exists res,
     Dictionary.listAll (T:=Tests) 2 (state dtrace_small)
       = Returns (Some res, state dtrace_small) /\
     res ≡ₚ present dtrace_small).
Proof.
  assert (peelable (T:=Tests) 10 some_seeds [84]) as Hpeel.
  { apply (peelable_step (T:=Tests) 10 some_seeds [84] 84
             (slot (T:=Tests) 10 84 0x9e3779b97f4a7c15)).
    - vm_compute. reflexivity.
    - cbn. constructor. }
  split.
  - refine (proj1 (proj1 (@decode_succeeds_iff_peelable Tests some_seeds
                             10 2 ops_small trace_small dops_small
                             dtrace_small ltac:(discriminate))
                      _ _ _ _) Hpeel);
      first [vm_compute; reflexivity|vm_compute; lia].
  - refine (proj1 (proj2 (@decode_succeeds_iff_peelable Tests some_seeds
                             10 2 ops_small trace_small dops_small
                             dtrace_small ltac:(discriminate))
                      _ _ _ _) Hpeel);
      first [vm_compute; reflexivity|vm_compute; lia].
Defined.

(** ** What [contains] answers for a key that is not present *)

Module FilterFalsePositive.
Import Filter FilterSpec FilterFacts FilterHistory FilterInv FilterQuery.
Section Absent.
Context {T : Template}.

Lemma contains_loop_absent key st M sds might :
  consistent st M -> key ∉ M ->
  contains_loop key sds (buckets st) might =
    Returns
      (if bool_decide
            (Forall (fun seed =>
               length (load (length (buckets st)) (seeds st) M
                         (slot (length (buckets st)) key seed)) <> 1%nat)
               sds /\
             (might = true \/
              Exists (fun seed =>
                (2 <= length (load (length (buckets st)) (seeds st) M
                                (slot (length (buckets st)) key seed)))%nat)
                sds))
       then might_exist else not_found).
Proof.
  intros Hcons Hno. pose proof Hcons as (Hn & _ & _ & Hb).
  revert might. induction sds as [|seed rest IH]; intros might.
  { cbn [contains_loop]. f_equal. destruct might.
    - rewrite bool_decide_eq_true_2; [done|]. split; [constructor|by left].
    - rewrite bool_decide_eq_false_2; [done|].
      intros [_ [?|Hex]]; [done|]. by apply Exists_nil in Hex. }
  cbn [contains_loop]. unfold hash_index.
  rewrite hash_index_of_pos by done. cbn [mbind Run_bind].
  pose proof (slot_lt (length (buckets st)) key seed Hn) as Hlt.
  destruct (lookup_lt_is_Some_2 (buckets st) _ Hlt) as [b Hlk].
  rewrite Hlk. destruct (Hb _ _ Hlk) as [Hc Hx].
  destruct (count b =? 1) eqn:Hone.
  - apply Z.eqb_eq in Hone. f_equal.
    rewrite bool_decide_eq_false_2.
    2:{ intros [Hall _]. apply Forall_cons in Hall as [Hhead _]. lia. }
    destruct (load _ _ M _) as [|j [|]] eqn:Hload; simpl in Hc; try lia.
    assert (j ∈ M) as Hj.
    { eapply (elem_of_load _ _ _ _ j). rewrite Hload. by left. }
    rewrite Hx. simpl. rewrite Z.lxor_0_r.
    destruct (key =? j) eqn:Hkj; [|done].
    apply Z.eqb_eq in Hkj. by subst.
  - apply Z.eqb_neq in Hone. rewrite IH. f_equal.
    erewrite bool_decide_ext; [reflexivity|].
    rewrite Forall_cons, Exists_cons, orb_true_iff, Z.ltb_lt.
    intuition lia.
Qed.
End Absent.
End FilterFalsePositive.

Section FalsePositiveTheorem.
Context {T : Template}.

(** X23 (false positives): after any history that never holds
    [2 ^ bits BucketCounter] keys at once, on a directory of non-zero
    size, [contains(key)] for a key that is not present answers
    [might_exist] exactly when none of the buckets probed for [key] is
    probed for exactly one key present and some of them is probed for at
    least two; otherwise it answers [not_found].  The same in the
    dictionary, for histories that insert no key already present. *)
Theorem answer_for_an_absent_key
    (sds : list Z) (size : nat) (key : Z)
    (ops : list Op) (tr : Trace Filter.IBF Z)
    (dops : list DOp) (dtr : Trace Dictionary.IBD (Z * Z)) :
  size <> 0%nat ->
  (FilterHistory.replay ops (FilterHistory.start sds size) = Returns tr ->
   Z.of_nat (peak tr) < counter_mod ->
   key ∉ present tr ->
   Filter.contains key (state tr) =
     Returns
       (if bool_decide
             (Forall (fun seed =>
                length (load size sds (present tr) (slot size key seed))
                  <> 1%nat) sds /\
              Exists (fun seed =>
                (2 <= length (load size sds (present tr)
                                (slot size key seed)))%nat) sds)
        then might_exist else not_found))
  /\
  (DictHistory.replay dops (DictHistory.start sds size) = Returns dtr ->
   fresh dtr = true ->
   Z.of_nat (peak dtr) < counter_mod ->
   key ∉ (present dtr).*1 ->
   Dictionary.contains key (state dtr) =
     Returns
       (if bool_decide
             (Forall (fun seed =>
                length (load size sds (present dtr).*1 (slot size key seed))
                  <> 1%nat) sds /\
              Exists (fun seed =>
                (2 <= length (load size sds (present dtr).*1
                                (slot size key seed)))%nat) sds)
        then might_exist else not_found)).
Proof.
  intros Hsize. split.
  - intros Hrun Hcap Hno.
    destruct (FilterQuery.replay_consistent _ _ _ Hrun) as [Hcons Hseeds];
      simpl; [by apply FilterInv.consistent_empty|lia|done|].
    pose proof (FilterLength.replay_directory_size _ _ _ Hrun) as Hlen.
    simpl in Hlen, Hseeds. rewrite length_replicate in Hlen.
    unfold Filter.contains.
    rewrite (FilterFalsePositive.contains_loop_absent key _ _ _ false Hcons
               Hno).
    rewrite Hlen, Hseeds. f_equal.
    erewrite bool_decide_ext; [reflexivity|]. intuition congruence.
  - intros Hrun Hfresh Hcap Hno.
    assert (DictSpec.consistent (state dtr) (present dtr)) as Hcons.
    { apply (DictReplay.dict_replay_consistent _ _ _ Hrun Hfresh); simpl;
        [by apply DictInv.dict_consistent_empty|lia|done]. }
    destruct (DictLength.dict_replay_frame _ _ _ Hrun) as [Hlen Hseeds].
    simpl in Hlen, Hseeds. rewrite length_replicate in Hlen.
    rewrite <- KeySide.contains_key_side. unfold Filter.contains.
    rewrite (FilterFalsePositive.contains_loop_absent key _ _ _ false
               (DictPeel.key_side_consistent _ _ Hcons) Hno).
    rewrite KeySide.key_side_length. cbn [key_side Filter.seeds].
    rewrite Hlen, Hseeds. f_equal.
    erewrite bool_decide_ext; [reflexivity|]. intuition congruence.
Qed.
End FalsePositiveTheorem.

Lemma answer_for_an_absent_key_witness :
  Filter.contains (T:=Tests) 1337 (state trace_small) =
    Returns
      (if bool_decide
            (Forall (fun seed =>
               length (load (T:=Tests) 10 some_seeds (present trace_small)
                         (slot (T:=Tests) 10 1337 seed)) <> 1%nat)
               some_seeds /\
             Exists (fun seed =>
               (2 <= length (load (T:=Tests) 10 some_seeds
                               (present trace_small)
                               (slot (T:=Tests) 10 1337 seed)))%nat)
               some_seeds)
       then might_exist else not_found)
  /\
  Dictionary.contains (T:=Tests) 1337 (state dtrace_small) =
    Returns
      (if bool_decide
            (Forall (fun seed =>
               length (load (T:=Tests) 10 some_seeds
                         (present dtrace_small).*1
                         (slot (T:=Tests) 10 1337 seed)) <> 1%nat)
               some_seeds /\
             Exists (fun seed =>
               (2 <= length (load (T:=Tests) 10 some_seeds
                               (present dtrace_small).*1
                               (slot (T:=Tests) 10 1337 seed)))%nat)
               some_seeds)
       then might_exist else not_found).
Proof.
  split.
  - apply (proj1 (@answer_for_an_absent_key Tests some_seeds 10 1337
                    ops_small trace_small dops_small dtrace_small
                    ltac:(discriminate))).
    + vm_compute. reflexivity.
    + vm_compute. reflexivity.
    + apply (bool_decide_unpack _). vm_compute. exact I.
  - apply (proj2 (@answer_for_an_absent_key Tests some_seeds 10 1337
                    ops_small trace_small dops_small dtrace_small
                    ltac:(discriminate))).
    + vm_compute. reflexivity.
    + reflexivity.
    + vm_compute. reflexivity.
    + apply (bool_decide_unpack _). vm_compute. exact I.
Defined.
